(** * sync_media.py: staging of media derivatives and mirroring to Akamai

    A shallow embedding of [src/sync_media.py] (class [Control] and the
    [__main__] block) and the properties its specification states about it.

    Python text is a sequence of Unicode code points; effects (filesystem,
    process environment, counter, log, console, subprocesses, cached
    properties) are threaded through an explicit state, and a raised exception
    aborts the computation while keeping the effects already performed. *)

From Stdlib Require Import ZArith NArith List Bool Ascii String Lia.
From Stdlib Require Import Floats.SpecFloat.
From Stdlib Require Import Reals Lra.
From stdpp Require Import base option list gmap fin_maps.

Local Open Scope Z_scope.

(** ** Python built-ins used by the script *)

Module Py.

(** A [str] is a list of code points. *)
Abbreviation char := N (only parsing).
Abbreviation str := (list N) (only parsing).

(** Text of an ASCII literal of the source. *)
Fixpoint u (s : string) : str :=
  match s with
  | EmptyString => []
  | String a r => N_of_ascii a :: u r
  end.

Definition str_eqb (a b : str) : bool := bool_decide (a = b).

(** [s.startswith(p)] *)
Fixpoint startswith (p s : str) : bool :=
  match p, s with
  | [], _ => true
  | _ :: _, [] => false
  | a :: p', b :: s' => N.eqb a b && startswith p' s'
  end.

(** [s.split(sep)] for a one-character separator: the list of the pieces
    between separators, in order; never empty. *)
Fixpoint split (sep : char) (s : str) : list str :=
  match s with
  | [] => [[]]
  | c :: r =>
      if N.eqb c sep then [] :: split sep r
      else match split sep r with
           | [] => [[c]]
           | p :: ps => (c :: p) :: ps
           end
  end.

(** Line boundaries of [str.splitlines]: LF, VT, FF, CR, FS, GS, RS, NEL,
    LINE SEPARATOR, PARAGRAPH SEPARATOR (CR LF counts once). *)
Definition is_linebreak (c : char) : bool :=
  ((10 <=? c) && (c <=? 13) || (28 <=? c) && (c <=? 30)
   || (c =? 133) || (c =? 8232) || (c =? 8233))%N.

(** [s.splitlines()]: [cur] is the line being read, reversed. A final line
    is produced only if it is not empty. *)
Fixpoint splitlines_from (cur : str) (s : str) : list str :=
  match s with
  | [] => match cur with [] => [] | _ => [rev cur] end
  | c :: r =>
      if is_linebreak c then
        rev cur ::
          match r with
          | d :: r' =>
              if (c =? 13)%N && (d =? 10)%N then splitlines_from [] r'
              else splitlines_from [] r
          | [] => splitlines_from [] r
          end
      else splitlines_from (c :: cur) r
  end.

Definition splitlines (s : str) : list str := splitlines_from [] s.

(** [str.isspace] for one code point (Unicode White_Space plus the
    information separators FS..US). *)
Definition isspace (c : char) : bool :=
  ((9 <=? c) && (c <=? 13) || (28 <=? c) && (c <=? 32)
   || (c =? 133) || (c =? 160) || (c =? 5760)
   || (8192 <=? c) && (c <=? 8202)
   || (c =? 8232) || (c =? 8233) || (c =? 8239) || (c =? 8287)
   || (c =? 12288))%N.

Fixpoint lstrip (s : str) : str :=
  match s with
  | c :: r => if isspace c then lstrip r else s
  | [] => []
  end.

(** [s.strip()] *)
Definition strip (s : str) : str := rev (lstrip (rev (lstrip s))).

(** Code points of the digit zero of every Unicode decimal-digit range
    (general category Nd, Unicode 14); the nine code points after each are
    the digits one to nine. *)
Definition decimal_zeros : list N :=
  [48; 1632; 1776; 1984; 2406; 2534; 2662; 2790; 2918; 3046; 3174; 3302;
   3430; 3558; 3664; 3792; 3872; 4160; 4240; 6112; 6160; 6470; 6608; 6784;
   6800; 6992; 7088; 7232; 7248; 42528; 43216; 43264; 43472; 43504; 43600;
   44016; 65296; 66720; 68912; 69734; 69872; 69942; 70096; 70384; 70736;
   70864; 71248; 71360; 71472; 71904; 72016; 72784; 73040; 73120; 92768;
   92864; 93008; 120782; 120792; 120802; 120812; 120822; 123200; 123632;
   125264; 130032]%N.

(** Decimal value of a code point, if it is a decimal digit. *)
Definition digit_value (c : char) : option Z :=
  match List.find (fun z => (z <=? c) && (c <? z + 10))%N decimal_zeros with
  | Some z => Some (Z.of_N (c - z))
  | None => None
  end.

(** White space that [int] skips around the number: [isspace] without the
    four ASCII information separators, which the C-level parser rejects. *)
Definition int_space (c : char) : bool :=
  isspace c && negb ((28 <=? c) && (c <=? 31))%N.

Fixpoint int_lstrip (s : str) : str :=
  match s with
  | c :: r => if int_space c then int_lstrip r else s
  | [] => []
  end.

(** Digits with single underscores between them. [acc] is the value read so
    far and [after_digit] tells whether the previous character was a digit
    (an underscore is legal only then, and never last). *)
Fixpoint int_digits (acc : Z) (after_digit : bool) (s : str) : option Z :=
  match s with
  | [] => if after_digit then Some acc else None
  | c :: r =>
      if (c =? 95)%N then
        if after_digit then int_digits acc false r else None
      else match digit_value c with
           | Some d => int_digits (10 * acc + d) true r
           | None => None
           end
  end.

(** [int(s)] in base ten: optional white space, an optional sign, digits,
    optional white space. [None] stands for [ValueError]. *)
Definition int (s : str) : option Z :=
  let body := rev (int_lstrip (rev (int_lstrip s))) in
  match body with
  | c :: r =>
      if (c =? 45)%N then option_map Z.opp (int_digits 0 false r)
      else if (c =? 43)%N then int_digits 0 false r
      else int_digits 0 false body
  | [] => None
  end.

(** Decimal digits of a natural number, most significant first; [fuel]
    bounds the number of digits. *)
Fixpoint digits_of (fuel : nat) (n : N) (acc : str) : str :=
  match fuel with
  | O => acc
  | S f =>
      let acc' := (48 + n mod 10)%N :: acc in
      if (n <? 10)%N then acc' else digits_of f (n / 10)%N acc'
  end.

(** [f"{z:d}"] *)
Definition format_d (z : Z) : str :=
  let n := Z.to_N (Z.abs z) in
  let ds := digits_of (S (N.to_nat (N.log2 n))) n [] in
  if z <? 0 then 45%N :: ds else ds.

(** Values that [json.loads] can produce. An object keeps its members in
    document order. *)
#[local] Unset Elimination Schemes.
Inductive value :=
| VNone
| VBool (b : bool)
| VInt (z : Z)
| VFloat (f : spec_float)
| VStr (s : str)
| VList (l : list value)
| VDict (d : list (str * value)).
#[local] Set Elimination Schemes.

(** Truth value of [v] as tested by [if not v]. *)
Definition truthy (v : value) : bool :=
  match v with
  | VNone => false
  | VBool b => b
  | VInt z => negb (z =? 0)
  | VFloat f => match f with S754_zero _ => false | _ => true end
  | VStr s => match s with [] => false | _ => true end
  | VList l => match l with [] => false | _ => true end
  | VDict d => match d with [] => false | _ => true end
  end.

(** [d.get(k)] on the members of a parsed object: the last member named
    [k] wins, [None] when there is none. *)
Definition dict_get (k : str) (d : list (str * value)) : value :=
  default VNone
    (fold_left (fun acc kv => if str_eqb k (fst kv) then Some (snd kv) else acc)
               d None).

(** Python floats are IEEE 754 binary64 numbers. *)
Definition float := spec_float.

(** [float(z)] *)
Definition float_of_int (z : Z) : float := binary_normalize 53 1024 z 0 false.

(** [a / b] on integers; [None] stands for [ZeroDivisionError]. The quotient
    of the two converted operands is the correctly rounded quotient as long
    as both are below 2^53 in magnitude. *)
Definition truediv (a b : Z) : option float :=
  if b =? 0 then None
  else Some (SFdiv 53 1024 (float_of_int a) (float_of_int b)).

(** [n * x] for an integer [n] and a float [x] *)
Definition int_mul_float (n : Z) (x : float) : float :=
  SFmul 53 1024 (float_of_int n) x.

(** The integer nearest to [m * 2^e], ties going to the even one. *)
Definition nearest_even (m e : Z) : Z :=
  if 0 <=? e then m * 2 ^ e
  else
    let d := 2 ^ (- e) in
    let q := m / d in
    match 2 * (m mod d) ?= d with
    | Lt => q
    | Gt => q + 1
    | Eq => if Z.even q then q else q + 1
    end.

(** [round(x)] with one argument: an exact integer; [None] stands for the
    error raised on an infinity or a NaN. *)
Definition round (x : float) : option Z :=
  match x with
  | S754_zero _ => Some 0
  | S754_finite s m e => Some (cond_Zopp s (nearest_even (Zpos m) e))
  | S754_infinity _ | S754_nan => None
  end.

(** [PurePath.stem] and [PurePath.suffix] of a file name: the name is cut
    at its last dot unless that dot is the first or the last character. *)
Fixpoint rfind (c : char) (s : str) (i : nat) : option nat :=
  match s with
  | [] => None
  | x :: r =>
      match rfind c r (S i) with
      | Some j => Some j
      | None => if (x =? c)%N then Some i else None
      end
  end.

Definition cut (name : str) : option nat :=
  match rfind 46%N name 0 with
  | Some i => if Nat.ltb 0 i && Nat.ltb (S i) (length name) then Some i else None
  | None => None
  end.

Definition suffix (name : str) : str :=
  match cut name with Some i => drop i name | None => [] end.

Definition stem (name : str) : str :=
  match cut name with Some i => take i name | None => name end.

(** [Path(a) / b] for a relative [b] *)
Definition joinpath (a b : str) : str := a ++ 47%N :: b.

End Py.

Import Py.

(** ** Exceptions *)

Inductive exn :=
| ValueError
| IndexError
| ZeroDivisionError
| OverflowError
| AttributeError
| UnicodeEncodeError
| RuntimeError (msg : str)
| FileExistsError
| NotADirectoryError
| CalledProcessError (returncode : Z)
| OtherError (name : str)
| SystemExit (code : Z)
| KeyboardInterrupt.

(** [isinstance(e, Exception)]: what [except Exception] catches. *)
Definition is_Exception (e : exn) : bool :=
  match e with
  | SystemExit _ | KeyboardInterrupt => false
  | _ => true
  end.

(** Exit status of the interpreter when [e] reaches the top uncaught. *)
Definition uncaught_status (e : exn) : Z :=
  match e with
  | SystemExit code => code
  | KeyboardInterrupt => 130
  | _ => 1
  end.

Inductive outcome (A : Type) :=
| Returns (a : A)
| Raises (e : exn).
Arguments Returns {A} a.
Arguments Raises {A} e.

(** ** Data of a run *)

(** Namespace returned by [ArgumentParser.parse_args]. *)
Record options := {
  host : str;
  checksums : bool;
  staged : bool;
  verbose : bool
}.

Inductive resample := NEAREST | BILINEAR | BICUBIC | LANCZOS.

(** A PIL image, as the history of the calls that produced it. *)
Inductive image :=
| Decoded (path : str) (mode : str) (width height : Z)
| Converted (im : image) (mode : str)
| Resized (im : image) (size : Z * Z) (filter : resample).

Fixpoint im_mode (im : image) : str :=
  match im with
  | Decoded _ m _ _ => m
  | Converted _ m => m
  | Resized i _ _ => im_mode i
  end.

Fixpoint im_width (im : image) : Z :=
  match im with
  | Decoded _ _ w _ => w
  | Converted i _ => im_width i
  | Resized _ sz _ => fst sz
  end.

Fixpoint im_height (im : image) : Z :=
  match im with
  | Decoded _ _ _ h => h
  | Converted i _ => im_height i
  | Resized _ sz _ => snd sz
  end.

(** What a path of the staging area holds. *)
Inductive node :=
| Directory
| HardLink (source : str)
| Saved (im : image) (format : str) (quality : Z).

(** The staging root [../akamai] and everything below it, by path. *)
Inductive root :=
| Absent
| NotDirectory
| Tree (entries : gmap str node).

Definition entries_of (r : root) : gmap str node :=
  match r with Tree m => m | _ => ∅ end.

(** Result of [subprocess.run] with captured text output. *)
Record completed := {
  returncode : Z;
  stdout : str;
  stderr : str
}.

(** The file [.secrets.json]: missing, unreadable as JSON (reading or parsing
    raises), or holding a JSON value. *)
Inductive secrets_file :=
| NoSecrets
| BadSecrets (e : exn)
| Secrets (v : value).

Inductive record :=
| InfoStaged (n : Z) (elapsed : Z)
| InfoSyncing (h : str)
| InfoSynced (n : Z) (elapsed : Z)
| InfoProcessed (n : Z) (elapsed : Z)
| ErrorAddingKey (output : str)
| InfoSshAdd (output : str)
| ExceptionSyncFailed (e : exn).

Inductive message :=
| MsgStagedSoFar (n : Z)
| MsgDone (elapsed : Z)
| MsgSyncing (h : str)
| MsgTotal (elapsed : Z)
| MsgSyncFailed (e : exn).

(** The calls that read or write files, in program order. *)
Inductive call :=
| CallHardlink (newpath path : str)
| CallOpen (path : str)
| CallSave (im : image) (newpath format : str) (quality : Z).

(** Everything outside the script that a run depends on. *)
Record world := {
  parse_args : outcome options;
  glob_blobs : list str;
  datetime_now : nat -> Z;
  log_file_error : option exn;
  image_open : str -> outcome (str * Z * Z);
  convert_error : image -> str -> option exn;
  resize_error : image -> Z * Z -> resample -> option exn;
  save_error : image -> str -> option exn;
  link_error : str -> str -> option exn;
  secrets_json : secrets_file;
  subprocess : list str -> value -> gmap str str -> outcome completed
}.

(** State of the process and of the files it writes. [invoked] lists the
    command lines handed to [subprocess.run] and [calls] the calls into the
    filesystem and PIL, oldest first. *)
Record state := {
  akamai_dir : root;
  environ : gmap str str;
  count : Z;
  log : list record;
  console : list message;
  invoked : list (list str);
  calls : list call;
  ticks : nat;
  akamai_cached : bool;
  audio_cached : bool;
  images_cached : bool
}.

(** A fresh process started on a given staging root, environment and log. *)
Definition fresh (r : root) (env : gmap str str) (l : list record) : state :=
  {| akamai_dir := r; environ := env; count := 0; log := l; console := [];
     invoked := []; calls := []; ticks := 0%nat;
     akamai_cached := false; audio_cached := false; images_cached := false |}.

(** Field updates. *)
Definition set_akamai_dir (r : root) (s : state) : state :=
  {| akamai_dir := r; environ := environ s; count := count s; log := log s;
     console := console s; invoked := invoked s; calls := calls s;
     ticks := ticks s; akamai_cached := akamai_cached s;
     audio_cached := audio_cached s; images_cached := images_cached s |}.
Definition set_environ (e : gmap str str) (s : state) : state :=
  {| akamai_dir := akamai_dir s; environ := e; count := count s;
     log := log s; console := console s; invoked := invoked s;
     calls := calls s; ticks := ticks s; akamai_cached := akamai_cached s;
     audio_cached := audio_cached s; images_cached := images_cached s |}.
Definition set_count (n : Z) (s : state) : state :=
  {| akamai_dir := akamai_dir s; environ := environ s; count := n;
     log := log s; console := console s; invoked := invoked s;
     calls := calls s; ticks := ticks s; akamai_cached := akamai_cached s;
     audio_cached := audio_cached s; images_cached := images_cached s |}.
Definition set_log (l : list record) (s : state) : state :=
  {| akamai_dir := akamai_dir s; environ := environ s; count := count s;
     log := l; console := console s; invoked := invoked s; calls := calls s;
     ticks := ticks s; akamai_cached := akamai_cached s;
     audio_cached := audio_cached s; images_cached := images_cached s |}.
Definition set_console (c : list message) (s : state) : state :=
  {| akamai_dir := akamai_dir s; environ := environ s; count := count s;
     log := log s; console := c; invoked := invoked s; calls := calls s;
     ticks := ticks s; akamai_cached := akamai_cached s;
     audio_cached := audio_cached s; images_cached := images_cached s |}.
Definition set_invoked (i : list (list str)) (s : state) : state :=
  {| akamai_dir := akamai_dir s; environ := environ s; count := count s;
     log := log s; console := console s; invoked := i; calls := calls s;
     ticks := ticks s; akamai_cached := akamai_cached s;
     audio_cached := audio_cached s; images_cached := images_cached s |}.
Definition set_calls (c : list call) (s : state) : state :=
  {| akamai_dir := akamai_dir s; environ := environ s; count := count s;
     log := log s; console := console s; invoked := invoked s; calls := c;
     ticks := ticks s; akamai_cached := akamai_cached s;
     audio_cached := audio_cached s; images_cached := images_cached s |}.
Definition set_ticks (t : nat) (s : state) : state :=
  {| akamai_dir := akamai_dir s; environ := environ s; count := count s;
     log := log s; console := console s; invoked := invoked s;
     calls := calls s; ticks := t; akamai_cached := akamai_cached s;
     audio_cached := audio_cached s; images_cached := images_cached s |}.
Definition set_akamai_cached (b : bool) (s : state) : state :=
  {| akamai_dir := akamai_dir s; environ := environ s; count := count s;
     log := log s; console := console s; invoked := invoked s;
     calls := calls s; ticks := ticks s; akamai_cached := b;
     audio_cached := audio_cached s; images_cached := images_cached s |}.
Definition set_audio_cached (b : bool) (s : state) : state :=
  {| akamai_dir := akamai_dir s; environ := environ s; count := count s;
     log := log s; console := console s; invoked := invoked s;
     calls := calls s; ticks := ticks s; akamai_cached := akamai_cached s;
     audio_cached := b; images_cached := images_cached s |}.
Definition set_images_cached (b : bool) (s : state) : state :=
  {| akamai_dir := akamai_dir s; environ := environ s; count := count s;
     log := log s; console := console s; invoked := invoked s;
     calls := calls s; ticks := ticks s; akamai_cached := akamai_cached s;
     audio_cached := audio_cached s; images_cached := b |}.

(** ** Computations: state passing with exceptions *)

Definition M (A : Type) : Type := state -> outcome A * state.

Definition ret {A} (a : A) : M A := fun s => (Returns a, s).
Definition raise {A} (e : exn) : M A := fun s => (Raises e, s).
Definition bind {A B} (c : M A) (k : A -> M B) : M B :=
  fun s => match c s with
           | (Returns a, s') => k a s'
           | (Raises e, s') => (Raises e, s')
           end.

Declare Scope py_scope.
Delimit Scope py_scope with py.
Notation "'let!' x ':=' c 'in' k" := (bind c (fun x => k))
  (at level 10, x name, c at level 100, k at level 200) : py_scope.
Notation "c ';;' k" := (bind c (fun _ => k))
  (at level 100, k at level 200, right associativity) : py_scope.
Local Open Scope py_scope.

Definition gets {A} (f : state -> A) : M A := fun s => (Returns (f s), s).
Definition modify (f : state -> state) : M unit := fun s => (Returns tt, f s).
Definition lift {A} (o : outcome A) : M A := fun s => (o, s).
Definition when (b : bool) (c : M unit) : M unit := if b then c else ret tt.

(** [for x in l: body x] *)
Fixpoint for_each {A} (l : list A) (body : A -> M unit) : M unit :=
  match l with
  | [] => ret tt
  | x :: r => body x ;; for_each r body
  end.

(** ** Collaborators: clock, logger, console, filesystem, PIL, subprocesses *)

Section Control.

Variable w : world.

(** [datetime.now()] *)
Definition now : M Z :=
  let! t := gets ticks in
  modify (set_ticks (S t)) ;;
  ret (datetime_now w t).

(** [self.logger]: the log file is opened when the logger is made, which
    can fail. *)
Definition get_logger : M unit :=
  match log_file_error w with
  | Some e => raise e
  | None => ret tt
  end.

Definition log_append (r : record) : M unit :=
  modify (fun s => set_log (log s ++ [r]) s).

(** [self.logger.<level>(...)] *)
Definition logger (r : record) : M unit := get_logger ;; log_append r.

(** [stderr.write(...)] *)
Definition stderr_write (m : message) : M unit :=
  modify (fun s => set_console (console s ++ [m]) s).

Definition record_call (c : call) : M unit :=
  modify (fun s => set_calls (calls s ++ [c]) s).

(** [self.opts] and the properties that read it. *)
Definition opts : M options := lift (parse_args w).
Definition get_staged : M bool := let! o := opts in ret (staged o).
Definition get_verbose : M bool := let! o := opts in ret (verbose o).
Definition get_host : M str := let! o := opts in ret (host o).
Definition get_checksums : M bool := let! o := opts in ret (checksums o).

(** [shutil.rmtree(path)] of the staging root. *)
Definition rmtree : M unit :=
  let! r := gets akamai_dir in
  match r with
  | NotDirectory => raise NotADirectoryError
  | _ => modify (set_akamai_dir Absent)
  end.

(** [path.mkdir(parents=True)] for a directory directly below the root:
    the root is made if it is missing; an existing [path] is an error. *)
Definition mkdir_parents (path : str) : M unit :=
  let! r := gets akamai_dir in
  match r with
  | NotDirectory => raise NotADirectoryError
  | Absent => modify (set_akamai_dir (Tree {[ path := Directory ]}))
  | Tree m =>
      match m !! path with
      | Some _ => raise FileExistsError
      | None => modify (set_akamai_dir (Tree (<[ path := Directory ]> m)))
      end
  end.

(** [newpath.hardlink_to(path)] *)
Definition hardlink_to (newpath path : str) : M unit :=
  record_call (CallHardlink newpath path) ;;
  let! r := gets akamai_dir in
  match entries_of r !! newpath with
  | Some _ => raise FileExistsError
  | None =>
      match link_error w newpath path with
      | Some e => raise e
      | None => modify (set_akamai_dir (Tree (<[ newpath := HardLink path ]> (entries_of r))))
      end
  end.

(** [Image.open(path)] *)
Definition Image_open (path : str) : M image :=
  record_call (CallOpen path) ;;
  match image_open w path with
  | Returns (mode, width, height) => ret (Decoded path mode width height)
  | Raises e => raise e
  end.

(** [image.convert(mode)] *)
Definition convert (im : image) (mode : str) : M image :=
  match convert_error w im mode with
  | Some e => raise e
  | None => ret (Converted im mode)
  end.

(** [image.resize(size, filter)] *)
Definition resize (im : image) (size : Z * Z) (filter : resample) : M image :=
  match resize_error w im size filter with
  | Some e => raise e
  | None => ret (Resized im size filter)
  end.

(** [image.save(newpath, format, quality=q)]: a failed save leaves no file
    of its own behind. *)
Definition save (im : image) (newpath : str) (format : str) (quality : Z) : M unit :=
  record_call (CallSave im newpath format quality) ;;
  match save_error w im newpath with
  | Some e => raise e
  | None =>
      let! r := gets akamai_dir in
      modify (set_akamai_dir (Tree (<[ newpath := Saved im format quality ]> (entries_of r))))
  end.

(** [subprocess.run(args, input=..., check=...)]: the call is recorded,
    then the outcome is the collaborator's. *)
Definition run_process (args : list str) (input : value) (check : bool) : M completed :=
  modify (fun s => set_invoked (invoked s ++ [args]) s) ;;
  let! env := gets environ in
  let! p := lift (subprocess w args input env) in
  if check && negb (returncode p =? 0) then raise (CalledProcessError (returncode p))
  else ret p.

(** A code point that the environment cannot hold: a surrogate outside the
    range that the filesystem encoding escapes. *)
Definition unencodable (c : char) : bool :=
  ((55296 <=? c) && (c <=? 57343) && negb ((56448 <=? c) && (c <=? 56575)))%N.

(** [environ[key] = value] *)
Definition environ_set (key value : str) : M unit :=
  if existsb unencodable value then raise UnicodeEncodeError
  else if existsb (N.eqb 0) value then raise ValueError
  else modify (fun s => set_environ (<[ key := value ]> (environ s)) s).

(** ** class Control *)

Definition IMAGE_WIDTHS : list Z := [571; 750].
Definition JPEG_QUALITY : Z := 80.
Definition KEYS : list str := [u "SSH_AUTH_SOCK"; u "SSH_AGENT_PID"].

(** [akamai] (cached): the staging root, removed on first use if it exists. *)
Definition akamai : M str :=
  let! cached := gets akamai_cached in
  (if cached then ret tt
   else
     let! r := gets akamai_dir in
     (match r with
      | Absent => ret tt
      | _ => rmtree
      end) ;;
     modify (set_akamai_cached true)) ;;
  ret (u "../akamai").

(** [audio] (cached): made below the staging root on first use. *)
Definition audio : M str :=
  let! cached := gets audio_cached in
  if cached then ret (u "../akamai/audio")
  else
    let! a := akamai in
    let audio := joinpath a (u "audio") in
    mkdir_parents audio ;;
    modify (set_audio_cached true) ;;
    ret audio.

(** [images] (cached): made below the staging root on first use. *)
Definition images : M str :=
  let! cached := gets images_cached in
  if cached then ret (u "../akamai/images")
  else
    let! a := akamai in
    let images := joinpath a (u "images") in
    mkdir_parents images ;;
    modify (set_images_cached true) ;;
    ret images.

(** [blobs]: the directory of the source media. *)
Definition blobs : str := u "../blobs".

(** Height of the variant of width [width] of an image:
    [int(round(width * ratio))] with [ratio = image.height / image.width]. *)
Definition scaled_height (width : Z) (ratio : float) : M Z :=
  match round (int_mul_float width ratio) with
  | Some h => ret h
  | None => raise OverflowError
  end.

(** Body of the loop over [IMAGE_WIDTHS]. *)
Definition stage_width (image : image) (ratio : float) (dir : str) (doc_id : Z)
    (width : Z) : M unit :=
  let newpath := joinpath dir (format_d doc_id ++ u "-" ++ format_d width ++ u ".jpg") in
  let! scaled_image :=
    (if width <? im_width image then
       let! height := scaled_height width ratio in
       let size := (width, height) in
       resize image size LANCZOS
     else ret image) in
  save scaled_image newpath (u "JPEG") JPEG_QUALITY.

(** The audio branch of the loop of [stage]: a hard link in [audio]. *)
Definition stage_audio (doc_id : Z) (path : str) : M unit :=
  let! dir := audio in
  let newpath := joinpath dir (format_d doc_id ++ u ".mp3") in
  hardlink_to newpath path.

(** The other branch: the file is decoded as an image and saved at full
    size and at each of [IMAGE_WIDTHS]. *)
Definition stage_image (doc_id : Z) (path : str) : M unit :=
  let! image := Image_open path in
  let! image := (if str_eqb (im_mode image) (u "P")
                 then convert image (u "RGB") else ret image) in
  let! dir := images in
  let newpath := joinpath dir (format_d doc_id ++ u ".jpg") in
  save image newpath (u "JPEG") JPEG_QUALITY ;;
  let! ratio :=
    (match truediv (im_height image) (im_width image) with
     | Some r => ret r
     | None => raise ZeroDivisionError
     end) in
  for_each IMAGE_WIDTHS (stage_width image ratio dir doc_id).

(** The end of the loop body: [self.count += 1] and the progress message. *)
Definition count_entry : M unit :=
  let! n := gets count in
  modify (set_count (n + 1)) ;;
  let! v := get_verbose in
  when v (let! n := gets count in stderr_write (MsgStagedSoFar n)).

(** Body of the loop of [stage], for the directory entry called [name]. *)
Definition stage_entry (name : str) : M unit :=
  let path := joinpath blobs name in
  let! doc_id :=
    (match int (stem name) with
     | Some z => ret z
     | None => raise ValueError
     end) in
  (if str_eqb (suffix name) (u ".mp3") then stage_audio doc_id path
   else stage_image doc_id path) ;;
  count_entry.

(** [stage]: populate the source area for the sync. *)
Definition stage : M unit :=
  let! start := now in
  for_each (glob_blobs w) stage_entry ;;
  let! finish := now in
  let elapsed := finish - start in
  get_logger ;;
  let! n := gets count in
  log_append (InfoStaged n elapsed) ;;
  let! v := get_verbose in
  when v (stderr_write (MsgDone elapsed)).

(** [key_data]: the SSH private key. *)
Definition key_data : M value :=
  let! env := gets environ in
  let key := match env !! u "AKAMAI_KEY" with
             | Some k => VStr k
             | None => VNone
             end in
  let! key :=
    (if negb (truthy key) then
       match secrets_json w with
       | NoSecrets => ret key
       | BadSecrets e => raise e
       | Secrets (VDict d) => ret (dict_get (u "AKAMAI_KEY") d)
       | Secrets _ => raise AttributeError
       end
     else ret key) in
  if negb (truthy key) then raise (RuntimeError (u "missing SSH key"))
  else ret key.

(** [rsync]: the command line of the transfer. *)
Definition rsync (o : options) : list str :=
  let local := u "../akamai/" in
  let remote := u "sshacs@" ++ host o ++ u ":media" in
  let check := if checksums o then u "--checksum" else u "--size-only" in
  [u "rsync"; u "--delete"; check; u "-aze"; u "ssh"; local; remote].

(** [__add_key_to_agent] *)
Definition add_key_to_agent : M unit :=
  let! key := key_data in
  let! proc := run_process [u "ssh-add"; u "-"] key false in
  let output := strip (strip (stdout proc) ++ [10%N] ++ strip (stderr proc)) in
  (if negb (returncode proc =? 0) then
     logger (ErrorAddingKey output) ;;
     raise (RuntimeError (u "failure adding SSH key to agent"))
   else ret tt) ;;
  match output with
  | [] => ret tt
  | _ => logger (InfoSshAdd output)
  end.

(** The assignment [environ[key] = line.split(";")[0].split("=")[1]]. *)
Definition set_from_line (key line : str) : M unit :=
  match split 59%N line with
  | first :: _ =>
      match split 61%N first with
      | _ :: value :: _ => environ_set key value
      | _ => raise IndexError
      end
  | [] => raise IndexError
  end.

(** [__start_ssh_agent] *)
Definition start_ssh_agent : M unit :=
  let! result := run_process [u "ssh-agent"; u "-s"] VNone false in
  for_each (splitlines (stdout result)) (fun line =>
    for_each KEYS (fun key =>
      when (startswith key line) (set_from_line key line))).

(** [sync]: push the staged files to the host. *)
Definition sync : M unit :=
  get_logger ;;
  let! h := get_host in
  log_append (InfoSyncing h) ;;
  let! v := get_verbose in
  when v (let! h := get_host in stderr_write (MsgSyncing h)) ;;
  let! start := now in
  start_ssh_agent ;;
  add_key_to_agent ;;
  let! o := opts in
  let! _p := run_process (rsync o) VNone true in
  let! finish := now in
  let elapsed := finish - start in
  get_logger ;;
  let! n := gets count in
  log_append (InfoSynced n elapsed) ;;
  let! v := get_verbose in
  when v (stderr_write (MsgDone elapsed)).

(** The block of [run] that reports the totals of a run that staged. *)
Definition report_totals (start : Z) : M unit :=
  let! finish := now in
  let elapsed := finish - start in
  get_logger ;;
  let! n := gets count in
  log_append (InfoProcessed n elapsed) ;;
  let! v := get_verbose in
  when v (stderr_write (MsgTotal elapsed)).

(** [run]: top-level entry point of the class. *)
Definition run : M unit :=
  let! start := now in
  let! st := get_staged in
  when (negb st) stage ;;
  sync ;;
  let! st := get_staged in
  when (negb st) (report_totals start).

(** The [__main__] block: the exit status of the process and the state it
    leaves. *)
Definition main (s0 : state) : Z * state :=
  match run s0 with
  | (Returns _, s) => (0, s)
  | (Raises e, s) =>
      if is_Exception e then
        match (logger (ExceptionSyncFailed e) ;;
               let! v := get_verbose in
               when v (stderr_write (MsgSyncFailed e))) s with
        | (Returns _, s') => (0, s')
        | (Raises e', s') => (uncaught_status e', s')
        end
      else (uncaught_status e, s)
  end.

End Control.

(** * Reasoning about computations *)

Arguments u : simpl never.

(** [R] relates the state before every run of [c] to the state after it. *)
Definition maintains (R : relation state) {A} (c : M A) : Prop :=
  forall s, R s (snd (c s)).

(** The states that agree on [f]. *)
Definition same {X} (f : state -> X) : relation state :=
  fun s s' => f s' = f s.

(** [f] is left unchanged by [c]. *)
Definition preserves {X A} (f : state -> X) (c : M A) : Prop :=
  maintains (same f) c.

(** [Q] holds of the outcome and final state of [c] run from [s]. *)
Definition wp {A} (c : M A) (Q : outcome A -> state -> Prop) (s : state) : Prop :=
  Q (fst (c s)) (snd (c s)).

(** * Vocabulary of the properties *)

(** The fallback file is missing, or is an object without the credential
    field. *)
Definition lacks_key (f : secrets_file) : Prop :=
  f = NoSecrets \/
  exists d, f = Secrets (VDict d) /\ forall v, (u "AKAMAI_KEY", v) ∉ d.

(** The fallback file gives a usable key. *)
Definition fallback_truthy (f : secrets_file) : Prop :=
  exists d, f = Secrets (VDict d) /\ truthy (dict_get (u "AKAMAI_KEY") d) = true.

Definition missing_key : exn := RuntimeError (u "missing SSH key").

Definition ssh_agent_command : list str := [u "ssh-agent"; u "-s"].
Definition ssh_add_command : list str := [u "ssh-add"; u "-"].

(** ** Sample runs *)

(** A world in which every collaborator succeeds: the agent prints [agent_out],
    the other commands print nothing, every image is [picture], the clock
    advances by one per reading. *)
Definition world_of (o : outcome options) (names : list str)
    (picture : str * Z * Z) (secrets : secrets_file) (agent_out : str) : world :=
  {| parse_args := o;
     glob_blobs := names;
     datetime_now := fun n => Z.of_nat n;
     log_file_error := None;
     image_open := fun _ => Returns picture;
     convert_error := fun _ _ => None;
     resize_error := fun _ _ _ => None;
     save_error := fun _ _ => None;
     link_error := fun _ _ => None;
     secrets_json := secrets;
     subprocess := fun args _ _ =>
       Returns {| returncode := 0;
                  stdout := if bool_decide (args = ssh_agent_command)
                            then agent_out else [];
                  stderr := [] |} |}.

Definition plain_options : options :=
  {| host := u "media.example.net"; checksums := false; staged := false;
     verbose := false |}.

Definition agent_text : str :=
  u "SSH_AUTH_SOCK=/tmp/ssh-XXXX/agent.1; export SSH_AUTH_SOCK;" ++ [10%N] ++
  u "SSH_AGENT_PID=4242; export SSH_AGENT_PID;" ++ [10%N] ++
  u "echo Agent pid 4242;" ++ [10%N].

(** Nothing to stage, no key anywhere. *)
Definition world_without_key : world :=
  world_of (Returns plain_options) [] (u "RGB", 1000, 500) NoSecrets agent_text.

(** The key comes from the fallback file. *)
Definition world_with_secret : world :=
  world_of (Returns plain_options) [u "42.png"; u "7.mp3"] (u "P", 1000, 500)
    (Secrets (VDict [(u "AKAMAI_KEY", VStr (u "-----BEGIN KEY-----"))]))
    agent_text.

(** The agent prints a variable name without a value. *)
Definition world_bare_agent : world :=
  world_of (Returns plain_options) [] (u "RGB", 1000, 500) NoSecrets
    (u "SSH_AUTH_SOCK" ++ [10%N]).

(** The commands invoked so far and the credential variable. *)
Definition transfer_view (s : state) : list (list str) * option str :=
  (invoked s, environ s !! u "AKAMAI_KEY").

(** A run that stops with an error after invoking at most the agent. *)
Definition stops_before_transfer (s : state) (o : outcome unit) (s1 : state) : Prop :=
  (exists e, o = Raises e) /\
  (invoked s1 = invoked s \/ invoked s1 = invoked s ++ [ssh_agent_command]).

(** ** Lines of the agent's output *)

(** What [__start_ssh_agent] does with one line. *)
Definition agent_line (line : str) : M unit :=
  for_each KEYS (fun key => when (startswith key line) (set_from_line key line)).

(** The line begins with one of the two variable names. *)
Definition recognized (line : str) : bool :=
  existsb (fun key => startswith key line) KEYS.

(** The part of the line before its first [;] has a [=], and what follows
    that [=] (up to the next one) can be stored in the environment. *)
Definition assignable (line : str) : bool :=
  match split 59%N line with
  | first :: _ =>
      match split 61%N first with
      | _ :: value :: _ =>
          negb (existsb unencodable value) && negb (existsb (N.eqb 0) value)
      | _ => false
      end
  | [] => false
  end.

Definition line_ok (line : str) : bool := negb (recognized line) || assignable line.

(** ** Calls made while staging *)


(** From [s] to [s'] the list [f] only grew, by elements that satisfy [P]. *)
Definition appends {X} (f : state -> list X) (P : X -> bool) : relation state :=
  fun s s' => exists new, f s' = f s ++ new /\ forallb P new = true.


(** Where the hard link of document [doc_id] goes. *)
Definition audio_path (doc_id : Z) : str :=
  joinpath (u "../akamai/audio") (format_d doc_id ++ u ".mp3").

(** ** Records of the log *)



(** The records that a run from [s] to [s'] appended to the log. *)
Definition new_records (s s' : state) : list record :=
  drop (length (log s)) (log s').

(** ** Staged images *)

(** The image that is saved: a palette image is converted first. *)
Definition prepared (im : image) : image :=
  if str_eqb (im_mode im) (u "P") then Converted im (u "RGB") else im.

(** Where the full-size copy and the variant of a width go. *)
Definition full_path (doc_id : Z) : str :=
  joinpath (u "../akamai/images") (format_d doc_id ++ u ".jpg").

Definition variant_path (doc_id width : Z) : str :=
  joinpath (u "../akamai/images")
    (format_d doc_id ++ u "-" ++ format_d width ++ u ".jpg").

(** What staging an image leaves at the path of the variant of width
    [width]: the image resized to that width when it is wider, with the
    height [int(round(width * (height / width_of_image)))] of the source, and
    the image itself otherwise. *)
Definition variant_saved (r : root) (doc_id : Z) (im : image) (width : Z) : Prop :=
  (width < im_width im ->
   exists ratio h,
     truediv (im_height im) (im_width im) = Some ratio /\
     round (int_mul_float width ratio) = Some h /\
     entries_of r !! variant_path doc_id width =
       Some (Saved (Resized im (width, h) LANCZOS) (u "JPEG") 80))
  /\ (im_width im <= width ->
      entries_of r !! variant_path doc_id width = Some (Saved im (u "JPEG") 80)).

(** The height that the specification states for the variant of width
    [width]: [round(width * height / width_of_image)], the product being
    taken first. *)
Definition stated_height (width W H : Z) : option Z :=
  match truediv (width * H) W with
  | Some q => round q
  | None => None
  end.

(** The integer [h] is nearest to the fraction [n / d]: it is within one half
    of it. At an exact half both neighbours are nearest. *)
Definition nearest (n d h : Z) : Prop := Z.abs (2 * d * h - 2 * n) <= d.

(** The fraction [n / d] lies exactly half-way between two integers. *)
Definition half_way (n d : Z) : Prop := (2 * n) mod (2 * d) = d.

(** The variant of width [T] is the image resized to that width and to a
    height that is nearest to [T * height / width] of the image, and that is
    the stated height unless the fraction lies half-way. *)
Definition variant_height (r : root) (doc_id : Z) (im : image) (T : Z) : Prop :=
  exists h,
    entries_of r !! variant_path doc_id T =
      Some (Saved (Resized im (T, h) LANCZOS) (u "JPEG") 80)
    /\ nearest (T * im_height im) (im_width im) h
    /\ (~ half_way (T * im_height im) (im_width im) ->
        stated_height T (im_width im) (im_height im) = Some h).

(** ** Floats as real numbers *)

Definition bpow (e : Z) : R := powerRZ 2 e.

(** The real [y] lies at location [l] of the unit interval that starts at
    the integer [m]. *)
Definition loc_ok (y : R) (m : Z) (l : location) : Prop :=
  match l with
  | loc_Exact => y = IZR m
  | loc_Inexact Lt => (IZR m < y < IZR m + 1 / 2)%R
  | loc_Inexact Eq => y = (IZR m + 1 / 2)%R
  | loc_Inexact Gt => (IZR m + 1 / 2 < y < IZR m + 1)%R
  end.

(** The shifted mantissa with its round and sticky bits stands for [y]. *)
Definition rec_ok (y : R) (mrs : shr_record) : Prop :=
  0 <= shr_m mrs /\ loc_ok y (shr_m mrs) (loc_of_shr_record mrs).

(** A source that is 1142 pixels wide and 39 high. *)
Definition world_flat_picture : world :=
  world_of (Returns plain_options) [u "1.png"] (u "RGB", 1142, 39) NoSecrets
    agent_text.

(** ** Two runs side by side *)

(** The states agree on everything but the log. *)
Definition eqv : relation state :=
  fun s1 s2 => set_log [] s1 = set_log [] s2.

(** No directory property has been computed yet, and the staging root is
    absent or a directory. *)
Definition uncached (s : state) : Prop :=
  akamai_cached s = false /\ audio_cached s = false /\ images_cached s = false
  /\ akamai_dir s <> NotDirectory.

(** The states are both [uncached] and agree on everything but the log and
    the staging root. *)
Definition eqv_dir : relation state :=
  fun s1 s2 =>
    uncached s1 /\ uncached s2 /\
    set_akamai_dir Absent (set_log [] s1) = set_akamai_dir Absent (set_log [] s2).

Definition alike : relation state := fun s1 s2 => eqv s1 s2 \/ eqv_dir s1 s2.

(** [c] gives the same outcome from [s1] and from [s2] and leaves states
    that agree up to the log. *)
Definition agree_at {A} (c : M A) (s1 s2 : state) : Prop :=
  fst (c s1) = fst (c s2) /\ eqv (snd (c s1)) (snd (c s2)).

Definition agree {A} (c : M A) : Prop :=
  forall s1 s2, eqv s1 s2 -> agree_at c s1 s2.

(** A staging root left by an earlier run on other files. *)
Definition stale_root : root :=
  Tree (<[ u "../akamai/audio/9.mp3" := HardLink (u "../blobs/9.mp3") ]>
          {[ u "../akamai/audio" := Directory ]}).

(** The staging root stays absent or a directory. *)
Definition stays_directory : relation state :=
  fun s s' => akamai_dir s <> NotDirectory -> akamai_dir s' <> NotDirectory.

(** * Vocabulary of further properties *)

(** ** The key-loading command *)

Definition add_failed : exn := RuntimeError (u "failure adding SSH key to agent").

(** What [__add_key_to_agent] logs of the output of [ssh-add]. *)
Definition ssh_add_output (p : completed) : str :=
  strip (strip (stdout p) ++ [10%N] ++ strip (stderr p)).

(** The text is empty or white space only. *)
Definition blank (s : str) : bool := forallb isspace s.

(** The state once [args] has been handed to [subprocess.run]. *)
Definition after_command (args : list str) (s : state) : state :=
  set_invoked (invoked s ++ [args]) s.

Definition logged (r : record) (s : state) : state := set_log (log s ++ [r]) s.

(** The commands of a sync, in the order in which it invokes them. *)
Definition sync_commands (o : options) : list (list str) :=
  [ssh_agent_command; ssh_add_command; rsync o].

(** A world like [w] but with the subprocesses of [f]. *)
Definition with_subprocess
    (f : list str -> value -> gmap str str -> outcome completed) (w : world) : world :=
  {| parse_args := parse_args w; glob_blobs := glob_blobs w;
     datetime_now := datetime_now w; log_file_error := log_file_error w;
     image_open := image_open w; convert_error := convert_error w;
     resize_error := resize_error w; save_error := save_error w;
     link_error := link_error w; secrets_json := secrets_json w;
     subprocess := f |}.

(** The agent starts, [ssh-add] prints a complaint and exits with 1. *)
Definition world_rejected_key : world :=
  with_subprocess
    (fun args input env =>
       if bool_decide (args = ssh_add_command)
       then Returns {| returncode := 1; stdout := [];
                       stderr := u "Error loading key" ++ [10%N] |}
       else subprocess world_with_secret args input env)
    world_with_secret.

(** The key is loaded, [rsync] exits with 23. *)
Definition world_failed_transfer : world :=
  with_subprocess
    (fun args input env =>
       if bool_decide (args = ssh_agent_command)
       then subprocess world_with_secret args input env
       else if bool_decide (args = ssh_add_command)
       then Returns {| returncode := 0; stdout := u "Identity added" ++ [10%N];
                       stderr := [] |}
       else Returns {| returncode := 23; stdout := []; stderr := [] |})
    world_with_secret.

Definition is_synced (r : record) : bool :=
  match r with InfoSynced _ _ => true | _ => false end.

Definition not_synced (r : record) : bool := negb (is_synced r).

(** What a run has invoked when it ends in [s1] with outcome [r], having
    started in [s]: the first [n] commands of a sync and nothing else, all
    three if it completes; the transfer only for the parsed options and after
    an [ssh-add] that exited with zero. *)
Definition commands_in_order (w : world) (s : state) (r : outcome unit) (s1 : state)
    : Prop :=
  exists (n : nat) (o : options),
    invoked s1 = invoked s ++ take n (sync_commands o)
    /\ (r = Returns tt -> n = 3%nat)
    /\ ((2 < n)%nat ->
        parse_args w = Returns o /\
        exists key env p,
          subprocess w ssh_add_command key env = Returns p /\ returncode p = 0).

(** The commands that a run which started in [s] has invoked by [s1]. *)
Definition new_commands (s s1 : state) : list (list str) :=
  drop (length (invoked s)) (invoked s1).

(** From [s] to [s'] nothing was invoked and no record of a completed
    transfer was logged. *)
Definition before_transfer : relation state :=
  fun s s' => invoked s' = invoked s /\ appends log not_synced s s'.

(** [commands_in_order], with what the transfer did to outcome and log: up
    to the transfer the run logs no record of a completed transfer, and it
    goes on past the transfer only if [rsync] exited with zero. *)
Definition run_facts (w : world) (s : state) (r : outcome unit) (s1 : state) : Prop :=
  exists (n : nat) (o : options),
    invoked s1 = invoked s ++ take n (sync_commands o)
    /\ (r = Returns tt -> n = 3%nat)
    /\ ((2 < n)%nat ->
        parse_args w = Returns o /\
        exists key env p,
          subprocess w ssh_add_command key env = Returns p /\ returncode p = 0)
    /\ ((n <= 2)%nat -> appends log not_synced s s1)
    /\ ((2 < n)%nat ->
        exists env,
          match subprocess w (rsync o) VNone env with
          | Returns p =>
              returncode p <> 0 ->
              r = Raises (CalledProcessError (returncode p)) /\
              appends log not_synced s s1
          | Raises e => r = Raises e /\ appends log not_synced s s1
          end).

(** ** Options of a run *)

(** The command line is not accepted, or it is accepted without
    [--verbose]. *)
Definition quiet (w : world) : Prop :=
  forall o, parse_args w = Returns o -> verbose o = false.

(** What the [__main__] block does with an exception [e] of class
    [Exception]. *)
Definition report_failure (w : world) (e : exn) : M unit :=
  logger w (ExceptionSyncFailed e) ;;
  let! v := get_verbose w in
  when v (stderr_write (MsgSyncFailed e)).

(** What staging works on: the staging root, the calls into the filesystem
    and PIL, and the counter. *)
Definition staging_view (s : state) : root * list call * Z :=
  (akamai_dir s, calls s, count s).

(** A world like [w] but with the command line parsed as [o]. *)
Definition with_options (o : outcome options) (w : world) : world :=
  {| parse_args := o; glob_blobs := glob_blobs w;
     datetime_now := datetime_now w; log_file_error := log_file_error w;
     image_open := image_open w; convert_error := convert_error w;
     resize_error := resize_error w; save_error := save_error w;
     link_error := link_error w; secrets_json := secrets_json w;
     subprocess := subprocess w |}.

(** A world like [w] in which the log file cannot be opened. *)
Definition with_log_error (e : exn) (w : world) : world :=
  {| parse_args := parse_args w; glob_blobs := glob_blobs w;
     datetime_now := datetime_now w; log_file_error := Some e;
     image_open := image_open w; convert_error := convert_error w;
     resize_error := resize_error w; save_error := save_error w;
     link_error := link_error w; secrets_json := secrets_json w;
     subprocess := subprocess w |}.

Definition staged_options : options :=
  {| host := u "media.example.net"; checksums := true; staged := true;
     verbose := true |}.

(** ** Values taken from the agent's output *)

(** The text has neither [;] nor [=]. *)
Definition plain (s : str) : bool :=
  forallb (fun c => negb ((c =? 59) || (c =? 61))%N) s.

(** The text is empty or begins with [;] or [=]. *)
Definition ends_value (s : str) : bool :=
  match s with
  | [] => true
  | c :: _ => ((c =? 59) || (c =? 61))%N
  end.

(** The environment can hold the text: it has no NUL and no lone
    surrogate. *)
Definition storable (v : str) : bool :=
  negb (existsb unencodable v) && negb (existsb (N.eqb 0) v).

(** The lines that [ssh-agent -s] prints for the two variables. *)
Definition sock_line (v rest : str) : str := u "SSH_AUTH_SOCK=" ++ v ++ 59%N :: rest.
Definition pid_line (v rest : str) : str := u "SSH_AGENT_PID=" ++ v ++ 59%N :: rest.

(** ** Staging a directory *)

(** Three audio files, two of which carry the same document id. *)
Definition world_duplicate_audio : world :=
  world_of (Returns plain_options) [u "7.mp3"; u "07.mp3"; u "9.mp3"]
    (u "RGB", 1000, 500) NoSecrets agent_text.

(** The record that closes a staging which started in [s]. *)
Definition staged_record (w : world) (s : state) : record :=
  InfoStaged (count s + Z.of_nat (length (glob_blobs w)))
             (datetime_now w (S (ticks s)) - datetime_now w (ticks s)).

(** ** Names of the staged files *)

(** An ASCII digit. *)
Definition digit (c : N) : bool := ((48 <=? c) && (c <=? 57))%N.

(** The number that the ASCII digits [ds] denote after the digits whose value
    is [a]. *)
Definition digits_value (ds : str) (a : Z) : Z :=
  fold_left (fun a c => 10 * a + Z.of_N (c - 48)) ds a.

(** ** Files of other documents *)

(** The paths that staging the document [b] may write. *)
Definition written_paths (b : Z) : list str :=
  [u "../akamai/audio"; u "../akamai/images"; audio_path b; full_path b;
   variant_path b 571; variant_path b 750].

(** The files of the document [a]. *)
Definition files_of (a : Z) : list str :=
  [audio_path a; full_path a; variant_path a 571; variant_path a 750].

(** If the staging root has been cleared by this process before [s], it is
    not cleared again up to [s'], and what the path [p] holds stays. *)
Definition keeps (p : str) : relation state :=
  fun s s' =>
    akamai_cached s = true ->
    akamai_cached s' = true
    /\ entries_of (akamai_dir s') !! p = entries_of (akamai_dir s) !! p.

(** ** Progress and log of a run *)

(** The progress messages of [n] entries staged after the counter stood at
    [c]. *)
Definition progress (c : Z) (n : nat) : list message :=
  map (fun i => MsgStagedSoFar (c + Z.of_nat i)) (seq 1 n).

(** The time between the two clock readings of a staging started in [s]. *)
Definition stage_elapsed (w : world) (s : state) : Z :=
  datetime_now w (S (ticks s)) - datetime_now w (ticks s).

Definition verbose_options : options :=
  {| host := u "media.example.net"; checksums := false; staged := false;
     verbose := true |}.

(** What the log and the counter are. *)
Definition log_view (s : state) : list record * Z := (log s, count s).

(** ** Steps of a computation *)

Lemma bind_returns {A B} (c : M A) (k : A -> M B) s a s' :
  c s = (Returns a, s') -> bind c k s = k a s'.
Proof. intros H. unfold bind. rewrite H. reflexivity. Qed.

Lemma bind_raises {A B} (c : M A) (k : A -> M B) s e s' :
  c s = (Raises e, s') -> bind c k s = (Raises e, s').
Proof. intros H. unfold bind. rewrite H. reflexivity. Qed.

Lemma bind_inv_returns {A B} (c : M A) (k : A -> M B) s b s2 :
  bind c k s = (Returns b, s2) ->
  exists a s1, c s = (Returns a, s1) /\ k a s1 = (Returns b, s2).
Proof.
  unfold bind. destruct (c s) as [[a|e] s1]; intros H; [eauto | discriminate].
Qed.

Lemma for_each_app {A} (l1 l2 : list A) (body : A -> M unit) s :
  for_each (l1 ++ l2) body s = (for_each l1 body ;; for_each l2 body) s.
Proof.
  revert s. induction l1 as [|x l1 IH]; intros s; simpl.
  - reflexivity.
  - unfold bind in *. destruct (body x s) as [[[]|e] s1]; [apply IH | reflexivity].
Qed.

(** ** Relations kept by every step of a computation *)

#[local] Instance same_refl {X} (f : state -> X) : Reflexive (same f).
Proof. intros s. reflexivity. Qed.

#[local] Instance same_trans {X} (f : state -> X) : Transitive (same f).
Proof. intros s1 s2 s3 H1 H2. unfold same in *. congruence. Qed.

Section Maintains.

Context (R : relation state) `{!Reflexive R, !Transitive R}.

Lemma maintains_ret {A} (a : A) : maintains R (ret a).
Proof. intros s. reflexivity. Qed.

Lemma maintains_raise {A} e : maintains R (@raise A e).
Proof. intros s. reflexivity. Qed.

Lemma maintains_lift {A} (o : outcome A) : maintains R (lift o).
Proof. intros s. reflexivity. Qed.

Lemma maintains_gets {A} (f : state -> A) : maintains R (gets f).
Proof. intros s. reflexivity. Qed.

Lemma maintains_modify f : (forall s, R s (f s)) -> maintains R (modify f).
Proof. intros H s. apply H. Qed.

Lemma maintains_bind {A B} (c : M A) (k : A -> M B) :
  maintains R c -> (forall a, maintains R (k a)) -> maintains R (bind c k).
Proof.
  intros Hc Hk s. unfold bind. specialize (Hc s).
  destruct (c s) as [[a|e] s1]; simpl in *; [|exact Hc].
  etransitivity; [exact Hc | apply Hk].
Qed.

Lemma maintains_when b c : maintains R c -> maintains R (when b c).
Proof. intros H. destruct b; [exact H | apply maintains_ret]. Qed.

Lemma maintains_for_each {A} (l : list A) body :
  (forall x, maintains R (body x)) -> maintains R (for_each l body).
Proof.
  intros H. induction l as [|x l IH]; simpl.
  - apply maintains_ret.
  - apply maintains_bind; [apply H | intros _; exact IH].
Qed.

End Maintains.

Create HintDb control discriminated.
#[local] Hint Unfold now get_logger log_append logger stderr_write record_call
  opts get_staged get_verbose get_host get_checksums rmtree mkdir_parents
  hardlink_to Image_open convert resize save run_process environ_set akamai audio images
  scaled_height stage_width stage_audio stage_image count_entry stage_entry
  stage key_data add_key_to_agent
  set_from_line start_ssh_agent sync report_totals run : control.

(** Breaks a computation into its steps. *)
Ltac maintains_step :=
  first
    [ assumption
    | match goal with
      | |- Reflexive _ => typeclasses eauto
      | |- Transitive _ => typeclasses eauto
      end
    | simple apply maintains_ret
    | simple apply maintains_raise
    | simple apply maintains_lift
    | simple apply maintains_gets
    | simple apply maintains_bind; [.. | intros ?]
    | simple apply maintains_when
    | simple apply maintains_for_each; [.. | intros ?]
    | match goal with
      | |- maintains _ (match ?x with _ => _ end) => destruct x
      end ].

Ltac maintains_auto :=
  intros; autounfold with control; cbv zeta; repeat maintains_step.

Ltac frame_auto :=
  unfold preserves; maintains_auto;
  try (apply maintains_modify; intros ?; unfold same; reflexivity).

(** * The transfer command *)

(** C5. For every configuration the transfer command is [rsync --delete],
    the comparison flag, [-aze ssh], the source [../akamai/] and the
    destination [sshacs@<host>:media]; [--checksum] is among its words exactly
    when the checksums option is set and [--size-only] exactly when it is
    not, so never both. *)
Theorem rsync_command (o : options) :
  rsync o =
    [u "rsync"; u "--delete";
     (if checksums o then u "--checksum" else u "--size-only");
     u "-aze"; u "ssh"; u "../akamai/"; u "sshacs@" ++ host o ++ u ":media"]
  /\ (u "--checksum" ∈ rsync o <-> checksums o = true)
  /\ (u "--size-only" ∈ rsync o <-> checksums o = false)
  /\ ~ (u "--checksum" ∈ rsync o /\ u "--size-only" ∈ rsync o).
Proof.
  assert (Hc : u "--checksum" ∈ rsync o <-> checksums o = true).
  { unfold rsync. rewrite !elem_of_cons, elem_of_nil.
    destruct (checksums o); split; intros H; try reflexivity; try discriminate.
    - right; right; left; reflexivity.
    - repeat (destruct H as [H|H]; [discriminate H |]). destruct H. }
  assert (Hs : u "--size-only" ∈ rsync o <-> checksums o = false).
  { unfold rsync. rewrite !elem_of_cons, elem_of_nil.
    destruct (checksums o); split; intros H; try reflexivity; try discriminate.
    - repeat (destruct H as [H|H]; [discriminate H |]). destruct H.
    - right; right; left; reflexivity. }
  repeat split; try apply Hc; try apply Hs.
  intros [H1 H2]. apply Hc in H1. apply Hs in H2. congruence.
Qed.

(** ** Outcomes by cases *)

Lemma wp_bind {A B} (c : M A) (k : A -> M B) Q s :
  wp c (fun o s1 => match o with
                    | Returns a => wp (k a) Q s1
                    | Raises e => Q (Raises e) s1
                    end) s ->
  wp (bind c k) Q s.
Proof. unfold wp, bind. destruct (c s) as [[a|e] s1]; simpl; auto. Qed.

Lemma wp_preserved {X A} (f : state -> X) (c : M A) (Q : outcome A -> state -> Prop) s :
  preserves f c -> (forall o s', f s' = f s -> Q o s') -> wp c Q s.
Proof. intros Hc HQ. apply HQ, Hc. Qed.

Lemma wp_ret {A} (a : A) (Q : outcome A -> state -> Prop) s :
  Q (Returns a) s -> wp (ret a) Q s.
Proof. auto. Qed.

Lemma wp_raise {A} e (Q : outcome A -> state -> Prop) s :
  Q (Raises e) s -> wp (raise e) Q s.
Proof. auto. Qed.

Lemma wp_lift {A} (o : outcome A) (Q : outcome A -> state -> Prop) s :
  Q o s -> wp (lift o) Q s.
Proof. auto. Qed.

Lemma wp_gets {A} (f : state -> A) (Q : outcome A -> state -> Prop) s :
  Q (Returns (f s)) s -> wp (gets f) Q s.
Proof. auto. Qed.

Lemma wp_modify f (Q : outcome unit -> state -> Prop) s :
  Q (Returns tt) (f s) -> wp (modify f) Q s.
Proof. auto. Qed.

Lemma wp_mono {A} (c : M A) (Q Q' : outcome A -> state -> Prop) s :
  wp c Q s -> (forall o s', Q o s' -> Q' o s') -> wp c Q' s.
Proof. unfold wp. auto. Qed.

(** Runs the combinators at the head of a computation. *)
Ltac wp_step :=
  first
    [ simple apply wp_bind
    | simple apply wp_ret
    | simple apply wp_raise
    | simple apply wp_lift
    | simple apply wp_gets
    | simple apply wp_modify ];
  cbv beta iota.

(** * Key resolution *)

Lemma dict_get_fold (k : str) (d : list (str * value)) acc :
  (forall v, (k, v) ∉ d) ->
  fold_left (fun acc kv => if str_eqb k (fst kv) then Some (snd kv) else acc) d acc = acc.
Proof.
  revert acc. induction d as [|[k' v'] d IH]; intros acc H; simpl; [reflexivity|].
  unfold str_eqb at 2. case_bool_decide as E.
  - subst k'. exfalso. apply (H v'). left.
  - apply IH. intros v Hv. apply (H v). right. exact Hv.
Qed.

Lemma dict_get_lacks (k : str) (d : list (str * value)) : (forall v, (k, v) ∉ d) -> dict_get k d = VNone.
Proof. intros H. unfold dict_get. rewrite dict_get_fold; [reflexivity | exact H]. Qed.

Lemma key_data_state w s : snd (key_data w s) = s.
Proof.
  assert (H : preserves (fun s => s) (key_data w)) by frame_auto.
  apply H.
Qed.

Lemma key_data_missing w s :
  environ s !! u "AKAMAI_KEY" = None -> lacks_key (secrets_json w) ->
  key_data w s = (Raises missing_key, s).
Proof.
  intros He Hl. unfold key_data, bind, gets. cbv beta iota zeta. rewrite He. simpl.
  destruct Hl as [-> | (d & -> & Hd)]; simpl; [reflexivity|].
  rewrite (dict_get_lacks _ _ Hd). reflexivity.
Qed.

(** C9. An [AKAMAI_KEY] that is present but empty is treated as absent:
    key resolution gives what it gives without the variable, it takes a truthy
    value of the fallback file, raises the missing-credential error when the
    file is missing or its field is not truthy, and raises that error only if
    the fallback gives no truthy value. *)
Theorem empty_key_is_absent (w : world) (s : state) :
  environ s !! u "AKAMAI_KEY" = Some [] ->
  (forall s0, environ s0 !! u "AKAMAI_KEY" = None ->
              fst (key_data w s) = fst (key_data w s0))
  /\ (forall d, secrets_json w = Secrets (VDict d) ->
                truthy (dict_get (u "AKAMAI_KEY") d) = true ->
                key_data w s = (Returns (dict_get (u "AKAMAI_KEY") d), s))
  /\ (secrets_json w = NoSecrets \/
      (exists d, secrets_json w = Secrets (VDict d) /\
                 truthy (dict_get (u "AKAMAI_KEY") d) = false) ->
      key_data w s = (Raises missing_key, s))
  /\ (fst (key_data w s) = Raises missing_key -> ~ fallback_truthy (secrets_json w)).
Proof.
  intros He. repeat split.
  - intros s0 H0. unfold key_data, bind, gets. cbv beta iota zeta. rewrite He, H0. simpl.
    destruct (secrets_json w) as [|e|[]]; simpl; try reflexivity.
    destruct (truthy _); reflexivity.
  - intros d Hd Ht. unfold key_data, bind, gets. cbv beta iota zeta. rewrite He, Hd. simpl.
    rewrite Ht. reflexivity.
  - intros [Hn | (d & Hd & Ht)]; unfold key_data, bind, gets; cbv beta iota zeta;
      rewrite He; [rewrite Hn | rewrite Hd]; simpl; [reflexivity|].
    rewrite Ht. reflexivity.
  - intros Hr (d & Hd & Ht). revert Hr.
    unfold key_data, bind, gets. cbv beta iota zeta. rewrite He, Hd. simpl. rewrite Ht.
    simpl. discriminate.
Qed.

Lemma empty_key_is_absent_witness :
  key_data world_with_secret (fresh Absent {[ u "AKAMAI_KEY" := [] ]} [])
  = (Returns (VStr (u "-----BEGIN KEY-----")),
     fresh Absent {[ u "AKAMAI_KEY" := [] ]} []).
Proof.
  assert (He : environ (fresh Absent {[ u "AKAMAI_KEY" := [] ]} []) !! u "AKAMAI_KEY"
               = Some []) by apply lookup_singleton_eq.
  apply (proj1 (proj2 (empty_key_is_absent world_with_secret _ He))
           [(u "AKAMAI_KEY", VStr (u "-----BEGIN KEY-----"))]);
    reflexivity.
Defined.

(** * What reaches the transfer *)

Lemma stage_transfer_view w : preserves transfer_view (stage w).
Proof. frame_auto. Qed.

Lemma agent_lines_transfer_view (lines : list str) :
  preserves transfer_view
    (for_each lines (fun line =>
       for_each KEYS (fun key => when (startswith key line) (set_from_line key line)))).
Proof.
  unfold preserves. apply maintains_for_each; try typeclasses eauto. intros line.
  unfold KEYS. simpl for_each. maintains_auto;
    try (apply maintains_modify; intros s; unfold same, transfer_view; simpl;
         f_equal; apply lookup_insert_ne; discriminate).
Qed.

Lemma start_ssh_agent_view w s :
  wp (start_ssh_agent w)
     (fun _ s1 => invoked s1 = invoked s ++ [ssh_agent_command] /\
                  environ s1 !! u "AKAMAI_KEY" = environ s !! u "AKAMAI_KEY") s.
Proof.
  unfold start_ssh_agent, run_process. do 7 wp_step.
  destruct (subprocess w _ _ _) as [p|e]; cbv beta iota; [| split; reflexivity].
  cbn [andb]. wp_step.
  apply (wp_preserved transfer_view); [apply agent_lines_transfer_view|].
  intros o s' H. injection H as H1 H2. split; assumption.
Qed.

Lemma add_key_missing w s :
  environ s !! u "AKAMAI_KEY" = None -> lacks_key (secrets_json w) ->
  add_key_to_agent w s = (Raises missing_key, s).
Proof.
  intros He Hl. unfold add_key_to_agent.
  apply bind_raises. apply key_data_missing; assumption.
Qed.

(** One step that leaves [transfer_view] alone; [Hinv] relates the current
    state to the first one. *)
Ltac view_step Hinv tac :=
  apply wp_bind; apply (wp_preserved transfer_view); [tac |];
  let Hv := fresh "Hv" in
  intros [?|?] ? Hv; cbv beta iota;
  rewrite Hinv in Hv; clear Hinv; rename Hv into Hinv.

Ltac view_done Hinv :=
  unfold transfer_view in Hinv; injection Hinv as ? ?;
  split; [eauto | left; congruence].

Lemma sync_missing_key_from w s0 s :
  transfer_view s = transfer_view s0 ->
  environ s0 !! u "AKAMAI_KEY" = None -> lacks_key (secrets_json w) ->
  wp (sync w) (stops_before_transfer s0) s.
Proof.
  intros Hinv He Hl. unfold sync.
  do 6 (view_step Hinv ltac:(frame_auto); [| view_done Hinv]).
  unfold transfer_view in Hinv. injection Hinv as Hi Hk.
  apply wp_bind. eapply wp_mono; [apply start_ssh_agent_view|].
  intros [[]|e] sa [Hi' Hk']; [| split; [eauto | right; congruence]].
  apply wp_bind. unfold wp at 1.
  rewrite add_key_missing; [| congruence | assumption]. simpl.
  split; [eauto | right; congruence].
Qed.

Lemma run_missing_key w s :
  environ s !! u "AKAMAI_KEY" = None -> lacks_key (secrets_json w) ->
  wp (run w) (stops_before_transfer s) s.
Proof.
  intros He Hl. unfold run.
  assert (Hinv : transfer_view s = transfer_view s) by reflexivity.
  revert Hinv. generalize s at 1 4 as s1. intros s1 Hinv.
  do 3 (view_step Hinv
          ltac:(unfold preserves; repeat maintains_step;
                try apply stage_transfer_view; frame_auto);
        [| view_done Hinv]).
  apply wp_bind. eapply wp_mono; [apply sync_missing_key_from; eassumption|].
  intros o sb [[e ->] H]. split; [eauto | exact H].
Qed.

Lemma main_invoked w s : invoked (snd (main w s)) = invoked (snd (run w s)).
Proof.
  unfold main. destruct (run w s) as [[[]|e] s1]; simpl; [reflexivity|].
  destruct (is_Exception e); [| reflexivity].
  assert (H : preserves invoked
                (logger w (ExceptionSyncFailed e) ;;
                 let! v := get_verbose w in when v (stderr_write (MsgSyncFailed e))))
    by frame_auto.
  specialize (H s1). unfold same in H.
  destruct (bind _ _ s1) as [[[]|e'] s2]; exact H.
Qed.

(** C4. When [AKAMAI_KEY] is absent from the environment and the fallback
    file is missing or has no credential field, loading the key raises the
    missing-credential error before [ssh-add] or the transfer is invoked: the
    run ends with an error, and the only command it can have invoked is the
    agent start, never [rsync]. *)
Theorem missing_key_never_transfers (w : world) (s : state) :
  environ s !! u "AKAMAI_KEY" = None ->
  lacks_key (secrets_json w) ->
  key_data w s = (Raises missing_key, s)
  /\ (forall s', environ s' !! u "AKAMAI_KEY" = None ->
                 add_key_to_agent w s' = (Raises missing_key, s'))
  /\ (exists e, fst (run w s) = Raises e)
  /\ (invoked (snd (main w s)) = invoked s \/
      invoked (snd (main w s)) = invoked s ++ [ssh_agent_command])
  /\ (forall o, rsync o ∉ invoked s -> rsync o ∉ invoked (snd (main w s))).
Proof.
  intros He Hl.
  pose proof (run_missing_key w s He Hl) as [Hr Hi]. fold (run w) in *.
  assert (Hm : invoked (snd (main w s)) = invoked s \/
               invoked (snd (main w s)) = invoked s ++ [ssh_agent_command])
    by (rewrite main_invoked; exact Hi).
  split; [apply key_data_missing; assumption|].
  split; [intros s' He'; apply add_key_missing; assumption|].
  split; [exact Hr|]. split; [exact Hm|].
  intros o Ho Hin. destruct Hm as [Hm|Hm]; rewrite Hm in Hin; [contradiction|].
  apply elem_of_app in Hin as [Hin|Hin]; [contradiction|].
  apply list_elem_of_singleton in Hin. discriminate Hin.
Qed.

Lemma missing_key_never_transfers_witness :
  (exists e, fst (run world_without_key (fresh Absent ∅ [])) = Raises e)
  /\ (forall o, rsync o ∉ invoked (snd (main world_without_key (fresh Absent ∅ [])))).
Proof.
  assert (He : environ (fresh Absent ∅ []) !! u "AKAMAI_KEY" = None)
    by apply lookup_empty.
  assert (Hl : lacks_key (secrets_json world_without_key)) by (left; reflexivity).
  destruct (missing_key_never_transfers world_without_key _ He Hl)
    as (_ & _ & Hr & _ & Hi).
  split; [exact Hr|]. intros o. apply Hi. simpl. apply not_elem_of_nil.
Defined.

(** * The entry point *)

(** C1, as stated, fails: with no key to be found the run raises the
    missing-credential error, the entry point catches it, and the process
    ends with exit status zero. *)
Lemma exit_status_counterexample :
  fst (run world_without_key (fresh Absent ∅ [])) = Raises missing_key
  /\ fst (main world_without_key (fresh Absent ∅ [])) = 0.
Proof. vm_compute. split; reflexivity. Qed.

(** C1, amended. With a valid command line and a log file that can be
    opened: when a phase raises an exception of class [Exception], the entry
    point appends the exception record to the log, echoes it to the console
    in verbose mode, and the process ends with exit status zero; when no
    error occurs the process exits zero as well. *)
Theorem failure_is_logged (w : world) (s : state) (o : options) :
  parse_args w = Returns o ->
  log_file_error w = None ->
  (forall e, fst (run w s) = Raises e -> is_Exception e = true ->
     fst (main w s) = 0
     /\ log (snd (main w s)) = log (snd (run w s)) ++ [ExceptionSyncFailed e]
     /\ console (snd (main w s)) =
          console (snd (run w s)) ++ (if verbose o then [MsgSyncFailed e] else []))
  /\ (fst (run w s) = Returns tt -> main w s = (0, snd (run w s))).
Proof.
  intros Ho Hl. unfold main. destruct (run w s) as [[[]|e] s1]; simpl.
  - split; [discriminate | reflexivity].
  - split; [| discriminate]. intros e' [= <-] He. rewrite He.
    unfold logger, get_logger, log_append, get_verbose, opts, bind, lift, modify,
      ret, when, stderr_write.
    rewrite Hl, Ho. destruct (verbose o); simpl;
      repeat split; rewrite ?app_nil_r; reflexivity.
Qed.

Lemma failure_is_logged_witness :
  fst (main world_without_key (fresh Absent ∅ [])) = 0
  /\ log (snd (main world_without_key (fresh Absent ∅ []))) =
       log (snd (run world_without_key (fresh Absent ∅ [])))
       ++ [ExceptionSyncFailed missing_key].
Proof.
  destruct (failure_is_logged world_without_key (fresh Absent ∅ []) plain_options
              eq_refl eq_refl) as [H _].
  destruct (H missing_key ltac:(vm_compute; reflexivity) eq_refl) as (H1 & H2 & _).
  split; assumption.
Defined.

(** * The agent bridge *)

Lemma set_from_line_outcome key line s :
  fst (set_from_line key line s) = Returns tt <-> assignable line = true.
Proof.
  unfold set_from_line, assignable.
  destruct (split 59%N line) as [|first rest]; [split; discriminate|].
  destruct (split 61%N first) as [|x [|value more]]; try (split; discriminate).
  unfold environ_set.
  destruct (existsb unencodable value); [split; discriminate|].
  destruct (existsb (N.eqb 0) value); [split; discriminate|].
  split; reflexivity.
Qed.

Lemma agent_line_unrecognized line s :
  recognized line = false -> agent_line line s = (Returns tt, s).
Proof.
  unfold recognized, agent_line, KEYS. cbn [existsb for_each].
  intros H. apply orb_false_elim in H as [H1 H2].
  apply orb_false_elim in H2 as [H2 _]. rewrite H1, H2. reflexivity.
Qed.

Lemma agent_line_outcome line s :
  fst (agent_line line s) = Returns tt <-> line_ok line = true.
Proof.
  unfold line_ok.
  destruct (recognized line) eqn:Hr; cbn [negb orb].
  2:{ rewrite agent_line_unrecognized by exact Hr. split; reflexivity. }
  revert Hr. unfold recognized, agent_line, KEYS. cbn [existsb for_each].
  intros Hr. unfold bind.
  destruct (startswith (u "SSH_AUTH_SOCK") line); cbn [when].
  - pose proof (set_from_line_outcome (u "SSH_AUTH_SOCK") line s) as H1.
    destruct (set_from_line (u "SSH_AUTH_SOCK") line s) as [[[]|e] s1]; cbn [fst] in H1.
    + destruct (startswith (u "SSH_AGENT_PID") line); cbn [when].
      * pose proof (set_from_line_outcome (u "SSH_AGENT_PID") line s1) as H2.
        destruct (set_from_line (u "SSH_AGENT_PID") line s1) as [[[]|e] s2];
          cbn [fst] in H2; [exact H1 | exact H2].
      * exact H1.
    + exact H1.
  - cbn [orb] in Hr. rewrite orb_false_r in Hr. rewrite Hr. cbn [when ret].
    pose proof (set_from_line_outcome (u "SSH_AGENT_PID") line s) as H2.
    destruct (set_from_line (u "SSH_AGENT_PID") line s) as [[[]|e] s2];
      cbn [fst] in H2; exact H2.
Qed.

Lemma agent_lines_outcome lines s :
  fst (for_each lines agent_line s) = Returns tt <-> forallb line_ok lines = true.
Proof.
  revert s. induction lines as [|line lines IH]; intros s; cbn [for_each forallb].
  - split; reflexivity.
  - rewrite andb_true_iff, <- (agent_line_outcome line s). unfold bind.
    destruct (agent_line line s) as [[[]|e] s1]; cbn [fst].
    + rewrite IH. tauto.
    + split; [discriminate | intros [H _]; discriminate H].
Qed.

Lemma agent_lines_filter lines s :
  for_each lines agent_line s = for_each (List.filter recognized lines) agent_line s.
Proof.
  revert s. induction lines as [|line lines IH]; intros s; cbn [for_each List.filter].
  - reflexivity.
  - destruct (recognized line) eqn:Hr; cbn [for_each]; unfold bind.
    + destruct (agent_line line s) as [[[]|e] s1]; [apply IH | reflexivity].
    + rewrite agent_line_unrecognized by exact Hr. apply IH.
Qed.

Lemma agent_lines_unrecognized lines s :
  forallb (fun l => negb (recognized l)) lines = true ->
  for_each lines agent_line s = (Returns tt, s).
Proof.
  revert s. induction lines as [|line lines IH]; intros s; cbn [for_each forallb].
  - reflexivity.
  - rewrite andb_true_iff, negb_true_iff. intros [Hr Hl]. unfold bind.
    rewrite agent_line_unrecognized by exact Hr. apply IH, Hl.
Qed.

Lemma start_ssh_agent_lines w s result :
  subprocess w ssh_agent_command VNone (environ s) = Returns result ->
  start_ssh_agent w s =
    for_each (splitlines (stdout result)) agent_line
      (set_invoked (invoked s ++ [ssh_agent_command]) s).
Proof.
  intros H. unfold start_ssh_agent, run_process, bind, modify, gets, lift.
  cbn [environ set_invoked]. unfold ssh_agent_command in H. rewrite H.
  reflexivity.
Qed.

(** C2, as stated, fails: a line that begins with a recognized name but has
    no [=] makes the bridge raise [IndexError]. *)
Lemma agent_output_counterexample :
  fst (start_ssh_agent world_bare_agent (fresh Absent ∅ [])) = Raises IndexError.
Proof. vm_compute. reflexivity. Qed.

(** C2, amended. For every text printed by the agent: lines that begin with
    neither variable name are ignored, and when no line begins with one the
    bridge sets no environment variable and returns normally; the bridge
    returns normally exactly when every line that begins with a recognized
    name has a [=] before its first [;] followed by a value that the
    environment can hold, and raises otherwise. *)
Theorem agent_output_handling (w : world) (s : state) (result : completed) :
  subprocess w ssh_agent_command VNone (environ s) = Returns result ->
  (start_ssh_agent w s =
     for_each (List.filter recognized (splitlines (stdout result))) agent_line
       (set_invoked (invoked s ++ [ssh_agent_command]) s))
  /\ (forallb (fun l => negb (recognized l)) (splitlines (stdout result)) = true ->
      fst (start_ssh_agent w s) = Returns tt /\
      environ (snd (start_ssh_agent w s)) = environ s)
  /\ (fst (start_ssh_agent w s) = Returns tt <->
      forallb line_ok (splitlines (stdout result)) = true).
Proof.
  intros H. rewrite (start_ssh_agent_lines w s result H). repeat split.
  - apply agent_lines_filter.
  - rewrite agent_lines_unrecognized by assumption. reflexivity.
  - rewrite agent_lines_unrecognized by assumption. reflexivity.
  - apply agent_lines_outcome.
  - apply agent_lines_outcome.
Qed.

Lemma agent_output_handling_witness :
  fst (start_ssh_agent world_without_key (fresh Absent ∅ [])) = Returns tt.
Proof.
  apply (proj2 (proj2 (agent_output_handling world_without_key (fresh Absent ∅ [])
                         {| returncode := 0; stdout := agent_text; stderr := [] |}
                         eq_refl))).
  vm_compute. reflexivity.
Defined.

(** * Staging *)

Lemma now_returns w s :
  now w s = (Returns (datetime_now w (ticks s)), set_ticks (S (ticks s)) s).
Proof. reflexivity. Qed.

Lemma stage_from_now w s :
  stage w s =
    (for_each (glob_blobs w) (stage_entry w) ;;
     let! finish := now w in
     let elapsed := finish - datetime_now w (ticks s) in
     get_logger w ;;
     let! n := gets count in
     log_append (InfoStaged n elapsed) ;;
     let! v := get_verbose w in
     when v (stderr_write (MsgDone elapsed))) (set_ticks (S (ticks s)) s).
Proof. reflexivity. Qed.

(** A loop over [l1 ++ l2] is the loop over [l1] followed by the one over
    [l2]. *)
Lemma bind_app_for_each {A B} (l1 l2 : list A) body (k : unit -> M B) s :
  bind (for_each (l1 ++ l2) body) k s =
  bind (for_each l1 body) (fun _ => bind (for_each l2 body) k) s.
Proof.
  unfold bind at 1 2. rewrite for_each_app. unfold bind.
  destruct (for_each l1 body s) as [[[]|e] s1]; reflexivity.
Qed.

Lemma stage_entry_bad_stem w name s :
  int (stem name) = None -> stage_entry w name s = (Raises ValueError, s).
Proof. intros H. unfold stage_entry, bind. rewrite H. reflexivity. Qed.

(** C7. When the stem of a directory entry is not a valid integer, staging
    ends with an error and does not complete the batch; if the entries before
    it were staged, the error is the [ValueError] raised at that entry, and
    the state left is exactly the one after those earlier entries: what they
    wrote stays, nothing is rolled back, and no later entry is processed. *)
Theorem bad_stem_aborts (w : world) (s : state) (pre : list str) (name : str)
    (post : list str) :
  glob_blobs w = pre ++ name :: post ->
  int (stem name) = None ->
  (exists e, fst (stage w s) = Raises e)
  /\ (forall s1, for_each pre (stage_entry w) (snd (now w s)) = (Returns tt, s1) ->
                 stage w s = (Raises ValueError, s1)).
Proof.
  intros Hg Hn. rewrite (stage_from_now w s), Hg.
  change (set_ticks (S (ticks s)) s) with (snd (now w s)).
  rewrite bind_app_for_each.
  destruct (for_each pre (stage_entry w) (snd (now w s))) as [[[]|e] s1] eqn:Hpre.
  - assert (Hb : (for_each (name :: post) (stage_entry w)) s1 = (Raises ValueError, s1)).
    { cbn [for_each]. apply bind_raises, stage_entry_bad_stem, Hn. }
    rewrite (bind_returns _ _ _ _ _ Hpre), (bind_raises _ _ _ _ _ Hb).
    split; [eauto|]. intros s2 [= <-]. reflexivity.
  - rewrite (bind_raises _ _ _ _ _ Hpre). split; [eauto | discriminate].
Qed.

Lemma bad_stem_aborts_witness :
  stage (world_of (Returns plain_options) [u "7.mp3"; u "cover.png"; u "8.mp3"]
           (u "RGB", 1000, 500) NoSecrets agent_text)
        (fresh Absent ∅ [])
  = (Raises ValueError,
     {| akamai_dir :=
          Tree (<[ u "../akamai/audio/7.mp3" := HardLink (u "../blobs/7.mp3") ]>
                  {[ u "../akamai/audio" := Directory ]});
        environ := ∅; count := 1; log := []; console := []; invoked := [];
        calls := [CallHardlink (u "../akamai/audio/7.mp3") (u "../blobs/7.mp3")];
        ticks := 1%nat;
        akamai_cached := true; audio_cached := true; images_cached := false |}).
Proof.
  apply (proj2 (bad_stem_aborts
                  (world_of (Returns plain_options) [u "7.mp3"; u "cover.png"; u "8.mp3"]
                     (u "RGB", 1000, 500) NoSecrets agent_text)
                  (fresh Absent ∅ []) [u "7.mp3"] (u "cover.png") [u "8.mp3"]
                  eq_refl eq_refl)).
  vm_compute. reflexivity.
Defined.

(** ** Dispatch on the suffix *)

Ltac state_simpl :=
  cbn [akamai_dir environ count log console invoked calls ticks akamai_cached
       audio_cached images_cached set_akamai_dir set_environ set_count set_log
       set_console set_invoked set_calls set_ticks set_akamai_cached
       set_audio_cached set_images_cached fst snd].

Ltac wp_branch :=
  match goal with
  | |- wp (match ?x with _ => _ end) _ _ => destruct x eqn:?
  | |- match ?x with _ => _ end => destruct x eqn:?
  end.

(** Runs a computation to the end along every path. *)
Ltac wp_run :=
  repeat (first [wp_step | wp_branch | progress unfold when]; state_simpl).

Lemma wp_maintained (R : relation state) {A} (c : M A) (Q : outcome A -> state -> Prop) s :
  maintains R c -> (forall o s', R s s' -> Q o s') -> wp c Q s.
Proof. intros Hc HQ. apply HQ, Hc. Qed.

#[local] Instance appends_refl {X} (f : state -> list X) P : Reflexive (appends f P).
Proof. intros s. exists []. split; [symmetry; apply app_nil_r | reflexivity]. Qed.

#[local] Instance appends_trans {X} (f : state -> list X) P : Transitive (appends f P).
Proof.
  intros s1 s2 s3 (n1 & H1 & F1) (n2 & H2 & F2). exists (n1 ++ n2). split.
  - rewrite H2, H1. symmetry. apply app_assoc.
  - rewrite forallb_app, F1, F2. reflexivity.
Qed.

(** A field update that leaves [f] alone or appends one element to it. *)
Ltac appends_modify :=
  apply maintains_modify; intros ?;
  first [ exists []; split; [symmetry; apply app_nil_r | reflexivity]
        | eexists [_]; split; reflexivity ].



Lemma count_entry_count w s :
  wp (count_entry w) (fun _ s1 => count s1 = count s + 1) s.
Proof. autounfold with control. wp_run; reflexivity. Qed.

Lemma stage_audio_count w doc_id path : preserves count (stage_audio w doc_id path).
Proof. frame_auto. Qed.

Lemma stage_image_count w doc_id path : preserves count (stage_image w doc_id path).
Proof. frame_auto. Qed.


Lemma count_entry_akamai w : preserves akamai_dir (count_entry w).
Proof. frame_auto. Qed.

Lemma stage_entry_parsed w name doc_id s :
  int (stem name) = Some doc_id ->
  stage_entry w name s =
    ((if str_eqb (suffix name) (u ".mp3")
      then stage_audio w doc_id (joinpath blobs name)
      else stage_image w doc_id (joinpath blobs name)) ;;
     count_entry w) s.
Proof. intros H. unfold stage_entry. unfold bind at 1. rewrite H. reflexivity. Qed.

Lemma stage_entry_counts w name s s' :
  stage_entry w name s = (Returns tt, s') -> count s' = count s + 1.
Proof.
  destruct (int (stem name)) as [doc_id|] eqn:Hid.
  2:{ rewrite (stage_entry_bad_stem w name s Hid). discriminate. }
  rewrite (stage_entry_parsed w name doc_id s Hid).
  pose proof (stage_audio_count w doc_id (joinpath blobs name) s) as Ca.
  pose proof (stage_image_count w doc_id (joinpath blobs name) s) as Ci.
  unfold same in Ca, Ci. intros H.
  apply bind_inv_returns in H as ([] & s1 & H1 & H2).
  pose proof (count_entry_count w s1) as Hc. unfold wp in Hc.
  rewrite H2 in Hc. cbn [snd] in Hc. rewrite Hc. f_equal.
  destruct (str_eqb _ _); rewrite H1 in *; cbn [snd] in *; assumption.
Qed.



(** A stage that completes has counted every entry of the directory. *)
Lemma for_each_entry_count w names s s' :
  for_each names (stage_entry w) s = (Returns tt, s') ->
  count s' = count s + Z.of_nat (length names).
Proof.
  revert s. induction names as [|name names IH]; intros s; cbn [for_each length].
  - intros [= <-]. lia.
  - intros H. apply bind_inv_returns in H as ([] & s1 & H1 & H2).
    apply IH in H2. rewrite H2.
    rewrite (stage_entry_counts w name s s1 H1). lia.
Qed.

(** * The run controller *)

(** One step that maintains [R]; [Hinv] relates the first state to the
    current one. *)
Ltac rel_step R Hinv tac :=
  apply wp_bind; apply (wp_maintained R); [tac |];
  let Hv := fresh "Hv" in
  let Hn := fresh "Hn" in
  intros [?|?] ? Hv; cbv beta iota;
  assert (Hn := transitivity Hinv Hv); clear Hinv Hv; rename Hn into Hinv.








Lemma run_parsed w o s :
  parse_args w = Returns o ->
  run w s =
    (let! start := now w in
     when (negb (staged o)) (stage w) ;;
     sync w ;;
     when (negb (staged o)) (report_totals w start)) s.
Proof.
  intros Ho. unfold run, get_staged, opts, lift, bind, ret. rewrite Ho.
  reflexivity.
Qed.





(** * Accuracy of the arithmetic on floats *)

Lemma IZR_xO p : IZR (Zpos p~0) = (2 * IZR (Zpos p))%R.
Proof. rewrite Pos2Z.inj_xO, mult_IZR. reflexivity. Qed.

Lemma IZR_xI p : IZR (Zpos p~1) = (2 * IZR (Zpos p) + 1)%R.
Proof. rewrite Pos2Z.inj_xI, plus_IZR, mult_IZR. reflexivity. Qed.

Lemma shr_1_ok y mrs : rec_ok y mrs -> rec_ok (y / 2) (shr_1 mrs).
Proof.
  destruct mrs as [m r s]. unfold rec_ok. cbn [shr_m]. intros [Hm H].
  destruct m as [|p|p]; [| | lia].
  - destruct r, s; cbn [shr_1 orb shr_m loc_of_shr_record loc_ok] in *;
      (split; [lia | lra]).
  - destruct p as [p|p|]; destruct r, s;
      cbn [shr_1 orb shr_m loc_of_shr_record loc_ok] in *;
      rewrite ?(IZR_xI p), ?(IZR_xO p) in H; (split; [lia | lra]).
Qed.

Lemma bpow_pos e : (0 < bpow e)%R.
Proof. apply powerRZ_lt. lra. Qed.

Lemma bpow_add a b : bpow (a + b) = (bpow a * bpow b)%R.
Proof. apply powerRZ_add. lra. Qed.

Lemma bpow_0 : bpow 0 = 1%R.
Proof. reflexivity. Qed.

Lemma bpow_1 : bpow 1 = 2%R.
Proof. unfold bpow. simpl. lra. Qed.

Lemma bpow_m1 : bpow (-1) = (1 / 2)%R.
Proof. unfold bpow. simpl. lra. Qed.

Lemma bpow_opp e : (bpow (- e) * bpow e = 1)%R.
Proof. rewrite <- bpow_add. replace (- e + e) with 0 by lia. apply bpow_0. Qed.

Lemma bpow_IZR k : 0 <= k -> IZR (2 ^ k) = bpow k.
Proof.
  intros H. rewrite <- (Z2Nat.id k H). rewrite <- pow_IZR.
  unfold bpow. rewrite <- pow_powerRZ. reflexivity.
Qed.

Lemma bpow_le a b : a <= b -> (bpow a <= bpow b)%R.
Proof.
  intros H. replace b with (a + (b - a)) by lia. rewrite bpow_add.
  rewrite <- (bpow_IZR (b - a)) by lia.
  assert (1 <= IZR (2 ^ (b - a)))%R.
  { apply IZR_le. pose proof (Z.pow_pos_nonneg 2 (b - a)). lia. }
  pose proof (bpow_pos a). nra.
Qed.

Lemma bpow_lt a b : a < b -> (bpow a < bpow b)%R.
Proof.
  intros H. replace b with (a + (b - a)) by lia. rewrite bpow_add.
  rewrite <- (bpow_IZR (b - a)) by lia.
  assert (2 <= IZR (2 ^ (b - a)))%R.
  { apply IZR_le. replace (b - a) with (Z.succ (b - a - 1)) by lia.
    rewrite Z.pow_succ_r by lia. pose proof (Z.pow_pos_nonneg 2 (b - a - 1)). lia. }
  pose proof (bpow_pos a). nra.
Qed.

Lemma iter_shr_1_ok p : forall y mrs,
  rec_ok y mrs -> rec_ok (y * bpow (- Zpos p)) (SpecFloat.iter_pos shr_1 p mrs).
Proof.
  induction p as [p IH|p IH|]; intros y mrs H; cbn [SpecFloat.iter_pos].
  - replace (y * bpow (- Z.pos p~1))%R
      with (y / 2 * bpow (- Z.pos p) * bpow (- Z.pos p))%R.
    + apply IH, IH, shr_1_ok, H.
    + replace (- Z.pos p~1) with (-1 + (- Z.pos p + - Z.pos p)) by lia.
      rewrite !bpow_add, bpow_m1. lra.
  - replace (y * bpow (- Z.pos p~0))%R
      with (y * bpow (- Z.pos p) * bpow (- Z.pos p))%R.
    + apply IH, IH, H.
    + replace (- Z.pos p~0) with (- Z.pos p + - Z.pos p) by lia.
      rewrite !bpow_add. lra.
  - change (- Z.pos 1) with (-1). rewrite bpow_m1.
    replace (y * (1 / 2))%R with (y / 2)%R by lra.
    apply shr_1_ok, H.
Qed.

Lemma shr_ok y mrs e n :
  0 <= n -> rec_ok y mrs ->
  snd (shr mrs e n) = e + n /\ rec_ok (y * bpow (- n)) (fst (shr mrs e n)).
Proof.
  intros Hn H. destruct n as [|p|p]; [| | lia]; cbn [shr fst snd].
  - split; [lia|]. change (- 0) with 0. rewrite bpow_0, Rmult_1_r. exact H.
  - split; [reflexivity|]. apply iter_shr_1_ok, H.
Qed.

Lemma digits2_pos_bounds p :
  2 ^ (Zpos (digits2_pos p) - 1) <= Zpos p < 2 ^ Zpos (digits2_pos p).
Proof.
  induction p as [p IH|p IH|]; cbn [digits2_pos].
  - rewrite Pos2Z.inj_succ.
    replace (Z.succ (Z.pos (digits2_pos p)) - 1) with (Z.succ (Z.pos (digits2_pos p) - 1)) by lia.
    rewrite !Z.pow_succ_r by lia. lia.
  - rewrite Pos2Z.inj_succ.
    replace (Z.succ (Z.pos (digits2_pos p)) - 1) with (Z.succ (Z.pos (digits2_pos p) - 1)) by lia.
    rewrite !Z.pow_succ_r by lia. lia.
  - cbn. lia.
Qed.

Lemma Zdigits2_bounds m :
  0 < m -> 2 ^ (Zdigits2 m - 1) <= m < 2 ^ Zdigits2 m.
Proof. destruct m as [|p|p]; [lia | intros _ | lia]. apply digits2_pos_bounds. Qed.

Lemma Zdigits2_unique m d :
  2 ^ (d - 1) <= m < 2 ^ d -> 0 < d -> Zdigits2 m = d.
Proof.
  intros [H1 H2] Hd.
  assert (Hm : 0 < m) by (pose proof (Z.pow_pos_nonneg 2 (d - 1)); lia).
  destruct (Zdigits2_bounds m Hm) as [B1 B2].
  assert (Hp : 0 < Zdigits2 m) by (destruct m; cbn; lia).
  destruct (Z.lt_trichotomy (Zdigits2 m) d) as [L | [E | G]]; [| exact E |].
  - assert (2 ^ Zdigits2 m <= 2 ^ (d - 1)) by (apply Z.pow_le_mono_r; lia). lia.
  - assert (2 ^ d <= 2 ^ (Zdigits2 m - 1)) by (apply Z.pow_le_mono_r; lia). lia.
Qed.

Lemma record_of_loc_ok y m l :
  0 <= m -> loc_ok y m l -> rec_ok y (shr_record_of_loc m l).
Proof.
  intros Hm H. unfold rec_ok.
  destruct l as [|[]]; cbn [shr_record_of_loc shr_m loc_of_shr_record]; auto.
Qed.

Lemma loc_ok_range y m l : loc_ok y m l -> (IZR m <= y < IZR m + 1)%R.
Proof. destruct l as [|[]]; cbn [loc_ok]; intros H; lra. Qed.

Lemma round_nearest_even_ok y m l :
  loc_ok y m l ->
  m <= round_nearest_even m l <= m + 1
  /\ (y - 1 / 2 <= IZR (round_nearest_even m l) <= y + 1 / 2)%R.
Proof.
  destruct l as [|[]]; cbn [loc_ok round_nearest_even]; intros H.
  - split; [lia | lra].
  - destruct (Z.even m); rewrite ?plus_IZR; split; try lia; lra.
  - split; [lia | lra].
  - rewrite plus_IZR. split; [lia | lra].
Qed.

Lemma pow52_digits m : 2 ^ 52 <= m -> 53 <= Zdigits2 m.
Proof.
  intros H. destruct (Zdigits2_bounds m ltac:(lia)) as [_ B].
  destruct (Z_lt_le_dec (Zdigits2 m) 53) as [L|G]; [| exact G].
  assert (2 ^ Zdigits2 m <= 2 ^ 52).
  { apply Z.pow_le_mono_r; lia. }
  lia.
Qed.

Lemma fexp_normal e : -1074 <= e - 53 -> fexp 53 1024 e = e - 53.
Proof. intros H. unfold fexp, emin. lia. Qed.

(** Rounding a real of at least 53 bits to a float: the result is a normal
    number within half a unit in the last place. *)
Lemma binary_round_aux_ok s mx ex lx y :
  2 ^ 52 <= mx -> loc_ok y mx lx ->
  -1074 <= Zdigits2 mx + ex - 53 -> Zdigits2 mx + ex <= 1023 ->
  exists m e,
    binary_round_aux 53 1024 s mx ex lx = S754_finite s m e
    /\ Zdigits2 mx - 53 + ex <= e <= Zdigits2 mx - 53 + ex + 1
    /\ 2 ^ 52 <= Zpos m < 2 ^ 53
    /\ (Rabs (IZR (Zpos m) * bpow e - y * bpow ex) <= bpow e / 2)%R.
Proof.
  intros Hmx Hy Hlo Hhi.
  pose proof (pow52_digits mx Hmx) as Hd.
  destruct (Zdigits2_bounds mx ltac:(lia)) as [D1 D2].
  set (d := Zdigits2 mx) in *.
  unfold binary_round_aux, shr_fexp. fold d.
  rewrite (fexp_normal (d + ex)) by lia.
  replace (d + ex - 53 - ex) with (d - 53) by lia.
  destruct (shr_ok y (shr_record_of_loc mx lx) ex (d - 53) ltac:(lia)
              (record_of_loc_ok y mx lx ltac:(lia) Hy)) as [He' [Hm1 Hrec]].
  destruct (shr (shr_record_of_loc mx lx) ex (d - 53)) as [mrs' e'].
  cbn [fst snd] in *. subst e'.
  set (m1 := shr_m mrs') in *. set (l1 := loc_of_shr_record mrs') in *.
  set (y1 := (y * bpow (- (d - 53)))%R) in *.
  pose proof (loc_ok_range _ _ _ Hrec) as R1.
  pose proof (loc_ok_range _ _ _ Hy) as R0.
  (* y1 lies in [2^52, 2^53) *)
  assert (Y1 : (IZR (2 ^ 52) <= y1 < IZR (2 ^ 53))%R).
  { assert (P : (bpow (- (d - 53)) * bpow (d - 53) = 1)%R) by apply bpow_opp.
    pose proof (bpow_pos (- (d - 53))) as Pp.
    assert (E52 : (IZR (2 ^ 52) = bpow (d - 1) * bpow (- (d - 53)))%R).
    { rewrite <- bpow_add. replace (d - 1 + - (d - 53)) with 52 by lia.
      rewrite <- bpow_IZR by lia. reflexivity. }
    assert (E53 : (IZR (2 ^ 53) = bpow d * bpow (- (d - 53)))%R).
    { rewrite <- bpow_add. replace (d + - (d - 53)) with 53 by lia.
      rewrite <- bpow_IZR by lia. reflexivity. }
    assert (L : (bpow (d - 1) <= IZR mx)%R).
    { rewrite <- bpow_IZR by lia. apply IZR_le. exact D1. }
    assert (U : (IZR mx + 1 <= bpow d)%R).
    { rewrite <- bpow_IZR by lia. rewrite <- (plus_IZR mx 1). apply IZR_le. lia. }
    rewrite E52, E53. unfold y1. split.
    - apply Rmult_le_compat_r; lra.
    - apply Rmult_lt_compat_r; lra. }
  assert (M1 : 2 ^ 52 <= m1 < 2 ^ 53).
  { split.
    - apply Z.lt_succ_r. apply lt_IZR. rewrite succ_IZR. lra.
    - apply lt_IZR. lra. }
  destruct (round_nearest_even_ok y1 m1 l1 Hrec) as [M2 Y2].
  set (m2 := round_nearest_even m1 l1) in *.
  assert (Err : (Rabs (IZR m2 * bpow (ex + (d - 53)) - y * bpow ex)
                 <= bpow (ex + (d - 53)) / 2)%R).
  { assert (E : (y * bpow ex = y1 * bpow (ex + (d - 53)))%R).
    { unfold y1. rewrite Rmult_assoc, <- bpow_add. do 2 f_equal. lia. }
    rewrite E. pose proof (bpow_pos (ex + (d - 53))) as Pp.
    apply Rabs_le. nra. }
  destruct (Z_lt_le_dec m2 (2 ^ 53)) as [Lt | Ge].
  - (* no carry *)
    assert (D2' : Zdigits2 m2 = 53) by (apply Zdigits2_unique; lia).
    rewrite D2'. rewrite (fexp_normal (53 + (ex + (d - 53)))) by lia.
    replace (53 + (ex + (d - 53)) - 53 - (ex + (d - 53))) with 0 by lia.
    cbn [shr shr_record_of_loc shr_m].
    destruct m2 as [|p|p] eqn:Em2; try lia.
    exists p, (ex + (d - 53)).
    replace (ex + (d - 53) <=? 1024 - 53) with true by (symmetry; apply Z.leb_le; lia).
    split; [reflexivity|]. split; [lia|]. split; [lia | exact Err].
  - (* the mantissa was rounded up to 2^53 *)
    assert (Em2 : m2 = 2 ^ 53) by lia. rewrite Em2.
    change (Zdigits2 (2 ^ 53)) with 54.
    rewrite (fexp_normal (54 + (ex + (d - 53)))) by lia.
    replace (54 + (ex + (d - 53)) - 53 - (ex + (d - 53))) with 1 by lia.
    cbn [shr shr_record_of_loc SpecFloat.iter_pos].
    change (shr_1 {| shr_m := 2 ^ 53; shr_r := false; shr_s := false |})
      with {| shr_m := 2 ^ 52; shr_r := false; shr_s := false |}.
    cbn [shr_m]. change (2 ^ 52) with (Zpos (2 ^ 52)).
    exists (2 ^ 52)%positive, (ex + (d - 53) + 1).
    replace (ex + (d - 53) + 1 <=? 1024 - 53) with true by (symmetry; apply Z.leb_le; lia).
    split; [reflexivity|]. split; [lia|]. split; [split; [reflexivity | reflexivity]|].
    rewrite Em2 in Err.
    assert (E : (IZR (Z.pos (2 ^ 52)) * bpow (ex + (d - 53) + 1)
                 = IZR (2 ^ 53) * bpow (ex + (d - 53)))%R).
    { rewrite (bpow_add (ex + (d - 53)) 1), bpow_1.
      change (IZR (2 ^ 53)) with (IZR (2 * 2 ^ 52)). rewrite mult_IZR.
      change (Z.pos (2 ^ 52)) with (2 ^ 52). lra. }
    rewrite E. rewrite (bpow_add (ex + (d - 53)) 1), bpow_1.
    pose proof (bpow_pos (ex + (d - 53))) as Pp.
    eapply Rle_trans; [exact Err | lra].
Qed.

Lemma binary_round_aux_exact s p ex :
  Zdigits2 (Zpos p) = 53 -> -1074 <= ex <= 971 ->
  binary_round_aux 53 1024 s (Zpos p) ex loc_Exact = S754_finite s p ex.
Proof.
  intros Hd He. unfold binary_round_aux, shr_fexp. rewrite Hd.
  rewrite (fexp_normal (53 + ex)) by lia.
  replace (53 + ex - 53 - ex) with 0 by lia.
  cbn [shr shr_record_of_loc shr_m loc_of_shr_record round_nearest_even].
  rewrite Hd. rewrite (fexp_normal (53 + ex)) by lia.
  replace (53 + ex - 53 - ex) with 0 by lia.
  cbn [shr shr_record_of_loc shr_m].
  replace (ex <=? 1024 - 53) with true by (symmetry; apply Z.leb_le; lia).
  reflexivity.
Qed.

Lemma iter_xO p d : Zpos (Pos.iter xO p d) = Zpos p * 2 ^ Zpos d.
Proof.
  induction d as [|d IH] using Pos.peano_ind.
  - cbn [Pos.iter]. rewrite Pos2Z.inj_xO. change (2 ^ 1) with 2. lia.
  - rewrite Pos.iter_succ, Pos2Z.inj_xO, IH, Pos2Z.inj_succ, Z.pow_succ_r by lia.
    lia.
Qed.

(** An integer below 2^53 converts exactly. *)
Lemma float_of_int_ok z :
  0 < z < 2 ^ 53 ->
  exists m e,
    float_of_int z = S754_finite false m e
    /\ (IZR (Zpos m) * bpow e = IZR z)%R
    /\ 2 ^ 52 <= Zpos m < 2 ^ 53
    /\ e = Zdigits2 z - 53.
Proof.
  intros [Hz Hz']. destruct z as [|p|p]; try lia.
  destruct (Zdigits2_bounds (Zpos p) ltac:(lia)) as [B1 B2].
  assert (Hd : 0 < Zdigits2 (Zpos p) <= 53).
  { split; [cbn; lia|].
    destruct (Z_lt_le_dec 53 (Zdigits2 (Z.pos p))) as [L|G]; [| exact G].
    assert (2 ^ 53 <= 2 ^ (Zdigits2 (Z.pos p) - 1)) by (apply Z.pow_le_mono_r; lia).
    lia. }
  unfold float_of_int, binary_normalize, binary_round.
  change (Z.pos (digits2_pos p)) with (Zdigits2 (Zpos p)).
  set (d := Zdigits2 (Zpos p)) in *.
  rewrite (fexp_normal (d + 0)) by lia. unfold shl_align.
  destruct (d + 0 - 53 - 0) as [|q|q] eqn:Eq; try lia.
  - assert (E : d = 53) by lia.
    rewrite binary_round_aux_exact by (fold d; lia).
    exists p, 0. split; [reflexivity|]. rewrite bpow_0.
    split; [lra|]. rewrite E in B1, B2. change (2 ^ (53 - 1)) with (2 ^ 52) in B1.
    split; [lia | lia].
  - assert (Hm : Zpos (Pos.iter xO p q) = Zpos p * 2 ^ (53 - d)).
    { rewrite iter_xO. do 2 f_equal. lia. }
    assert (P : 2 ^ (53 - d) * 2 ^ (d - 1) = 2 ^ 52).
    { rewrite <- Z.pow_add_r by lia. f_equal. lia. }
    assert (P' : 2 ^ (53 - d) * 2 ^ d = 2 ^ 53).
    { rewrite <- Z.pow_add_r by lia. f_equal. lia. }
    assert (Pp : 0 < 2 ^ (53 - d)) by (apply Z.pow_pos_nonneg; lia).
    assert (Hr : 2 ^ 52 <= Zpos (Pos.iter xO p q) < 2 ^ 53) by (rewrite Hm; nia).
    rewrite binary_round_aux_exact.
    + exists (Pos.iter xO p q), (d + 0 - 53). split; [reflexivity|].
      split; [| split; [exact Hr | lia]].
      rewrite Hm, mult_IZR, bpow_IZR by lia. rewrite Rmult_assoc, <- bpow_add.
      replace (53 - d + (d + 0 - 53)) with 0 by lia. rewrite bpow_0. lra.
    + apply Zdigits2_unique; [exact Hr | lia].
    + lia.
Qed.

Lemma bpow_inv e : bpow (- e) = (/ bpow e)%R.
Proof.
  pose proof (bpow_opp e) as H. pose proof (bpow_pos e) as P.
  apply Rmult_eq_reg_r with (bpow e); [| lra].
  rewrite H. field. lra.
Qed.

Lemma Zdigits2_le m d : 0 < m < 2 ^ d -> 0 <= d -> Zdigits2 m <= d.
Proof.
  intros [H1 H2] Hd. destruct (Zdigits2_bounds m H1) as [B1 B2].
  destruct (Z_lt_le_dec d (Zdigits2 m)) as [L|G]; [| exact G].
  assert (2 ^ d <= 2 ^ (Zdigits2 m - 1)) by (apply Z.pow_le_mono_r; lia). lia.
Qed.

Lemma new_location_ok nb k q :
  0 < nb -> 0 <= k < nb ->
  loc_ok (IZR q + IZR k / IZR nb) q (new_location nb k).
Proof.
  intros Hnb Hk.
  assert (Pn : (0 < IZR nb)%R) by (apply IZR_lt; lia).
  set (t := (IZR k / IZR nb)%R).
  assert (Ht : (t * IZR nb = IZR k)%R) by (unfold t; field; lra).
  clearbody t.
  unfold new_location, new_location_even, new_location_odd.
  destruct (Z.even nb) eqn:Ev; cbv beta; destruct (k =? 0) eqn:E0.
  all: try (apply Z.eqb_eq in E0; subst k; assert (t = 0%R) by nra;
            cbn [loc_ok]; lra).
  all: apply Z.eqb_neq in E0;
    assert (Pk : (0 < IZR k)%R) by (apply IZR_lt; lia).
  - destruct (Z.compare_spec (2 * k) nb) as [E|L|G]; cbn [loc_ok].
    + assert (2 * IZR k = IZR nb)%R by (rewrite <- E, mult_IZR; reflexivity). nra.
    + assert (2 * IZR k < IZR nb)%R by (rewrite <- mult_IZR; apply IZR_lt; exact L).
      nra.
    + assert (IZR nb < 2 * IZR k)%R by (rewrite <- mult_IZR; apply IZR_lt; exact G).
      assert (IZR k < IZR nb)%R by (apply IZR_lt; lia). nra.
  - assert (Hodd : 2 * k <> nb).
    { intros <-. rewrite Z.even_mul in Ev. discriminate Ev. }
    destruct (Z.compare_spec (2 * k + 1) nb) as [E|L|G]; cbn [loc_ok].
    + assert (2 * IZR k < IZR nb)%R by (rewrite <- mult_IZR; apply IZR_lt; lia). nra.
    + assert (2 * IZR k < IZR nb)%R by (rewrite <- mult_IZR; apply IZR_lt; lia). nra.
    + assert (IZR nb < 2 * IZR k)%R by (rewrite <- mult_IZR; apply IZR_lt; lia).
      assert (IZR k < IZR nb)%R by (apply IZR_lt; lia). nra.
Qed.

(** The quotient of two positive integers below 2^53 is the exact quotient
    rounded to a normal float. *)
Lemma truediv_ok H W :
  0 < H < 2 ^ 53 -> 0 < W < 2 ^ 53 ->
  exists m e,
    truediv H W = Some (S754_finite false m e)
    /\ 2 ^ 52 <= Zpos m < 2 ^ 53
    /\ Zdigits2 H - Zdigits2 W - 53 <= e <= Zdigits2 H - Zdigits2 W - 51
    /\ (Rabs (IZR (Zpos m) * bpow e - IZR H / IZR W) <= bpow e / 2)%R.
Proof.
  intros HH HW.
  destruct (float_of_int_ok H HH) as (mH & eH & FH & VH & RH & EH).
  destruct (float_of_int_ok W HW) as (mW & eW & FW & VW & RW & EW).
  assert (DH : 1 <= Zdigits2 H <= 53).
  { split; [destruct H; cbn; lia | apply Zdigits2_le; lia]. }
  assert (DW : 1 <= Zdigits2 W <= 53).
  { split; [destruct W; cbn; lia | apply Zdigits2_le; lia]. }
  unfold truediv. replace (W =? 0) with false by (symmetry; apply Z.eqb_neq; lia).
  rewrite FH, FW. cbn [SFdiv xorb]. unfold SFdiv_core_binary.
  rewrite (Zdigits2_unique (Zpos mH) 53) by lia.
  rewrite (Zdigits2_unique (Zpos mW) 53) by lia.
  rewrite (fexp_normal (53 + eH - (53 + eW))) by lia.
  replace (Z.min (53 + eH - (53 + eW) - 53) (eH - eW)) with (eH - eW - 53) by lia.
  replace (eH - eW - (eH - eW - 53)) with 53 by lia.
  rewrite Z.shiftl_mul_pow2 by lia.
  pose proof (Z_div_mod (Zpos mH * 2 ^ 53) (Zpos mW) ltac:(lia)) as Hdiv.
  destruct (Z.div_eucl (Zpos mH * 2 ^ 53) (Zpos mW)) as [q r].
  destruct Hdiv as [Ha Hr].
  assert (Hq : 2 ^ 52 <= q < 2 ^ 54) by nia.
  assert (Dq : 53 <= Zdigits2 q <= 54).
  { split; [apply pow52_digits; lia | apply Zdigits2_le; lia]. }
  set (y := (IZR q + IZR r / IZR (Zpos mW))%R).
  destruct (binary_round_aux_ok false q (eH - eW - 53) (new_location (Zpos mW) r) y
              ltac:(lia) (new_location_ok (Zpos mW) r q ltac:(lia) Hr)
              ltac:(lia) ltac:(lia)) as (m & e & Hb & He & Hm & Herr).
  exists m, e. rewrite Hb. split; [reflexivity|]. split; [exact Hm|].
  split; [lia|].
  assert (Ey : (y * bpow (eH - eW - 53) = IZR H / IZR W)%R).
  { assert (PW : (0 < IZR (Zpos mW))%R) by (apply IZR_lt; lia).
    pose proof (bpow_pos eW) as PbW. pose proof (bpow_pos eH) as PbH.
    assert (Ya : (y * IZR (Zpos mW) = IZR (Zpos mH) * IZR (2 ^ 53))%R).
    { unfold y. rewrite <- mult_IZR, Ha, plus_IZR, mult_IZR. field. lra. }
    replace (eH - eW - 53) with (eH + (- eW + - (53))) by lia.
    rewrite !bpow_add, (bpow_inv eW), (bpow_inv 53), <- (bpow_IZR 53) by lia.
    rewrite <- VH, <- VW.
    assert (P53 : (0 < IZR (2 ^ 53))%R) by (apply IZR_lt; lia).
    apply Rmult_eq_reg_r with (IZR (Zpos mW) * bpow eW * IZR (2 ^ 53))%R; [| nra].
    field_simplify; [| lra | lra]. nra. }
  rewrite <- Ey. exact Herr.
Qed.

(** The product of an integer below 2^53 and a normal float is the exact
    product rounded to a normal float. *)
Lemma int_mul_float_ok T m e :
  0 < T < 2 ^ 53 -> 2 ^ 52 <= Zpos m < 2 ^ 53 -> -900 <= e <= 800 ->
  exists m' e',
    int_mul_float T (S754_finite false m e) = S754_finite false m' e'
    /\ 2 ^ 52 <= Zpos m' < 2 ^ 53
    /\ e' <= Zdigits2 T + e + 1
    /\ (Rabs (IZR (Zpos m') * bpow e' - IZR T * (IZR (Zpos m) * bpow e))
        <= bpow e' / 2)%R.
Proof.
  intros HT Hm He.
  destruct (float_of_int_ok T HT) as (mT & eT & FT & VT & RT & ET).
  assert (DT : 1 <= Zdigits2 T <= 53).
  { split; [destruct T; cbn; lia | apply Zdigits2_le; lia]. }
  unfold int_mul_float. rewrite FT. cbn [SFmul xorb].
  assert (Hp : 2 ^ 104 <= Zpos (mT * m) < 2 ^ 106) by (rewrite Pos2Z.inj_mul; nia).
  assert (Dp : 105 <= Zdigits2 (Zpos (mT * m)) <= 106).
  { split; [| apply Zdigits2_le; lia].
    destruct (Zdigits2_bounds (Zpos (mT * m)) ltac:(lia)) as [_ B].
    destruct (Z_lt_le_dec (Zdigits2 (Zpos (mT * m))) 105) as [L|G]; [| exact G].
    assert (2 ^ Zdigits2 (Zpos (mT * m)) <= 2 ^ 104) by (apply Z.pow_le_mono_r; lia).
    lia. }
  destruct (binary_round_aux_ok false (Zpos (mT * m)) (eT + e) loc_Exact
              (IZR (Zpos (mT * m))) ltac:(lia) eq_refl ltac:(lia) ltac:(lia))
    as (m' & e' & Hb & He' & Hm' & Herr).
  exists m', e'. split; [exact Hb|]. split; [exact Hm'|]. split; [lia|].
  replace (IZR T * (IZR (Zpos m) * bpow e))%R
    with (IZR (Zpos (mT * m)) * bpow (eT + e))%R; [exact Herr|].
  rewrite <- VT, Pos2Z.inj_mul, mult_IZR, bpow_add. ring.
Qed.

(** [round] gives an integer within one half of the float. *)
Lemma nearest_even_ok m e :
  0 < m ->
  (Rabs (IZR (nearest_even m e) - IZR m * bpow e) <= 1 / 2)%R.
Proof.
  intros Hm. unfold nearest_even. destruct (Z.leb_spec 0 e) as [He|He].
  - rewrite mult_IZR, bpow_IZR by lia.
    replace (IZR m * bpow e - IZR m * bpow e)%R with 0%R by ring.
    rewrite Rabs_R0. lra.
  - set (d := 2 ^ (- e)).
    assert (Hd : 0 < d) by (apply Z.pow_pos_nonneg; lia).
    pose proof (Z.div_mod m d ltac:(lia)) as Hdm.
    pose proof (Z.mod_pos_bound m d Hd) as Hr.
    set (q := m / d) in *. set (r := m mod d) in *.
    assert (Pd : (0 < IZR d)%R) by (apply IZR_lt; exact Hd).
    assert (Ev : (IZR m * bpow e = IZR q + IZR r / IZR d)%R).
    { replace e with (- (- e)) at 1 by lia.
      rewrite bpow_inv, <- bpow_IZR by lia. fold d.
      rewrite Hdm, plus_IZR, mult_IZR. field. lra. }
    rewrite Ev.
    set (t := (IZR r / IZR d)%R).
    assert (Ht : (t * IZR d = IZR r)%R) by (unfold t; field; lra).
    assert (T0 : (0 <= t < 1)%R).
    { assert (0 <= IZR r)%R by (apply IZR_le; lia).
      assert (IZR r < IZR d)%R by (apply IZR_lt; lia).
      clearbody t. split; nra. }
    clearbody t.
    destruct (Z.compare_spec (2 * r) d) as [E|L|G].
    + assert (2 * IZR r = IZR d)%R by (rewrite <- E, mult_IZR; reflexivity).
      assert (t = 1 / 2)%R by nra.
      destruct (Z.even q); rewrite ?plus_IZR; apply Rabs_le; lra.
    + assert (2 * IZR r < IZR d)%R by (rewrite <- mult_IZR; apply IZR_lt; exact L).
      apply Rabs_le. nra.
    + assert (IZR d < 2 * IZR r)%R by (rewrite <- mult_IZR; apply IZR_lt; exact G).
      rewrite plus_IZR. apply Rabs_le. nra.
Qed.

Lemma IZR_lt_bpow_digits m : 0 < m -> (IZR m < bpow (Zdigits2 m))%R.
Proof.
  intros Hm. destruct (Zdigits2_bounds m Hm) as [_ B].
  assert (0 < Zdigits2 m) by (destruct m; cbn; lia).
  rewrite <- bpow_IZR by lia. apply IZR_lt. exact B.
Qed.

Lemma digits_of_product a b c :
  0 < a -> 0 < b -> a * b < 2 ^ c -> Zdigits2 a + Zdigits2 b <= c + 1.
Proof.
  intros Ha Hb Hab.
  destruct (Zdigits2_bounds a Ha) as [A _]. destruct (Zdigits2_bounds b Hb) as [B _].
  assert (0 < Zdigits2 a) by (destruct a; cbn; lia).
  assert (0 < Zdigits2 b) by (destruct b; cbn; lia).
  destruct (Z_lt_le_dec (c + 1) (Zdigits2 a + Zdigits2 b)) as [L|G]; [| exact G].
  assert (P : 2 ^ (Zdigits2 a - 1) * 2 ^ (Zdigits2 b - 1) <= a * b).
  { apply Z.mul_le_mono_nonneg; try lia; apply Z.pow_nonneg; lia. }
  rewrite <- Z.pow_add_r in P by lia.
  assert (2 ^ c <= 2 ^ (Zdigits2 a - 1 + (Zdigits2 b - 1)))
    by (apply Z.pow_le_mono_r; lia).
  lia.
Qed.

Lemma Rabs_le_inv a b : (Rabs a <= b)%R -> (- b <= a <= b)%R.
Proof. unfold Rabs. destruct (Rcase_abs a); lra. Qed.

(** An integer [h] is nearest to the fraction [n / d] when it is within one
    half of it; at an exact half both neighbours are nearest. *)
Lemma nearest_of_real (n d h : Z) (x : R) :
  0 < d ->
  (Rabs (IZR h - x) <= 1 / 2 + / (4 * IZR d))%R ->
  (x * IZR d = IZR n)%R ->
  nearest n d h.
Proof.
  unfold nearest. intros Hd Hx Hn.
  assert (Pd : (1 <= IZR d)%R) by (apply IZR_le; lia).
  assert (Hi : (0 < / (4 * IZR d))%R) by (apply Rinv_0_lt_compat; lra).
  assert (Hq : (/ (4 * IZR d) * IZR d = 1 / 4)%R) by (field; lra).
  apply Rabs_le_inv in Hx. destruct Hx as [L U].
  set (t := (/ (4 * IZR d))%R) in *. clearbody t.
  assert (B : (IZR (2 * d * h - 2 * n) < IZR (d + 1)
               /\ IZR (- (d + 1)) < IZR (2 * d * h - 2 * n))%R).
  { rewrite opp_IZR, plus_IZR, minus_IZR, !mult_IZR. split; nra. }
  destruct B as [B1 B2]. apply lt_IZR in B1, B2. lia.
Qed.

(** The height that [stage] computes for a variant is an integer nearest to
    the exact [T * H / W]. *)
Lemma scaled_height_nearest T H W :
  0 < T -> 0 < H -> 0 < W < 2 ^ 53 -> T * H < 2 ^ 47 ->
  exists ratio h,
    truediv H W = Some ratio
    /\ round (int_mul_float T ratio) = Some h
    /\ nearest (T * H) W h.
Proof.
  intros HT HH HW HTH.
  assert (T53 : T < 2 ^ 53) by nia.
  assert (H53 : H < 2 ^ 53) by nia.
  pose proof (digits_of_product T H 47 HT HH HTH) as DTH.
  assert (DT : 1 <= Zdigits2 T) by (destruct T; cbn; lia).
  assert (DH : 1 <= Zdigits2 H) by (destruct H; cbn; lia).
  assert (DW : 1 <= Zdigits2 W <= 53).
  { split; [destruct W; cbn; lia | apply Zdigits2_le; lia]. }
  destruct (truediv_ok H W ltac:(lia) HW) as (mr & er & Hr & Rr & Er & Vr).
  destruct (int_mul_float_ok T mr er ltac:(lia) Rr ltac:(lia))
    as (mp & ep & Hp & Rp & Ep & Vp).
  exists (S754_finite false mr er), (nearest_even (Zpos mp) ep).
  split; [exact Hr|]. rewrite Hp. split; [reflexivity|].
  pose proof (nearest_even_ok (Zpos mp) ep ltac:(lia)) as Vh.
  apply (nearest_of_real (T * H) W _ (IZR T * (IZR H / IZR W))); [lia | |].
  2:{ rewrite mult_IZR. field. apply not_0_IZR. lia. }
  assert (PW : (1 <= IZR W)%R) by (apply IZR_le; lia).
  assert (PT : (1 <= IZR T)%R) by (apply IZR_le; lia).
  pose proof (IZR_lt_bpow_digits W ltac:(lia)) as BW.
  pose proof (IZR_lt_bpow_digits T HT) as BT.
  pose proof (bpow_le er (Zdigits2 H - Zdigits2 W - 51) ltac:(lia)) as Ber.
  pose proof (bpow_le ep (Zdigits2 T + 1 + er) ltac:(lia)) as Bep.
  pose proof (bpow_le (Zdigits2 T + Zdigits2 H - 51) (-3) ltac:(lia)) as B3.
  pose proof (bpow_pos er) as Per. pose proof (bpow_pos ep) as Pep.
  pose proof (bpow_pos (Zdigits2 W)) as PdW.
  pose proof (bpow_pos (Zdigits2 T)) as PdT.
  assert (E1 : (bpow (Zdigits2 W) * bpow (Zdigits2 H - Zdigits2 W - 51)
                = bpow (Zdigits2 H - 51))%R).
  { rewrite <- bpow_add. f_equal. lia. }
  assert (E2 : (bpow (Zdigits2 T) * bpow (Zdigits2 H - 51)
                = bpow (Zdigits2 T + Zdigits2 H - 51))%R).
  { rewrite <- bpow_add. f_equal. lia. }
  assert (E3 : bpow (Zdigits2 T + 1 + er) = (bpow (Zdigits2 T) * 2 * bpow er)%R).
  { rewrite !bpow_add, bpow_1. reflexivity. }
  assert (E4 : bpow (-3) = (1 / 8)%R).
  { change (-3) with (- (3)). rewrite bpow_inv, <- bpow_IZR by lia.
    change (2 ^ 3) with 8. lra. }
  rewrite E3 in Bep. rewrite E4 in B3.
  (* W * 2^er <= 2^(dH - 51) *)
  assert (C1 : (IZR W * bpow er <= bpow (Zdigits2 H - 51))%R).
  { rewrite <- E1. apply Rmult_le_compat; lra. }
  assert (C2 : (bpow (Zdigits2 T) * (IZR W * bpow er) <= 1 / 8)%R).
  { apply Rle_trans with (2 := B3). rewrite <- E2.
    apply Rmult_le_compat_l; lra. }
  assert (C3 : (IZR T * (IZR W * bpow er) <= 1 / 8)%R).
  { apply Rle_trans with (2 := C2). apply Rmult_le_compat_r; [nra | lra]. }
  assert (C4 : (IZR W * bpow ep <= 1 / 4)%R).
  { apply Rle_trans with (IZR W * (bpow (Zdigits2 T) * 2 * bpow er))%R.
    - apply Rmult_le_compat_l; lra.
    - lra. }
  (* total distance *)
  set (a := (IZR (Zpos mr) * bpow er)%R) in *.
  set (b := (IZR (Zpos mp) * bpow ep)%R) in *.
  set (x := (IZR H / IZR W)%R) in *.
  set (h := IZR (nearest_even (Zpos mp) ep)) in *.
  apply Rabs_le_inv in Vr, Vp, Vh.
  assert (Q : (/ (4 * IZR W) * IZR W = 1 / 4)%R) by (field; lra).
  assert (Qp : (0 < / (4 * IZR W))%R) by (apply Rinv_0_lt_compat; lra).
  set (q := (/ (4 * IZR W))%R) in *.
  assert (G1 : (bpow ep / 2 <= q / 2)%R).
  { apply Rmult_le_reg_l with (IZR W); [lra|]. lra. }
  assert (G2 : (IZR T * (bpow er / 2) <= q / 4)%R).
  { apply Rmult_le_reg_l with (IZR W); [lra|]. nra. }
  clearbody a b x h q.
  apply Rabs_le. destruct Vr as [Vr1 Vr2], Vp as [Vp1 Vp2], Vh as [Vh1 Vh2].
  assert (M1 : (IZR T * (a - x) <= IZR T * (bpow er / 2))%R)
    by (apply Rmult_le_compat_l; lra).
  assert (M2 : (IZR T * (- (bpow er / 2)) <= IZR T * (a - x))%R)
    by (apply Rmult_le_compat_l; lra).
  split; lra.
Qed.

(** The height that the specification states is an integer nearest to the
    exact [T * H / W] as well. *)
Lemma stated_height_nearest T H W :
  0 < T -> 0 < H -> 0 < W < 2 ^ 53 -> T * H < 2 ^ 47 ->
  exists h,
    stated_height T W H = Some h
    /\ nearest (T * H) W h.
Proof.
  intros HT HH HW HTH.
  assert (HP : 0 < T * H) by nia.
  assert (DP : 1 <= Zdigits2 (T * H) <= 47).
  { split; [destruct (T * H); cbn; lia | apply Zdigits2_le; lia]. }
  assert (DW : 1 <= Zdigits2 W <= 53).
  { split; [destruct W; cbn; lia | apply Zdigits2_le; lia]. }
  destruct (truediv_ok (T * H) W ltac:(lia) HW) as (m & e & Hq & Rq & Eq & Vq).
  unfold stated_height. rewrite Hq. cbn [round cond_Zopp].
  exists (nearest_even (Zpos m) e). split; [reflexivity|].
  pose proof (nearest_even_ok (Zpos m) e ltac:(lia)) as Vh.
  apply (nearest_of_real (T * H) W _ (IZR (T * H) / IZR W)); [lia | |].
  2:{ field. apply not_0_IZR. lia. }
  assert (PW : (1 <= IZR W)%R) by (apply IZR_le; lia).
  pose proof (IZR_lt_bpow_digits W ltac:(lia)) as BW.
  pose proof (bpow_le e (Zdigits2 (T * H) - Zdigits2 W - 51) ltac:(lia)) as Be.
  pose proof (bpow_le (Zdigits2 (T * H) - 51) (-3) ltac:(lia)) as B3.
  pose proof (bpow_pos e) as Pe. pose proof (bpow_pos (Zdigits2 W)) as PdW.
  assert (E1 : (bpow (Zdigits2 W) * bpow (Zdigits2 (T * H) - Zdigits2 W - 51)
                = bpow (Zdigits2 (T * H) - 51))%R).
  { rewrite <- bpow_add. f_equal. lia. }
  assert (E4 : bpow (-3) = (1 / 8)%R).
  { change (-3) with (- (3)). rewrite bpow_inv, <- bpow_IZR by lia.
    change (2 ^ 3) with 8. lra. }
  rewrite E4 in B3.
  assert (C1 : (IZR W * bpow e <= 1 / 8)%R).
  { apply Rle_trans with (2 := B3). rewrite <- E1. apply Rmult_le_compat; lra. }
  set (a := (IZR (Zpos m) * bpow e)%R) in *.
  set (x := (IZR (T * H) / IZR W)%R) in *.
  set (h := IZR (nearest_even (Zpos m) e)) in *.
  apply Rabs_le_inv in Vq, Vh.
  assert (Q : (/ (4 * IZR W) * IZR W = 1 / 4)%R) by (field; lra).
  assert (Qp : (0 < / (4 * IZR W))%R) by (apply Rinv_0_lt_compat; lra).
  set (q := (/ (4 * IZR W))%R) in *.
  assert (G1 : (bpow e / 2 <= q)%R).
  { apply Rmult_le_reg_l with (IZR W); [lra|]. lra. }
  clearbody a x h q.
  apply Rabs_le. destruct Vq as [Vq1 Vq2], Vh as [Vh1 Vh2]. split; lra.
Qed.

(** Away from an exact half there is one nearest integer. *)
Lemma nearest_unique n d h h' :
  0 < d -> ~ half_way n d -> nearest n d h -> nearest n d h' -> h = h'.
Proof.
  unfold nearest, half_way. intros Hd Hn A B.
  assert (C : forall k, 2 * n <> d * (2 * k + 1)).
  { intros k E. apply Hn. rewrite E.
    replace (d * (2 * k + 1)) with (d + k * (2 * d)) by ring.
    rewrite Z.mod_add by lia. apply Z.mod_small. lia. }
  destruct (Z.lt_trichotomy h h') as [L | [E | G]]; [exfalso | exact E | exfalso].
  - assert (h' = h + 1) by nia. subst h'. apply (C h). nia.
  - assert (h = h' + 1) by nia. subst h. apply (C h'). nia.
Qed.

(** The height that [stage] computes is an integer nearest to the exact
    [T * H / W], and away from an exact half it is the one that the
    specification states. *)
Lemma scaled_height_stated T H W :
  0 < T -> 0 < H -> 0 < W < 2 ^ 53 -> T * H < 2 ^ 47 ->
  exists ratio h,
    truediv H W = Some ratio
    /\ round (int_mul_float T ratio) = Some h
    /\ nearest (T * H) W h
    /\ (~ half_way (T * H) W -> stated_height T W H = Some h).
Proof.
  intros HT HH HW HTH.
  destruct (scaled_height_nearest T H W HT HH HW HTH) as (ratio & h & Hr & Hh & A).
  destruct (stated_height_nearest T H W HT HH HW HTH) as (h' & Hs & B).
  exists ratio, h. split; [exact Hr|]. split; [exact Hh|]. split; [exact A|].
  intros Hn. rewrite Hs. f_equal. symmetry.
  apply (nearest_unique (T * H) W h h'); [lia | exact Hn | exact A | exact B].
Qed.

(** * Images *)

Lemma im_width_prepared im : im_width (prepared im) = im_width im.
Proof. unfold prepared. destruct (str_eqb _ _); reflexivity. Qed.

Lemma im_height_prepared im : im_height (prepared im) = im_height im.
Proof. unfold prepared. destruct (str_eqb _ _); reflexivity. Qed.

Lemma joinpath_neq (dir stem a b : str) :
  a <> b -> joinpath dir (stem ++ a) <> joinpath dir (stem ++ b).
Proof.
  intros Hab H. unfold joinpath in H. apply app_inv_head in H.
  injection H as H. apply app_inv_head in H. contradiction.
Qed.

Lemma images_value s :
  wp images (fun o _ => forall d, o = Returns d -> d = u "../akamai/images") s.
Proof.
  autounfold with control. wp_run; intros d [= <-]; reflexivity.
Qed.

Lemma audio_value s :
  wp audio (fun o _ => forall d, o = Returns d -> d = u "../akamai/audio") s.
Proof.
  autounfold with control. wp_run; intros d [= <-]; reflexivity.
Qed.

Lemma save_entries w im newpath format quality s :
  wp (save w im newpath format quality)
     (fun o s1 => o = Returns tt ->
        akamai_dir s1 =
          Tree (<[ newpath := Saved im format quality ]> (entries_of (akamai_dir s)))) s.
Proof.
  autounfold with control. wp_run; intros H; first [discriminate H | reflexivity].
Qed.

Lemma stage_width_entries w im ratio dir doc_id width s :
  wp (stage_width w im ratio dir doc_id width)
     (fun o s1 => o = Returns tt ->
        exists v,
          akamai_dir s1 =
            Tree (<[ joinpath dir (format_d doc_id ++ u "-" ++ format_d width ++ u ".jpg")
                     := Saved v (u "JPEG") 80 ]> (entries_of (akamai_dir s)))
          /\ (width < im_width im ->
              exists h, round (int_mul_float width ratio) = Some h /\
                        v = Resized im (width, h) LANCZOS)
          /\ (im_width im <= width -> v = im)) s.
Proof.
  autounfold with control. unfold JPEG_QUALITY.
  wp_run; intros HR; try discriminate HR; eexists; (split; [reflexivity|]);
    match goal with
    | H : (_ <? _) = true |- _ => apply Z.ltb_lt in H
    | H : (_ <? _) = false |- _ => apply Z.ltb_ge in H
    end;
    (split; [intros Hlt; try lia; eexists; split; reflexivity
            | intros Hle; try lia; reflexivity]).
Qed.

Lemma Image_open_returns w path s im s1 mode W H :
  image_open w path = Returns (mode, W, H) ->
  Image_open w path s = (Returns im, s1) ->
  im = Decoded path mode W H.
Proof.
  intros Ho. unfold Image_open, record_call, bind, modify. rewrite Ho.
  intros [= <- _]. reflexivity.
Qed.

Lemma prepare_returns w im s im' s' :
  (if str_eqb (im_mode im) (u "P") then convert w im (u "RGB") else ret im) s
  = (Returns im', s') ->
  im' = prepared im /\ s' = s.
Proof.
  unfold prepared, convert. destruct (str_eqb _ _).
  - destruct (convert_error w im (u "RGB")); [discriminate|].
    intros [= <- <-]. split; reflexivity.
  - intros [= <- <-]. split; reflexivity.
Qed.

Lemma stage_image_entries w doc_id path s s' mode W H :
  image_open w path = Returns (mode, W, H) ->
  stage_image w doc_id path s = (Returns tt, s') ->
  let im := prepared (Decoded path mode W H) in
  entries_of (akamai_dir s') !! full_path doc_id = Some (Saved im (u "JPEG") 80)
  /\ variant_saved (akamai_dir s') doc_id im 571
  /\ variant_saved (akamai_dir s') doc_id im 750.
Proof.
  intros Ho Hs im. unfold stage_image in Hs.
  apply bind_inv_returns in Hs as (im0 & s1 & Hopen & Hs).
  apply (Image_open_returns w path s im0 s1 mode W H Ho) in Hopen. subst im0.
  apply bind_inv_returns in Hs as (im1 & s1' & Hconv & Hs).
  apply prepare_returns in Hconv as [-> ->]. fold im in Hs.
  apply bind_inv_returns in Hs as (dir & s2 & Hdir & Hs).
  pose proof (images_value s1) as Hd. unfold wp in Hd. rewrite Hdir in Hd.
  specialize (Hd dir eq_refl). subst dir.
  apply bind_inv_returns in Hs as ([] & s3 & Hsave & Hs).
  pose proof (save_entries w im (joinpath (u "../akamai/images")
                                  (format_d doc_id ++ u ".jpg"))
                (u "JPEG") JPEG_QUALITY s2) as E3.
  unfold wp in E3. rewrite Hsave in E3. specialize (E3 eq_refl). cbn [snd] in E3.
  apply bind_inv_returns in Hs as (ratio & s3' & Hratio & Hs).
  destruct (truediv (im_height im) (im_width im)) as [r|] eqn:Hdiv;
    [| discriminate Hratio].
  injection Hratio as -> <-.
  unfold IMAGE_WIDTHS in Hs. cbn [for_each] in Hs.
  apply bind_inv_returns in Hs as ([] & s4 & H571 & Hs).
  apply bind_inv_returns in Hs as ([] & s5 & H750 & Hs).
  injection Hs as <-.
  pose proof (stage_width_entries w im ratio (u "../akamai/images") doc_id 571 s3) as E4.
  unfold wp in E4. rewrite H571 in E4.
  destruct (E4 eq_refl) as (v571 & E4' & L571 & G571). cbn [snd] in E4'.
  pose proof (stage_width_entries w im ratio (u "../akamai/images") doc_id 750 s4) as E5.
  unfold wp in E5. rewrite H750 in E5.
  destruct (E5 eq_refl) as (v750 & E5' & L750 & G750). cbn [snd] in E5'.
  rewrite E5', E4', E3. cbn [entries_of].
  fold (full_path doc_id) (variant_path doc_id 571) (variant_path doc_id 750).
  assert (N1 : variant_path doc_id 750 <> full_path doc_id)
    by (apply joinpath_neq; discriminate).
  assert (N2 : variant_path doc_id 571 <> full_path doc_id)
    by (apply joinpath_neq; discriminate).
  assert (N3 : variant_path doc_id 750 <> variant_path doc_id 571)
    by (apply joinpath_neq; discriminate).
  split; [| split].
  - rewrite lookup_insert_ne by exact N1. rewrite lookup_insert_ne by exact N2.
    apply lookup_insert_eq.
  - unfold variant_saved. cbn [entries_of]. rewrite lookup_insert_ne by exact N3.
    rewrite lookup_insert_eq. split.
    + intros Hlt. destruct (L571 Hlt) as (h & Hh & ->). exists ratio, h. auto.
    + intros Hle. rewrite (G571 Hle). reflexivity.
  - unfold variant_saved. cbn [entries_of]. rewrite lookup_insert_eq. split.
    + intros Hlt. destruct (L750 Hlt) as (h & Hh & ->). exists ratio, h. auto.
    + intros Hle. rewrite (G750 Hle). reflexivity.
Qed.

(** C3, as stated, fails: for a source 1142 wide and 39 high the variant of
    width 571 is staged with height 19, whereas 571 * 39 / 1142 is exactly
    19.5 and rounds to 20. The quotient [39 / 1142] is rounded before it is
    multiplied by the width, and the product falls just below the tie. *)
Lemma variant_height_counterexample :
  entries_of (akamai_dir (snd (stage_entry world_flat_picture (u "1.png")
                                 (fresh Absent ∅ []))))
    !! variant_path 1 571
  = Some (Saved (Resized (Decoded (u "../blobs/1.png") (u "RGB") 1142 39)
                   (571, 19) LANCZOS)
            (u "JPEG") 80)
  /\ stated_height 571 1142 39 = Some 20
  /\ 2 * (571 * 39) = (2 * 19 + 1) * 1142.
Proof. vm_compute. repeat split; reflexivity. Qed.

(** C3, amended. For an entry that is staged as an image of width [W] and
    height [H]: the full-size copy and the variant of every target width in
    {571, 750} are saved as JPEG at quality 80; for a target width [T < W]
    the variant [<id>-<T>.jpg] is the image resized with the LANCZOS filter
    to width [T] and height [int(round(T * (H / W)))], quotient and product
    being taken in double precision; for [T >= W] the variant is the
    full-size image itself, with the dimensions of the source. For
    [0 < H < 2^37] and [W < 2^53] the height of a resized variant is an
    integer nearest to the exact [T * H / W], and it is [round(T * H / W)]
    unless [T * H / W] lies exactly half-way between two integers. *)
Theorem staged_variants (w : world) (name : str) (doc_id : Z) (s s' : state)
    (mode : str) (W H : Z) :
  int (stem name) = Some doc_id ->
  suffix name <> u ".mp3" ->
  image_open w (joinpath blobs name) = Returns (mode, W, H) ->
  stage_entry w name s = (Returns tt, s') ->
  let im := prepared (Decoded (joinpath blobs name) mode W H) in
  im_width im = W /\ im_height im = H
  /\ entries_of (akamai_dir s') !! full_path doc_id = Some (Saved im (u "JPEG") 80)
  /\ forall T, T ∈ IMAGE_WIDTHS ->
       variant_saved (akamai_dir s') doc_id im T
       /\ (T < W -> 0 < H < 2 ^ 37 -> W < 2 ^ 53 ->
           variant_height (akamai_dir s') doc_id im T).
Proof.
  intros Hid Hsuf Ho Hs im.
  rewrite (stage_entry_parsed w name doc_id s Hid) in Hs.
  unfold str_eqb in Hs. rewrite bool_decide_eq_false_2 in Hs by exact Hsuf.
  apply bind_inv_returns in Hs as ([] & s1 & Himg & Hc).
  pose proof (count_entry_akamai w s1) as Ka. rewrite Hc in Ka.
  unfold same in Ka. cbn [snd] in Ka. rewrite Ka.
  destruct (stage_image_entries w doc_id _ s s1 mode W H Ho Himg) as (Hf & H571 & H750).
  pose proof (im_width_prepared (Decoded (joinpath blobs name) mode W H)) as EW.
  pose proof (im_height_prepared (Decoded (joinpath blobs name) mode W H)) as EH.
  cbn [im_width im_height] in EW, EH. fold im in EW, EH.
  split; [exact EW|]. split; [exact EH|]. split; [exact Hf|].
  intros T HT.
  assert (Hv : variant_saved (akamai_dir s1) doc_id im T).
  { unfold IMAGE_WIDTHS in HT. rewrite !elem_of_cons, elem_of_nil in HT.
    destruct HT as [-> | [-> | []]]; assumption. }
  split; [exact Hv|].
  intros HTW HH HW.
  assert (BT : 0 < T < 2 ^ 10).
  { unfold IMAGE_WIDTHS in HT. rewrite !elem_of_cons, elem_of_nil in HT.
    destruct HT as [-> | [-> | []]]; lia. }
  destruct Hv as [Hv _]. rewrite EW, EH in Hv.
  destruct (Hv HTW) as (ratio & h & Hr & Hh & He).
  destruct (scaled_height_stated T H W) as (ratio' & h' & Hr' & Hh' & Hn & Hst);
    [lia | lia | lia | nia |].
  rewrite Hr in Hr'. injection Hr' as <-. rewrite Hh in Hh'. injection Hh' as <-.
  exists h. rewrite EW, EH. split; [exact He|]. split; [exact Hn | exact Hst].
Qed.

Lemma staged_variants_witness :
  variant_saved
    (akamai_dir (snd (stage_entry world_with_secret (u "42.png") (fresh Absent ∅ []))))
    42 (prepared (Decoded (joinpath blobs (u "42.png")) (u "P") 1000 500)) 571
  /\ variant_height
       (akamai_dir (snd (stage_entry world_with_secret (u "42.png") (fresh Absent ∅ []))))
       42 (prepared (Decoded (joinpath blobs (u "42.png")) (u "P") 1000 500)) 750.
Proof.
  assert (Hn : suffix (u "42.png") <> u ".mp3") by (vm_compute; discriminate).
  assert (Hr : stage_entry world_with_secret (u "42.png") (fresh Absent ∅ [])
               = (Returns tt, snd (stage_entry world_with_secret (u "42.png")
                                     (fresh Absent ∅ []))))
    by (vm_compute; reflexivity).
  assert (H571 : 571 ∈ IMAGE_WIDTHS) by (apply elem_of_cons; left; reflexivity).
  assert (H750 : 750 ∈ IMAGE_WIDTHS)
    by (apply elem_of_cons; right; apply elem_of_cons; left; reflexivity).
  destruct (staged_variants world_with_secret (u "42.png") 42 (fresh Absent ∅ []) _
              (u "P") 1000 500 eq_refl Hn eq_refl Hr) as (_ & _ & _ & Hv).
  split; [apply (Hv 571 H571) | apply (Hv 750 H750); lia].
Defined.

(** The example of the specification: a palette image of 1000 by 500 gives
    variants of 571 by 286 and 750 by 375. *)
Example example_heights :
  (match truediv 500 1000 with
   | Some ratio => (round (int_mul_float 571 ratio), round (int_mul_float 750 ratio))
   | None => (None, None)
   end) = (Some 286, Some 375).
Proof. vm_compute. reflexivity. Qed.

(** * The staging root *)

Lemma agree_ret {A} (a : A) : agree (ret a).
Proof. intros s1 s2 E. split; [reflexivity | exact E]. Qed.

Lemma agree_raise {A} e : agree (@raise A e).
Proof. intros s1 s2 E. split; [reflexivity | exact E]. Qed.

Lemma agree_lift {A} (o : outcome A) : agree (lift o).
Proof. intros s1 s2 E. split; [reflexivity | exact E]. Qed.

Lemma agree_gets {A} (f : state -> A) :
  (forall s1 s2, eqv s1 s2 -> f s1 = f s2) -> agree (gets f).
Proof. intros H s1 s2 E. split; [cbn; f_equal; apply H, E | exact E]. Qed.

Lemma agree_modify f :
  (forall s1 s2, eqv s1 s2 -> eqv (f s1) (f s2)) -> agree (modify f).
Proof. intros H s1 s2 E. split; [reflexivity | apply H, E]. Qed.

Lemma agree_at_bind {A B} (c : M A) (k : A -> M B) s1 s2 :
  agree_at c s1 s2 -> (forall a, agree (k a)) -> agree_at (bind c k) s1 s2.
Proof.
  intros [Ho Es] Hk. unfold agree_at, bind.
  destruct (c s1) as [[a1|e1] t1], (c s2) as [[a2|e2] t2]; cbn [fst snd] in *;
    try discriminate Ho.
  - injection Ho as <-. apply Hk, Es.
  - injection Ho as <-. split; [reflexivity | assumption].
Qed.

Lemma agree_bind {A B} (c : M A) (k : A -> M B) :
  agree c -> (forall a, agree (k a)) -> agree (bind c k).
Proof. intros Hc Hk s1 s2 E. apply agree_at_bind; [apply Hc, E | exact Hk]. Qed.

Lemma agree_when b c : agree c -> agree (when b c).
Proof. intros H. destruct b; [exact H | apply agree_ret]. Qed.

Lemma agree_for_each {A} (l : list A) body :
  (forall x, agree (body x)) -> agree (for_each l body).
Proof.
  intros H. induction l as [|x l IH]; cbn [for_each].
  - apply agree_ret.
  - apply agree_bind; [apply H | intros _; exact IH].
Qed.

(** The fields of two states that agree up to the log. *)
Ltac eqv_fields E :=
  unfold eqv in E;
  match goal with
  | s1 : state, s2 : state |- _ =>
      destruct s1, s2; cbn in E; injection E as ? ? ? ? ? ? ? ? ? ?; subst
  end.

Ltac agree_step :=
  first
    [ assumption
    | simple apply agree_ret
    | simple apply agree_raise
    | simple apply agree_lift
    | simple apply agree_bind; [| intros ?]
    | simple apply agree_when
    | simple apply agree_for_each; intros ?
    | simple apply agree_gets;
      let E := fresh "E" in
      intros ? ? E; eqv_fields E; reflexivity
    | simple apply agree_modify;
      let E := fresh "E" in
      intros ? ? E; eqv_fields E; reflexivity
    | match goal with
      | |- agree (match ?x with _ => _ end) => destruct x
      end ].

Ltac agree_auto := intros; autounfold with control; cbv zeta; repeat agree_step.

Lemma stage_entry_agree w name : agree (stage_entry w name).
Proof. agree_auto. Qed.

(** The same, for two states that may differ in the staging root. *)
Ltac eqv_dir_fields E :=
  destruct E as ((? & ? & ? & ?) & (? & ? & ? & ?) & E);
  match goal with
  | s1 : state, s2 : state |- _ =>
      destruct s1, s2; cbn in *; injection E as ? ? ? ? ? ? ? ? ?; subst
  end.

Lemma akamai_eqv_dir s1 s2 : eqv_dir s1 s2 -> agree_at akamai s1 s2.
Proof.
  intros E. eqv_dir_fields E. unfold agree_at, eqv.
  repeat match goal with
         | r : root |- _ => destruct r; try contradiction
         end; split; reflexivity.
Qed.

Lemma audio_eqv_dir s1 s2 : eqv_dir s1 s2 -> agree_at audio s1 s2.
Proof.
  intros E.
  assert (H1 : audio s1 = (let! a := akamai in
                           mkdir_parents (joinpath a (u "audio")) ;;
                           modify (set_audio_cached true) ;;
                           ret (joinpath a (u "audio"))) s1).
  { destruct E as ((_ & H & _) & _). unfold audio, bind at 1, gets. rewrite H.
    reflexivity. }
  assert (H2 : audio s2 = (let! a := akamai in
                           mkdir_parents (joinpath a (u "audio")) ;;
                           modify (set_audio_cached true) ;;
                           ret (joinpath a (u "audio"))) s2).
  { destruct E as (_ & (_ & H & _) & _). unfold audio, bind at 1, gets. rewrite H.
    reflexivity. }
  unfold agree_at. rewrite H1, H2.
  apply agree_at_bind; [apply akamai_eqv_dir, E | agree_auto].
Qed.

Lemma images_eqv_dir s1 s2 : eqv_dir s1 s2 -> agree_at images s1 s2.
Proof.
  intros E.
  assert (H1 : images s1 = (let! a := akamai in
                            mkdir_parents (joinpath a (u "images")) ;;
                            modify (set_images_cached true) ;;
                            ret (joinpath a (u "images"))) s1).
  { destruct E as ((_ & _ & H & _) & _). unfold images, bind at 1, gets. rewrite H.
    reflexivity. }
  assert (H2 : images s2 = (let! a := akamai in
                            mkdir_parents (joinpath a (u "images")) ;;
                            modify (set_images_cached true) ;;
                            ret (joinpath a (u "images"))) s2).
  { destruct E as (_ & (_ & _ & H & _) & _). unfold images, bind at 1, gets.
    rewrite H. reflexivity. }
  unfold agree_at. rewrite H1, H2.
  apply agree_at_bind; [apply akamai_eqv_dir, E | agree_auto].
Qed.

Lemma record_call_eqv_dir c s1 s2 :
  eqv_dir s1 s2 ->
  eqv_dir (set_calls (calls s1 ++ [c]) s1) (set_calls (calls s2 ++ [c]) s2).
Proof.
  intros E. eqv_dir_fields E. unfold eqv_dir, uncached. cbn. auto 10.
Qed.

Lemma set_ticks_eqv_dir t s1 s2 :
  eqv_dir s1 s2 -> eqv_dir (set_ticks t s1) (set_ticks t s2).
Proof.
  intros E. eqv_dir_fields E. unfold eqv_dir, uncached. cbn. auto 10.
Qed.

Lemma eqv_dir_ticks s1 s2 : eqv_dir s1 s2 -> ticks s1 = ticks s2.
Proof. intros E. eqv_dir_fields E. reflexivity. Qed.

Lemma eqv_ticks s1 s2 : eqv s1 s2 -> ticks s1 = ticks s2.
Proof. intros E. eqv_fields E. reflexivity. Qed.

Lemma set_ticks_eqv t s1 s2 : eqv s1 s2 -> eqv (set_ticks t s1) (set_ticks t s2).
Proof. intros E. eqv_fields E. reflexivity. Qed.

Lemma stage_audio_eqv_dir w doc_id path s1 s2 :
  eqv_dir s1 s2 -> agree_at (stage_audio w doc_id path) s1 s2.
Proof.
  intros E. unfold stage_audio.
  apply agree_at_bind; [apply audio_eqv_dir, E | agree_auto].
Qed.

Lemma Image_open_eq w path s :
  Image_open w path s =
    (match image_open w path with
     | Returns (mode, width, height) => Returns (Decoded path mode width height)
     | Raises e => Raises e
     end,
     set_calls (calls s ++ [CallOpen path]) s).
Proof.
  unfold Image_open, record_call, bind, modify.
  destruct (image_open w path) as [[[mode W] H]|e]; reflexivity.
Qed.

Lemma prepare_pure w im :
  exists o, forall s,
    (if str_eqb (im_mode im) (u "P") then convert w im (u "RGB") else ret im) s = (o, s).
Proof.
  unfold convert. destruct (str_eqb _ _); [| eexists; reflexivity].
  destruct (convert_error w im (u "RGB")); eexists; reflexivity.
Qed.

Lemma stage_image_eqv_dir w doc_id path s1 s2 :
  eqv_dir s1 s2 ->
  fst (stage_image w doc_id path s1) = fst (stage_image w doc_id path s2)
  /\ alike (snd (stage_image w doc_id path s1)) (snd (stage_image w doc_id path s2))
  /\ (forall a, fst (stage_image w doc_id path s1) = Returns a ->
                eqv (snd (stage_image w doc_id path s1))
                    (snd (stage_image w doc_id path s2))).
Proof.
  intros E. unfold stage_image.
  pose proof (record_call_eqv_dir (CallOpen path) s1 s2 E) as E'.
  pose proof (Image_open_eq w path s1) as O1.
  pose proof (Image_open_eq w path s2) as O2.
  destruct (image_open w path) as [[[mode W] H]|e].
  - rewrite (bind_returns _ _ _ _ _ O1), (bind_returns _ _ _ _ _ O2).
    destruct (prepare_pure w (Decoded path mode W H)) as [[im|e] Hp].
    + rewrite (bind_returns _ _ _ _ _ (Hp _)), (bind_returns _ _ _ _ _ (Hp _)).
      match goal with
      | |- fst (?c _) = _ /\ _ =>
          assert (Ha : agree_at c (set_calls (calls s1 ++ [CallOpen path]) s1)
                                  (set_calls (calls s2 ++ [CallOpen path]) s2))
      end.
      { apply agree_at_bind; [apply images_eqv_dir, E' | agree_auto]. }
      destruct Ha as [Ho Es]. split; [exact Ho|]. split; [left; exact Es|].
      intros _ _. exact Es.
    + rewrite (bind_raises _ _ _ _ _ (Hp _)), (bind_raises _ _ _ _ _ (Hp _)).
      cbn [fst snd]. split; [reflexivity|]. split; [right; exact E' | discriminate].
  - rewrite (bind_raises _ _ _ _ _ O1), (bind_raises _ _ _ _ _ O2). cbn [fst snd].
    split; [reflexivity|]. split; [right; exact E' | discriminate].
Qed.

Lemma stage_entry_alike w name s1 s2 :
  alike s1 s2 ->
  fst (stage_entry w name s1) = fst (stage_entry w name s2)
  /\ alike (snd (stage_entry w name s1)) (snd (stage_entry w name s2))
  /\ (fst (stage_entry w name s1) = Returns tt ->
      eqv (snd (stage_entry w name s1)) (snd (stage_entry w name s2))).
Proof.
  intros [E|E].
  - destruct (stage_entry_agree w name s1 s2 E) as [Ho Es].
    split; [exact Ho|]. split; [left; exact Es | intros _; exact Es].
  - destruct (int (stem name)) as [doc_id|] eqn:Hid.
    2:{ rewrite !(stage_entry_bad_stem w name _ Hid). cbn [fst snd].
        split; [reflexivity|]. split; [right; exact E | discriminate]. }
    rewrite !(stage_entry_parsed w name doc_id _ Hid).
    assert (Hc : forall a : unit, agree (count_entry w)) by (intros _; agree_auto).
    destruct (str_eqb (suffix name) (u ".mp3")).
    + destruct (agree_at_bind _ _ s1 s2
                  (stage_audio_eqv_dir w doc_id (joinpath blobs name) s1 s2 E) Hc)
        as [Ho Es].
      split; [exact Ho|]. split; [left; exact Es | intros _; exact Es].
    + destruct (stage_image_eqv_dir w doc_id (joinpath blobs name) s1 s2 E)
        as (Ho & Ea & Es).
      unfold bind.
      destruct (stage_image w doc_id (joinpath blobs name) s1) as [[[]|e1] t1],
               (stage_image w doc_id (joinpath blobs name) s2) as [[[]|e2] t2];
        cbn [fst snd] in *; try discriminate Ho.
      * destruct (Hc tt t1 t2 (Es tt eq_refl)) as [Ho' Es'].
        split; [exact Ho'|]. split; [left; exact Es' | intros _; exact Es'].
      * split; [exact Ho|]. split; [exact Ea | discriminate].
Qed.

Lemma for_each_alike w names s1 s2 :
  alike s1 s2 ->
  fst (for_each names (stage_entry w) s1) = fst (for_each names (stage_entry w) s2)
  /\ (names <> [] -> fst (for_each names (stage_entry w) s1) = Returns tt ->
      eqv (snd (for_each names (stage_entry w) s1))
          (snd (for_each names (stage_entry w) s2))).
Proof.
  revert s1 s2. induction names as [|name names IH]; intros s1 s2 E.
  - split; [reflexivity | intros H; contradiction].
  - cbn [for_each]. unfold bind.
    destruct (stage_entry_alike w name s1 s2 E) as (Ho & Ea & Es).
    destruct (stage_entry w name s1) as [[[]|e1] t1],
             (stage_entry w name s2) as [[[]|e2] t2];
      cbn [fst snd] in *; try discriminate Ho.
    + specialize (Es eq_refl).
      destruct (agree_for_each names (stage_entry w) (stage_entry_agree w) t1 t2 Es)
        as [Ho' Es'].
      split; [exact Ho' | intros _ _; exact Es'].
    + split; [exact Ho | intros _ H; discriminate H].
Qed.

#[local] Instance stays_directory_refl : Reflexive stays_directory.
Proof. intros s H. exact H. Qed.

#[local] Instance stays_directory_trans : Transitive stays_directory.
Proof. intros s1 s2 s3 H1 H2 H. apply H2, H1, H. Qed.

Lemma stage_stays_directory w : maintains stays_directory (stage w).
Proof.
  maintains_auto; apply maintains_modify; intros s H;
    first [exact H | discriminate].
Qed.

Lemma alike_ticks s1 s2 : alike s1 s2 -> ticks s1 = ticks s2.
Proof. intros [E|E]; [apply eqv_ticks | apply eqv_dir_ticks]; exact E. Qed.

Lemma set_ticks_alike t s1 s2 :
  alike s1 s2 -> alike (set_ticks t s1) (set_ticks t s2).
Proof.
  intros [E|E]; [left; apply set_ticks_eqv | right; apply set_ticks_eqv_dir]; exact E.
Qed.

Lemma stage_alike w s1 s2 s1' :
  glob_blobs w <> [] -> alike s1 s2 ->
  stage w s1 = (Returns tt, s1') ->
  exists s2', stage w s2 = (Returns tt, s2') /\ eqv s1' s2'.
Proof.
  intros Hg E. rewrite (stage_from_now w s1), (stage_from_now w s2).
  rewrite <- (alike_ticks s1 s2 E).
  apply (set_ticks_alike (S (ticks s1))) in E.
  revert E. generalize (set_ticks (S (ticks s1)) s1), (set_ticks (S (ticks s1)) s2).
  generalize (datetime_now w (ticks s1)). intros start t1 t2 E Hs.
  apply bind_inv_returns in Hs as ([] & t1' & Hf & Hr).
  destruct (for_each_alike w (glob_blobs w) t1 t2 E) as [Ho Es].
  rewrite Hf in Ho, Es. cbn [fst snd] in Ho, Es. specialize (Es Hg eq_refl).
  destruct (for_each (glob_blobs w) (stage_entry w) t2) as [[[]|e] t2'] eqn:Hf2;
    cbn [fst snd] in *; [| discriminate Ho].
  rewrite (bind_returns _ _ _ _ _ Hf2).
  match type of Hr with
  | ?c t1' = _ => assert (Ha : agree c) by agree_auto
  end.
  destruct (Ha t1' t2' Es) as [Ho' Es']. rewrite Hr in Ho', Es'.
  cbn [fst snd] in Ho', Es'.
  match goal with
  | |- exists s2', ?c t2' = _ /\ _ => destruct (c t2') as [o2 s2']
  end.
  cbn [fst snd] in *. subst o2. exists s2'. split; [reflexivity | exact Es'].
Qed.

Lemma fresh_alike r1 r2 env l1 l2 :
  r1 <> NotDirectory -> r2 <> NotDirectory ->
  alike (fresh r1 env l1) (fresh r2 env l2).
Proof.
  intros H1 H2. right. unfold eqv_dir, uncached. cbn. auto 10.
Qed.

Lemma eqv_akamai_dir s1 s2 : eqv s1 s2 -> akamai_dir s1 = akamai_dir s2.
Proof. intros E. eqv_fields E. reflexivity. Qed.

Lemma first_audio s :
  uncached s -> akamai_dir (snd (audio s)) = Tree {[ u "../akamai/audio" := Directory ]}.
Proof.
  intros (H1 & H2 & H3 & H4). destruct s. cbn in *. subst.
  destruct akamai_dir0; [reflexivity | contradiction | reflexivity].
Qed.

Lemma first_images s :
  uncached s -> akamai_dir (snd (images s)) = Tree {[ u "../akamai/images" := Directory ]}.
Proof.
  intros (H1 & H2 & H3 & H4). destruct s. cbn in *. subst.
  destruct akamai_dir0; [reflexivity | contradiction | reflexivity].
Qed.

(** C6, as stated, fails: with an empty source directory staging touches
    neither the root nor its subdirectories, so a file staged by an earlier
    run survives and [images] is not created. *)
Lemma staging_root_counterexample :
  fst (stage world_without_key (fresh stale_root ∅ [])) = Returns tt
  /\ akamai_dir (snd (stage world_without_key (fresh stale_root ∅ []))) = stale_root
  /\ entries_of stale_root !! u "../akamai/audio/9.mp3"
     = Some (HardLink (u "../blobs/9.mp3"))
  /\ entries_of stale_root !! u "../akamai/images" = None.
Proof. vm_compute. repeat split; reflexivity. Qed.

(** C6, amended. The staging root is cleared lazily. With an empty source
    directory staging leaves the root as it was. The first directory property
    that staging needs deletes the root if it exists and creates that one
    subdirectory only: [audio] for an audio entry, [images] for an image. A
    staging of a non-empty directory that completes therefore leaves a root
    that does not depend on what was there before: it is the same from any two
    prior states of the root, and in particular running it again on its own
    result gives the same root. *)
Theorem staging_root (w : world) :
  (glob_blobs w = [] -> forall s, akamai_dir (snd (stage w s)) = akamai_dir s)
  /\ (forall s, uncached s ->
        akamai_dir (snd (audio s)) = Tree {[ u "../akamai/audio" := Directory ]} /\
        akamai_dir (snd (images s)) = Tree {[ u "../akamai/images" := Directory ]})
  /\ (glob_blobs w <> [] ->
      forall r1 r2 env l1 l2 s1,
        r1 <> NotDirectory -> r2 <> NotDirectory ->
        stage w (fresh r1 env l1) = (Returns tt, s1) ->
        exists s2, stage w (fresh r2 env l2) = (Returns tt, s2) /\
                   akamai_dir s2 = akamai_dir s1)
  /\ (glob_blobs w <> [] ->
      forall r env l s1,
        r <> NotDirectory ->
        stage w (fresh r env l) = (Returns tt, s1) ->
        exists s2, stage w (fresh (akamai_dir s1) env (log s1)) = (Returns tt, s2) /\
                   akamai_dir s2 = akamai_dir s1).
Proof.
  assert (Hi : glob_blobs w <> [] ->
               forall r1 r2 env l1 l2 s1,
                 r1 <> NotDirectory -> r2 <> NotDirectory ->
                 stage w (fresh r1 env l1) = (Returns tt, s1) ->
                 exists s2, stage w (fresh r2 env l2) = (Returns tt, s2) /\
                            akamai_dir s2 = akamai_dir s1).
  { intros Hg r1 r2 env l1 l2 s1 H1 H2 Hs.
    destruct (stage_alike w _ _ s1 Hg (fresh_alike r1 r2 env l1 l2 H1 H2) Hs)
      as (s2 & Hs2 & E).
    exists s2. split; [exact Hs2 | symmetry; apply eqv_akamai_dir, E]. }
  split; [| split; [| split; [exact Hi|]]].
  - intros Hg s. unfold stage. rewrite Hg. cbn [for_each].
    match goal with
    | |- akamai_dir (snd (?c s)) = _ =>
        assert (H : preserves akamai_dir c) by frame_auto; apply H
    end.
  - intros s Hu. split; [apply first_audio | apply first_images]; exact Hu.
  - intros Hg r env l s1 Hr Hs.
    apply (Hi Hg r (akamai_dir s1) env l (log s1) s1 Hr); [| exact Hs].
    pose proof (stage_stays_directory w (fresh r env l)) as Hd.
    rewrite Hs in Hd. apply Hd, Hr.
Qed.

Lemma staging_root_witness :
  exists s2,
    stage world_with_secret
      (fresh (akamai_dir (snd (stage world_with_secret (fresh stale_root ∅ [])))) ∅
             (log (snd (stage world_with_secret (fresh stale_root ∅ [])))))
    = (Returns tt, s2)
    /\ akamai_dir s2 = akamai_dir (snd (stage world_with_secret (fresh stale_root ∅ []))).
Proof.
  assert (Hg : glob_blobs world_with_secret <> []) by discriminate.
  assert (Hr : stale_root <> NotDirectory) by discriminate.
  assert (Hs : stage world_with_secret (fresh stale_root ∅ [])
               = (Returns tt, snd (stage world_with_secret (fresh stale_root ∅ []))))
    by (vm_compute; reflexivity).
  exact (proj2 (proj2 (proj2 (staging_root world_with_secret)))
           Hg stale_root ∅ [] _ Hr Hs).
Defined.

(** * Loading the key and transferring *)

Lemma forallb_rev {A} (f : A -> bool) (l : list A) : forallb f (rev l) = forallb f l.
Proof.
  induction l as [|x l IH]; [reflexivity|].
  cbn [rev forallb]. rewrite forallb_app, IH. cbn [forallb].
  rewrite andb_true_r. apply andb_comm.
Qed.

Lemma lstrip_nil s : lstrip s = [] <-> blank s = true.
Proof.
  unfold blank. induction s as [|c s IH]; cbn [lstrip forallb]; [tauto|].
  destruct (isspace c); cbn [andb]; [exact IH | split; discriminate].
Qed.

Lemma lstrip_blank s : blank (lstrip s) = true -> blank s = true.
Proof.
  unfold blank. induction s as [|c s IH]; cbn [lstrip]; [auto|].
  destruct (isspace c) eqn:E; cbn [forallb]; rewrite E; [exact IH | auto].
Qed.

Lemma strip_nil s : strip s = [] <-> blank s = true.
Proof.
  unfold strip. split.
  - intros H. apply lstrip_blank.
    assert (H1 : lstrip (rev (lstrip s)) = []).
    { destruct (lstrip (rev (lstrip s))) as [|c l]; [reflexivity|].
      cbn [rev] in H. destruct (rev l); discriminate H. }
    apply lstrip_nil in H1. unfold blank in *. rewrite forallb_rev in H1. exact H1.
  - intros H. apply lstrip_nil in H. rewrite H. reflexivity.
Qed.

Lemma strip_blank s : blank (strip s) = true <-> blank s = true.
Proof.
  split.
  - intros H. apply lstrip_blank. unfold strip, blank in H.
    rewrite forallb_rev in H. apply lstrip_blank in H.
    unfold blank in *. rewrite forallb_rev in H. exact H.
  - intros H. apply strip_nil in H. rewrite H. reflexivity.
Qed.

(** The logged output is empty exactly when both streams are blank. *)
Lemma ssh_add_output_nil p :
  ssh_add_output p = [] <-> blank (stdout p) && blank (stderr p) = true.
Proof.
  unfold ssh_add_output. rewrite strip_nil. unfold blank at 1.
  rewrite forallb_app. cbn [app forallb].
  change (isspace 10) with true. cbn [andb].
  fold (blank (strip (stdout p))) (blank (strip (stderr p))).
  rewrite !andb_true_iff, !strip_blank. tauto.
Qed.

Lemma run_process_unchecked w args input s p :
  subprocess w args input (environ s) = Returns p ->
  run_process w args input false s = (Returns p, after_command args s).
Proof.
  intros H. unfold run_process, bind, modify, gets, lift. cbn [environ set_invoked].
  rewrite H. reflexivity.
Qed.

Lemma key_data_returns w s key :
  fst (key_data w s) = Returns key -> key_data w s = (Returns key, s).
Proof.
  intros H. rewrite <- (key_data_state w s) at 2. rewrite <- H.
  destruct (key_data w s); reflexivity.
Qed.

(** X1. When [ssh-add] exits with a status other than zero, loading the key
    logs the error record with the trimmed output of the command and raises
    the [RuntimeError] of the failure; nothing else changes. *)
Theorem rejected_key (w : world) (s : state) (key : value) (p : completed) :
  fst (key_data w s) = Returns key ->
  subprocess w ssh_add_command key (environ s) = Returns p ->
  returncode p <> 0 ->
  log_file_error w = None ->
  add_key_to_agent w s =
    (Raises add_failed,
     logged (ErrorAddingKey (ssh_add_output p)) (after_command ssh_add_command s)).
Proof.
  intros Hk Hp Hr Hl. unfold add_key_to_agent.
  rewrite (bind_returns _ _ _ _ _ (key_data_returns w s key Hk)).
  rewrite (bind_returns _ _ _ _ _ (run_process_unchecked w _ _ s p Hp)).
  apply Z.eqb_neq in Hr. rewrite Hr. cbn [negb].
  unfold logger, get_logger, log_append. rewrite Hl.
  reflexivity.
Qed.

Lemma rejected_key_witness :
  add_key_to_agent world_rejected_key (fresh Absent ∅ []) =
    (Raises add_failed,
     logged (ErrorAddingKey (u "Error loading key"))
       (after_command ssh_add_command (fresh Absent ∅ []))).
Proof.
  assert (Hr : 1 <> 0) by discriminate.
  exact (rejected_key world_rejected_key (fresh Absent ∅ [])
           (VStr (u "-----BEGIN KEY-----"))
           {| returncode := 1; stdout := []; stderr := u "Error loading key" ++ [10%N] |}
           eq_refl eq_refl Hr eq_refl).
Defined.

(** X2. When [ssh-add] exits with zero, loading the key returns normally; it
    logs the trimmed output of the command at info level unless both of its
    streams are blank, in which case it logs nothing and does not even open
    the log. *)
Theorem accepted_key (w : world) (s : state) (key : value) (p : completed) :
  fst (key_data w s) = Returns key ->
  subprocess w ssh_add_command key (environ s) = Returns p ->
  returncode p = 0 ->
  (blank (stdout p) && blank (stderr p) = true ->
   add_key_to_agent w s = (Returns tt, after_command ssh_add_command s))
  /\ (blank (stdout p) && blank (stderr p) = false ->
      log_file_error w = None ->
      ssh_add_output p <> [] /\
      add_key_to_agent w s =
        (Returns tt,
         logged (InfoSshAdd (ssh_add_output p)) (after_command ssh_add_command s))).
Proof.
  intros Hk Hp Hr.
  assert (E : add_key_to_agent w s =
              (match ssh_add_output p with
               | [] => ret tt
               | _ => logger w (InfoSshAdd (ssh_add_output p))
               end) (after_command ssh_add_command s)).
  { unfold add_key_to_agent.
    rewrite (bind_returns _ _ _ _ _ (key_data_returns w s key Hk)).
    rewrite (bind_returns _ _ _ _ _ (run_process_unchecked w _ _ s p Hp)).
    rewrite Hr. reflexivity. }
  split.
  - intros Hb. apply ssh_add_output_nil in Hb. rewrite E, Hb. reflexivity.
  - intros Hb Hl.
    assert (Hn : ssh_add_output p <> []).
    { intros Hn. apply ssh_add_output_nil in Hn. congruence. }
    split; [exact Hn|]. rewrite E.
    destruct (ssh_add_output p) as [|c l]; [contradiction|].
    unfold logger, get_logger, log_append. rewrite Hl. reflexivity.
Qed.

Lemma accepted_key_witness :
  add_key_to_agent world_failed_transfer (fresh Absent ∅ []) =
    (Returns tt,
     logged (InfoSshAdd (u "Identity added"))
       (after_command ssh_add_command (fresh Absent ∅ []))).
Proof.
  exact (proj2 (proj2 (accepted_key world_failed_transfer (fresh Absent ∅ [])
                         (VStr (u "-----BEGIN KEY-----"))
                         {| returncode := 0; stdout := u "Identity added" ++ [10%N];
                            stderr := [] |}
                         eq_refl eq_refl eq_refl) eq_refl eq_refl)).
Defined.

(** ** The commands of a run *)

#[local] Instance before_transfer_refl : Reflexive before_transfer.
Proof. intros s. split; reflexivity. Qed.

#[local] Instance before_transfer_trans : Transitive before_transfer.
Proof.
  intros s1 s2 s3 [H1 A1] [H2 A2]. split; [congruence | etransitivity; eassumption].
Qed.

Lemma maintains_and (R1 R2 : relation state) {A} (c : M A) :
  maintains R1 c -> maintains R2 c -> maintains (fun s s' => R1 s s' /\ R2 s s') c.
Proof. intros H1 H2 s. split; [apply H1 | apply H2]. Qed.

Lemma wp_with (R : relation state) {A} (c : M A) (Q : outcome A -> state -> Prop) s :
  maintains R c -> wp c Q s -> wp c (fun r s1 => R s s1 /\ Q r s1) s.
Proof. intros H1 H2. split; [apply H1 | exact H2]. Qed.

(** Proves that a computation invokes nothing and logs no completed
    transfer. *)
Ltac before_transfer_auto :=
  apply (maintains_and (same invoked) (appends log not_synced));
  [frame_auto | maintains_auto; appends_modify].

Lemma add_key_invoked w s :
  wp (add_key_to_agent w)
     (fun r s1 =>
        (invoked s1 = invoked s \/ invoked s1 = invoked s ++ [ssh_add_command])
        /\ (r = Returns tt ->
            invoked s1 = invoked s ++ [ssh_add_command] /\
            exists key env p,
              subprocess w ssh_add_command key env = Returns p /\ returncode p = 0)) s.
Proof.
  unfold add_key_to_agent. apply wp_bind. unfold wp at 1.
  destruct (key_data w s) as [[key|e] s0] eqn:Hk; cbn [fst snd]; cbv beta iota.
  2:{ pose proof (key_data_state w s) as Hs. rewrite Hk in Hs. cbn [snd] in Hs.
      subst s0. split; [left; reflexivity | discriminate]. }
  pose proof (key_data_state w s) as Hs. rewrite Hk in Hs. cbn [snd] in Hs. subst s0.
  unfold run_process. do 5 wp_step. state_simpl.
  destruct (subprocess w _ key (environ s)) as [p|e] eqn:Hp; cbv beta iota.
  2:{ split; [right; reflexivity | discriminate]. }
  cbn [andb]. wp_step. apply wp_bind.
  destruct (returncode p =? 0) eqn:Hr; cbn [negb].
  - wp_step.
    apply (wp_preserved invoked).
    { destruct (strip _); frame_auto. }
    intros r s1 Hi. state_simpl. rewrite Hi. state_simpl.
    split; [right; reflexivity|]. intros _. split; [reflexivity|].
    exists key, (environ s), p. split; [exact Hp | apply Z.eqb_eq, Hr].
  - apply wp_bind. apply (wp_preserved invoked); [frame_auto|].
    intros [[]|e] s1 Hi; cbv beta iota.
    + wp_step. rewrite Hi. state_simpl. split; [right; reflexivity | discriminate].
    + rewrite Hi. state_simpl. split; [right; reflexivity | discriminate].
Qed.

Lemma start_ssh_agent_log w : maintains (appends log not_synced) (start_ssh_agent w).
Proof. maintains_auto; appends_modify. Qed.

Lemma add_key_log w : maintains (appends log not_synced) (add_key_to_agent w).
Proof. maintains_auto; appends_modify. Qed.

(** The facts of a run that stopped before the transfer, having invoked
    the first [n] commands. *)
Lemma run_facts_early w s (n : nat) r sx :
  (n <= 2)%nat ->
  invoked sx = invoked s ++ take n (sync_commands plain_options) ->
  (forall u0, r <> Returns u0) ->
  appends log not_synced s sx ->
  run_facts w s r sx.
Proof.
  intros Hn Hx Hr Hl. exists n, plain_options.
  split; [exact Hx|].
  split; [intros ->; exfalso; apply (Hr tt); reflexivity|].
  split; [intros; lia|]. split; [intros _; exact Hl | intros; lia].
Qed.

Lemma sync_facts w s : wp (sync w) (run_facts w s) s.
Proof.
  unfold sync.
  assert (Hinv : before_transfer s s) by reflexivity.
  revert Hinv. generalize s at 2 4 as s1. intros s1 Hinv.
  assert (Stop0 : forall r sx, before_transfer s sx -> (forall u0, r <> Returns u0) ->
                               run_facts w s r sx).
  { intros r sx [Hx Hl] Hr. apply (run_facts_early w s 0 r sx); try assumption; [lia|].
    rewrite Hx. cbn [take]. symmetry. apply app_nil_r. }
  do 6 (rel_step before_transfer Hinv ltac:(before_transfer_auto);
        [| apply Stop0; [exact Hinv | discriminate]]).
  destruct Hinv as [Hinv Hlog].
  apply wp_bind. eapply wp_mono;
    [apply (wp_with (appends log not_synced));
     [apply start_ssh_agent_log | apply start_ssh_agent_view] |].
  intros ra sa (La & Hi & _).
  assert (Hla := transitivity Hlog La). clear Hlog La.
  destruct ra as [[]|e]; cbv beta iota.
  2:{ apply (run_facts_early w s 1 _ sa); [lia | | discriminate | exact Hla].
      rewrite Hi, Hinv. reflexivity. }
  apply wp_bind. eapply wp_mono;
    [apply (wp_with (appends log not_synced));
     [apply add_key_log | apply add_key_invoked] |].
  intros rb sb (Lb & Hb & Hok).
  assert (Hlb := transitivity Hla Lb). clear Hla Lb.
  destruct rb as [[]|e]; cbv beta iota.
  2:{ destruct Hb as [Hb|Hb].
      - apply (run_facts_early w s 1 _ sb); [lia | | discriminate | exact Hlb].
        rewrite Hb, Hi, Hinv. reflexivity.
      - apply (run_facts_early w s 2 _ sb); [lia | | discriminate | exact Hlb].
        rewrite Hb, Hi, Hinv, <- app_assoc. reflexivity. }
  destruct (Hok eq_refl) as (Hb' & Hkey). clear Hb Hok.
  apply wp_bind. unfold opts. wp_step.
  destruct (parse_args w) as [o|e] eqn:Ho; cbv beta iota.
  2:{ apply (run_facts_early w s 2 _ sb); [lia | | discriminate | exact Hlb].
      rewrite Hb', Hi, Hinv, <- app_assoc. reflexivity. }
  assert (Hall : forall sx, invoked sx = invoked sb ++ [rsync o] ->
                 invoked sx = invoked s ++ take 3 (sync_commands o)).
  { intros sx Hx. rewrite Hx, Hb', Hi, Hinv, <- !app_assoc. reflexivity. }
  unfold run_process. do 5 wp_step. state_simpl.
  destruct (subprocess w (rsync o) VNone (environ sb)) as [p|e] eqn:Hp; do 2 wp_step.
  2:{ exists 3%nat, o. split; [apply Hall; reflexivity|].
      split; [intros _; reflexivity|]. split; [intros _; split; [exact Ho | exact Hkey]|].
      split; [intros; lia|]. intros _. exists (environ sb). rewrite Hp.
      split; [reflexivity | exact Hlb]. }
  cbn [andb]. destruct (returncode p =? 0) eqn:Hr; cbn [negb]; wp_step.
  2:{ exists 3%nat, o. split; [apply Hall; reflexivity|].
      split; [intros _; reflexivity|]. split; [intros _; split; [exact Ho | exact Hkey]|].
      split; [intros; lia|]. intros _. exists (environ sb). rewrite Hp.
      intros _. split; [reflexivity | exact Hlb]. }
  apply (wp_preserved invoked); [frame_auto|].
  intros r sx Hx. exists 3%nat, o. split; [apply Hall; rewrite Hx; reflexivity|].
  split; [intros _; reflexivity|]. split; [intros _; split; [exact Ho | exact Hkey]|].
  split; [intros; lia|]. intros _. exists (environ sb). rewrite Hp.
  apply Z.eqb_eq in Hr. intros Hne. contradiction.
Qed.

Lemma run_facts_from w s s0 r s1 :
  before_transfer s s0 -> run_facts w s0 r s1 -> run_facts w s r s1.
Proof.
  intros [E L] (n & o & H1 & H2 & H3 & H4 & H5). exists n, o. rewrite <- E.
  split; [exact H1|]. split; [exact H2|]. split; [exact H3|].
  split; [intros Hn; etransitivity; [exact L | apply H4, Hn]|].
  intros Hn. destruct (H5 Hn) as (env & H). exists env.
  destruct (subprocess w (rsync o) VNone env) as [p|e].
  - intros Hp. destruct (H Hp) as [Hr Ha]. split; [exact Hr|].
    etransitivity; eassumption.
  - destruct H as [Hr Ha]. split; [exact Hr | etransitivity; eassumption].
Qed.

Lemma run_facts_later w s r s1 s2 :
  before_transfer s1 s2 -> run_facts w s r s1 -> run_facts w s r s2.
Proof.
  intros [E L] (n & o & H1 & H2 & H3 & H4 & H5). exists n, o. rewrite E.
  split; [exact H1|]. split; [exact H2|]. split; [exact H3|].
  split; [intros Hn; etransitivity; [apply H4, Hn | exact L]|].
  intros Hn. destruct (H5 Hn) as (env & H). exists env.
  destruct (subprocess w (rsync o) VNone env) as [p|e].
  - intros Hp. destruct (H Hp) as [Hr Ha]. split; [exact Hr|].
    etransitivity; eassumption.
  - destruct H as [Hr Ha]. split; [exact Hr | etransitivity; eassumption].
Qed.

Lemma run_facts_returned w s r s1 s2 :
  invoked s2 = invoked s1 -> run_facts w s (Returns tt) s1 -> run_facts w s r s2.
Proof.
  intros E (n & o & H1 & H2 & H3 & H4 & H5). exists n, o. rewrite E.
  pose proof (H2 eq_refl) as ->.
  split; [exact H1|]. split; [reflexivity|]. split; [exact H3|].
  split; [intros; lia|].
  intros Hn. destruct (H5 Hn) as (env & H). exists env.
  destruct (subprocess w (rsync o) VNone env) as [p|e].
  - intros Hp. destruct (H Hp) as [Hr _]. discriminate Hr.
  - destruct H as [Hr _]. discriminate Hr.
Qed.

Lemma stage_before_transfer w : maintains before_transfer (stage w).
Proof. before_transfer_auto. Qed.

Lemma run_run_facts w s : wp (run w) (run_facts w s) s.
Proof.
  unfold run.
  assert (Hinv : before_transfer s s) by reflexivity.
  revert Hinv. generalize s at 2 4 as s1. intros s1 Hinv.
  assert (Stop0 : forall r sx, before_transfer s sx -> (forall u0, r <> Returns u0) ->
                               run_facts w s r sx).
  { intros r sx [Hx Hl] Hr. apply (run_facts_early w s 0 r sx); try assumption; [lia|].
    rewrite Hx. cbn [take]. symmetry. apply app_nil_r. }
  do 3 (rel_step before_transfer Hinv
          ltac:(first [apply stage_before_transfer
                      | destruct (negb _); first [apply stage_before_transfer
                                                 | apply maintains_ret; typeclasses eauto]
                      | before_transfer_auto]);
        [| apply Stop0; [exact Hinv | discriminate]]).
  apply wp_bind. eapply wp_mono; [apply sync_facts|].
  intros [[]|e] sb Hs; cbv beta iota.
  2:{ apply (run_facts_from w s _ _ _ Hinv), Hs. }
  apply (run_facts_from w s _ _ _ Hinv) in Hs.
  apply wp_bind. apply (wp_preserved invoked); [frame_auto|].
  intros [st|e] sc Hc; cbv beta iota.
  2:{ apply (run_facts_returned w s _ sb sc Hc Hs). }
  apply (wp_preserved invoked).
  { unfold preserves. repeat maintains_step. frame_auto. }
  intros r sd Hd.
  apply (run_facts_returned w s _ sb sd); [congruence | exact Hs].
Qed.

Lemma main_before_transfer w s : before_transfer (snd (run w s)) (snd (main w s)).
Proof.
  unfold main. destruct (run w s) as [[[]|e] s1]; cbn [snd]; [reflexivity|].
  destruct (is_Exception e); [| reflexivity].
  assert (H : maintains before_transfer
                (logger w (ExceptionSyncFailed e) ;;
                 let! v := get_verbose w in when v (stderr_write (MsgSyncFailed e))))
    by before_transfer_auto.
  specialize (H s1).
  destruct (bind _ _ s1) as [[[]|e'] s2]; exact H.
Qed.

Lemma main_run_facts w s : run_facts w s (fst (run w s)) (snd (main w s)).
Proof.
  apply (run_facts_later w s _ (snd (run w s))); [apply main_before_transfer|].
  apply run_run_facts.
Qed.

Lemma appends_no_synced s s' :
  appends log not_synced s s' -> existsb is_synced (new_records s s') = false.
Proof.
  intros (new & Hl & Hn). unfold new_records. rewrite Hl, drop_app_length.
  clear Hl. induction new as [|r new IH]; [reflexivity|].
  cbn [forallb existsb] in *. apply andb_true_iff in Hn as [Hr Hn].
  unfold not_synced in Hr. apply negb_true_iff in Hr. rewrite Hr. apply IH, Hn.
Qed.

Lemma transfer_not_early (n : nat) o o' :
  (n <= 2)%nat -> rsync o ∉ take n (sync_commands o').
Proof.
  intros Hn Hin. apply elem_of_take in Hin as (i & Hi & Hlt).
  destruct i as [|[|i]]; [discriminate Hi | discriminate Hi | lia].
Qed.

(** X3. A run invokes only the agent start, [ssh-add] and [rsync], in that
    order and each at most once; a run that completes has invoked all three,
    and [rsync] is invoked only for the parsed options and after an
    [ssh-add] that exited with status zero. *)
Theorem run_commands (w : world) (s : state) :
  commands_in_order w s (fst (run w s)) (snd (main w s)).
Proof.
  destruct (main_run_facts w s) as (n & o & H1 & H2 & H3 & _).
  exists n, o. auto.
Qed.

(** X4. If [ssh-add] never exits with status zero, the run ends with an
    error and [rsync] is never invoked. *)
Theorem rejected_key_never_transfers (w : world) (s : state) :
  (forall key env p,
     subprocess w ssh_add_command key env = Returns p -> returncode p <> 0) ->
  (exists e, fst (run w s) = Raises e)
  /\ (forall o, rsync o ∉ new_commands s (snd (main w s))).
Proof.
  intros Hadd. destruct (main_run_facts w s) as (n & o & H1 & H2 & H3 & _).
  assert (Hn : (n <= 2)%nat).
  { destruct (le_lt_dec n 2) as [L|G]; [exact L|].
    destruct (H3 G) as (_ & key & env & p & Hp & Hz).
    exfalso. apply (Hadd key env p Hp Hz). }
  split.
  - destruct (fst (run w s)) as [[]|e]; [| eauto].
    specialize (H2 eq_refl). lia.
  - intros o'. unfold new_commands. rewrite H1, drop_app_length.
    apply transfer_not_early, Hn.
Qed.

Lemma rejected_key_never_transfers_witness :
  (exists e, fst (run world_rejected_key (fresh Absent ∅ [])) = Raises e)
  /\ (forall o, rsync o ∉ new_commands (fresh Absent ∅ [])
                          (snd (main world_rejected_key (fresh Absent ∅ [])))).
Proof.
  apply (rejected_key_never_transfers world_rejected_key (fresh Absent ∅ [])).
  intros key env p. cbn [world_rejected_key with_subprocess subprocess].
  rewrite bool_decide_eq_true_2 by reflexivity.
  intros [= <-]. discriminate.
Defined.

(** X5. If [rsync] exits with a status other than zero, the run ends with an
    error, no record of a completed transfer is logged, and once [rsync]
    has been invoked the error is [CalledProcessError] with that status. *)
Theorem failed_transfer (w : world) (s : state) (o : options) (p : completed) :
  parse_args w = Returns o ->
  (forall env, subprocess w (rsync o) VNone env = Returns p) ->
  returncode p <> 0 ->
  (exists e, fst (run w s) = Raises e)
  /\ existsb is_synced (new_records s (snd (main w s))) = false
  /\ (rsync o ∈ new_commands s (snd (main w s)) ->
      fst (run w s) = Raises (CalledProcessError (returncode p))).
Proof.
  intros Ho Hp Hr. destruct (main_run_facts w s) as (n & o' & H1 & H2 & H3 & H4 & H5).
  destruct (le_lt_dec n 2) as [L|G].
  - split; [| split].
    + destruct (fst (run w s)) as [[]|e]; [| eauto]. specialize (H2 eq_refl). lia.
    + apply appends_no_synced, H4, L.
    + intros Hin. exfalso. revert Hin. unfold new_commands.
      rewrite H1, drop_app_length. apply transfer_not_early, L.
  - destruct (H3 G) as (Ho' & _). rewrite Ho in Ho'. injection Ho' as <-.
    destruct (H5 G) as (env & H). rewrite Hp in H. destruct (H Hr) as [Hx Ha].
    split; [eauto|]. split; [apply appends_no_synced, Ha | intros _; exact Hx].
Qed.

Lemma failed_transfer_witness :
  fst (run world_failed_transfer (fresh Absent ∅ [])) = Raises (CalledProcessError 23)
  /\ existsb is_synced
       (new_records (fresh Absent ∅ [])
          (snd (main world_failed_transfer (fresh Absent ∅ [])))) = false.
Proof.
  assert (Hr : 23 <> 0) by discriminate.
  destruct (failed_transfer world_failed_transfer (fresh Absent ∅ []) plain_options
              {| returncode := 23; stdout := []; stderr := [] |}
              eq_refl (fun env => eq_refl) Hr) as (_ & Hl & He).
  split; [| exact Hl]. apply He.
  assert (E : new_commands (fresh Absent ∅ [])
                (snd (main world_failed_transfer (fresh Absent ∅ [])))
              = sync_commands plain_options) by (vm_compute; reflexivity).
  rewrite E. unfold sync_commands. rewrite !elem_of_cons.
  right; right; left; reflexivity.
Defined.

(** * Invariants of a run *)

Lemma main_unfold w s :
  main w s =
    match run w s with
    | (Returns _, s1) => (0, s1)
    | (Raises e, s1) =>
        if is_Exception e then
          match report_failure w e s1 with
          | (Returns _, s2) => (0, s2)
          | (Raises e', s2) => (uncaught_status e', s2)
          end
        else (uncaught_status e, s1)
    end.
Proof. reflexivity. Qed.

(** What the run and the error handler maintain, the entry point
    maintains. *)
Lemma main_maintains (R : relation state) `{!Reflexive R, !Transitive R} w :
  maintains R (run w) -> (forall e, maintains R (report_failure w e)) ->
  forall s, R s (snd (main w s)).
Proof.
  intros Hr Hf s. rewrite main_unfold. specialize (Hr s).
  destruct (run w s) as [[[]|e] s1]; cbn [snd] in *; [exact Hr|].
  destruct (is_Exception e); [| exact Hr].
  specialize (Hf e s1).
  destruct (report_failure w e s1) as [[[]|e'] s2]; cbn [snd] in *;
    etransitivity; eassumption.
Qed.

Lemma bind_get_verbose_quiet (R : relation state) `{!Reflexive R} w
    (k : bool -> M unit) :
  quiet w -> maintains R (k false) -> maintains R (bind (get_verbose w) k).
Proof.
  intros Hq Hk s. cbv [bind get_verbose opts lift ret].
  destruct (parse_args w) as [o|e] eqn:Ho; cbv beta iota; cbn [snd]; [| reflexivity].
  rewrite (Hq o Ho). apply Hk.
Qed.

(** Proves that a computation writes nothing to the console when the run is
    [quiet]. *)
Ltac quiet_auto Hq :=
  unfold preserves, run, stage, sync, report_totals, report_failure, stage_entry,
    count_entry;
  repeat first
    [ simple apply (bind_get_verbose_quiet _ _ _ Hq); cbv beta; unfold when; cbv iota
    | maintains_step ];
  frame_auto.

Lemma run_quiet w : quiet w -> preserves console (run w).
Proof. intros Hq. quiet_auto Hq. Qed.

Lemma report_failure_quiet w e : quiet w -> preserves console (report_failure w e).
Proof. intros Hq. quiet_auto Hq. Qed.

(** X6. Unless [--verbose] is given, nothing is ever written to the console:
    not by staging, the sync or the totals, and not by the error handler of
    the entry point. *)
Theorem quiet_unless_verbose (w : world) (s : state) :
  quiet w -> console (snd (main w s)) = console s.
Proof.
  intros Hq. apply (main_maintains (same console) w).
  - apply run_quiet, Hq.
  - intros e. apply report_failure_quiet, Hq.
Qed.

Lemma quiet_unless_verbose_witness :
  console (snd (main world_rejected_key (fresh Absent ∅ []))) = [].
Proof.
  apply (quiet_unless_verbose world_rejected_key (fresh Absent ∅ [])).
  intros o [= <-]. reflexivity.
Defined.

(** * The environment *)

Lemma agent_lines_environ (k : str) (lines : list str) :
  k ∉ KEYS ->
  preserves (fun s => environ s !! k)
    (for_each lines (fun line =>
       for_each KEYS (fun key => when (startswith key line) (set_from_line key line)))).
Proof.
  intros Hk. unfold KEYS in Hk. rewrite !not_elem_of_cons in Hk.
  destruct Hk as (K1 & K2 & _).
  unfold preserves. apply maintains_for_each; try typeclasses eauto. intros line.
  unfold KEYS. simpl for_each. maintains_auto;
    try (apply maintains_modify; intros s; unfold same; cbn [environ set_environ];
         apply lookup_insert_ne; congruence).
Qed.

(** Proves that a computation leaves the variable [k] alone. *)
Ltac environ_auto Hk :=
  unfold preserves, run, sync, start_ssh_agent, report_failure;
  repeat first
    [ simple apply (agent_lines_environ _ _ Hk)
    | maintains_step ];
  frame_auto.

Lemma run_environ w k : k ∉ KEYS -> preserves (fun s => environ s !! k) (run w).
Proof. intros Hk. environ_auto Hk. Qed.

Lemma report_failure_environ w e k :
  preserves (fun s => environ s !! k) (report_failure w e).
Proof. unfold report_failure. frame_auto. Qed.

(** X7. The only environment variables that a run ever assigns are
    [SSH_AUTH_SOCK] and [SSH_AGENT_PID]: every other variable, [AKAMAI_KEY]
    included, has at the end the value it had at the start. *)
Theorem environment_kept (w : world) (s : state) (k : str) :
  k ∉ KEYS -> environ (snd (main w s)) !! k = environ s !! k.
Proof.
  intros Hk. apply (main_maintains (same (fun s => environ s !! k)) w).
  - apply run_environ, Hk.
  - intros e. apply report_failure_environ.
Qed.

Lemma environment_kept_witness :
  environ (snd (main world_with_secret (fresh Absent {[ u "HOME" := u "/root" ]} [])))
    !! u "HOME" = Some (u "/root").
Proof.
  assert (Hk : u "HOME" ∉ KEYS).
  { unfold KEYS. rewrite !not_elem_of_cons. repeat split; try discriminate.
    apply not_elem_of_nil. }
  rewrite (environment_kept world_with_secret _ (u "HOME") Hk).
  apply lookup_singleton_eq.
Defined.

(** ** The value of a variable *)

Lemma split_cons_head sep s : exists hd tl, split sep s = hd :: tl.
Proof.
  induction s as [|c s (hd & tl & IH)]; cbn [split]; [eauto|].
  destruct (N.eqb c sep); [eauto|]. rewrite IH. eauto.
Qed.

Lemma split_at_sep sep x r :
  forallb (fun c => negb (c =? sep)%N) x = true ->
  split sep (x ++ sep :: r) = x :: split sep r.
Proof.
  induction x as [|c x IH]; cbn [forallb app split].
  - intros _. rewrite N.eqb_refl. reflexivity.
  - intros H. apply andb_true_iff in H as [Hc Hx]. apply negb_true_iff in Hc.
    rewrite Hc, (IH Hx). reflexivity.
Qed.

(** Up to the first separator a piece is the text itself. *)
Lemma split_prefix sep x r :
  forallb (fun c => negb (c =? sep)%N) x = true ->
  exists y tl, split sep (x ++ r) = (x ++ y) :: tl
               /\ forallb (fun c => negb (c =? sep)%N) y = true.
Proof.
  induction x as [|c x IH]; cbn [forallb app].
  - intros _. induction r as [|c r (y & tl & H1 & H2)]; cbn [split].
    + exists [], []. split; reflexivity.
    + destruct (N.eqb c sep) eqn:Hc.
      * exists [], (split sep r). split; reflexivity.
      * rewrite H1. exists (c :: y), tl. split; [reflexivity|].
        cbn [forallb]. rewrite Hc, H2. reflexivity.
  - intros H. apply andb_true_iff in H as [Hc Hx]. apply negb_true_iff in Hc.
    destruct (IH Hx) as (y & tl & H1 & H2). exists y, tl. cbn [split].
    rewrite Hc, H1. split; [reflexivity | exact H2].
Qed.

Lemma split_plain sep x :
  forallb (fun c => negb (c =? sep)%N) x = true -> split sep x = [x].
Proof.
  induction x as [|c x IH]; cbn [forallb split]; [reflexivity|].
  intros H. apply andb_true_iff in H as [Hc Hx]. apply negb_true_iff in Hc.
  rewrite Hc, (IH Hx). reflexivity.
Qed.

Lemma plain_no (sep : N) s :
  sep = 59%N \/ sep = 61%N -> plain s = true ->
  forallb (fun c => negb (c =? sep)%N) s = true.
Proof.
  intros Hs. unfold plain. induction s as [|c s IH]; cbn [forallb]; [reflexivity|].
  intros H. apply andb_true_iff in H as [Hc H]. rewrite (IH H), andb_true_r.
  apply negb_true_iff in Hc. apply orb_false_elim in Hc as [H1 H2].
  destruct Hs as [-> | ->]; [rewrite H1 | rewrite H2]; reflexivity.
Qed.

Lemma forallb_app_true {A} (f : A -> bool) l1 l2 :
  forallb f l1 = true -> forallb f l2 = true -> forallb f (l1 ++ l2) = true.
Proof. intros H1 H2. rewrite forallb_app, H1, H2. reflexivity. Qed.

(** The piece of the line before its first [;]. *)
Lemma first_piece name v rest :
  plain name = true -> plain v = true -> ends_value rest = true ->
  exists y tl,
    split 59%N (name ++ 61%N :: v ++ rest) = (name ++ 61%N :: v ++ y) :: tl
    /\ (y = [] \/ exists y', y = 61%N :: y').
Proof.
  intros Hn Hv Hr.
  assert (N59 := plain_no 59 name (or_introl eq_refl) Hn).
  assert (V59 := plain_no 59 v (or_introl eq_refl) Hv).
  assert (P : forallb (fun c => negb (c =? 59)%N) (name ++ 61%N :: v) = true).
  { apply forallb_app_true; [exact N59|]. cbn [forallb]. exact V59. }
  destruct rest as [|c r].
  - exists [], []. rewrite app_nil_r. split; [| left; reflexivity].
    apply split_plain, P.
  - cbn [ends_value] in Hr. apply orb_true_iff in Hr as [Hc|Hc];
      apply N.eqb_eq in Hc; subst c.
    + exists [], (split 59%N r). rewrite app_nil_r. split; [| left; reflexivity].
      rewrite <- (split_at_sep 59 (name ++ 61%N :: v) r P), <- app_assoc.
      reflexivity.
    + destruct (split_prefix 59 ((name ++ 61%N :: v) ++ [61%N]) r) as (y & tl & H & _).
      { apply forallb_app_true; [exact P | reflexivity]. }
      exists (61%N :: y), tl. split; [| right; eauto].
      rewrite <- !app_assoc in H. cbn [app] in H. exact H.
Qed.

Lemma set_from_line_value (key name v rest : str) :
  plain name = true -> plain v = true -> ends_value rest = true ->
  set_from_line key (name ++ 61%N :: v ++ rest) = environ_set key v.
Proof.
  intros Hn Hv Hr.
  destruct (first_piece name v rest Hn Hv Hr) as (y & tl & Hs & Hy).
  assert (N61 := plain_no 61 name (or_intror eq_refl) Hn).
  assert (V61 := plain_no 61 v (or_intror eq_refl) Hv).
  unfold set_from_line. rewrite Hs, (split_at_sep 61 name _ N61).
  destruct Hy as [-> | (y' & ->)].
  - rewrite app_nil_r, (split_plain 61 v V61). reflexivity.
  - rewrite (split_at_sep 61 v y' V61). reflexivity.
Qed.

(** X8. From a line [NAME=value...] the bridge assigns to the variable the
    text between the first [=] and the next [=] or [;], or the end of the
    line: a value that itself contains [=] is cut short there. *)
Theorem agent_value (key name v rest : str) :
  plain name = true -> plain v = true -> ends_value rest = true ->
  set_from_line key (name ++ 61%N :: v ++ rest) = environ_set key v.
Proof. apply set_from_line_value. Qed.

Lemma agent_value_witness :
  set_from_line (u "SSH_AUTH_SOCK") (u "SSH_AUTH_SOCK=/tmp/agent.1=x; export SSH_AUTH_SOCK;")
  = environ_set (u "SSH_AUTH_SOCK") (u "/tmp/agent.1").
Proof.
  exact (agent_value (u "SSH_AUTH_SOCK") (u "SSH_AUTH_SOCK") (u "/tmp/agent.1")
           (u "=x; export SSH_AUTH_SOCK;") eq_refl eq_refl eq_refl).
Defined.

(** * Skipping, failing and leaving *)

Lemma report_failure_view w e : preserves staging_view (report_failure w e).
Proof. unfold report_failure. frame_auto. Qed.

(** X9. With [--staged] nothing is staged: the run leaves the staging root,
    the calls into the filesystem and PIL, and the counter as they were. *)
Theorem staged_run_stages_nothing (w : world) (s : state) (o : options) :
  parse_args w = Returns o -> staged o = true ->
  staging_view (snd (main w s)) = staging_view s.
Proof.
  intros Ho Hs. apply (main_maintains (same staging_view) w).
  - intros s0. rewrite (run_parsed w o s0 Ho), Hs. cbn [negb when].
    assert (H : preserves staging_view
                  (let! start := now w in ret tt ;; sync w ;; ret tt))
      by frame_auto.
    apply H.
  - intros e. apply report_failure_view.
Qed.

Lemma staged_run_stages_nothing_witness :
  staging_view
    (snd (main (with_options (Returns staged_options) world_with_secret)
            (fresh stale_root ∅ [])))
  = (stale_root, [], 0).
Proof.
  exact (staged_run_stages_nothing
           (with_options (Returns staged_options) world_with_secret)
           (fresh stale_root ∅ []) staged_options eq_refl eq_refl).
Defined.

Lemma stage_invoked w : preserves invoked (stage w).
Proof. frame_auto. Qed.

(** X10. Without [--staged], an error while staging ends the run with that
    error before anything is invoked: no agent, no key, no transfer. *)
Theorem staging_error_stops_run (w : world) (s : state) (o : options) (e : exn) :
  parse_args w = Returns o -> staged o = false ->
  fst (stage w (snd (now w s))) = Raises e ->
  fst (run w s) = Raises e /\ invoked (snd (main w s)) = invoked s.
Proof.
  intros Ho Hs He. rewrite main_invoked.
  rewrite (run_parsed w o s Ho), Hs. cbn [negb when].
  rewrite (bind_returns _ _ _ _ _ (now_returns w s)).
  rewrite now_returns in He. cbn [snd] in He.
  pose proof (stage_invoked w (set_ticks (S (ticks s)) s)) as Hi.
  unfold same in Hi. unfold bind.
  destruct (stage w (set_ticks (S (ticks s)) s)) as [[[]|e0] s1];
    cbn [fst snd] in *; [discriminate He|].
  injection He as ->. split; [reflexivity | exact Hi].
Qed.

Lemma staging_error_stops_run_witness :
  fst (run (world_of (Returns plain_options) [u "cover.png"] (u "RGB", 1000, 500)
              NoSecrets agent_text) (fresh Absent ∅ [])) = Raises ValueError
  /\ invoked (snd (main (world_of (Returns plain_options) [u "cover.png"]
                           (u "RGB", 1000, 500) NoSecrets agent_text)
                    (fresh Absent ∅ []))) = [].
Proof.
  exact (staging_error_stops_run
           (world_of (Returns plain_options) [u "cover.png"] (u "RGB", 1000, 500)
              NoSecrets agent_text)
           (fresh Absent ∅ []) plain_options ValueError eq_refl eq_refl eq_refl).
Defined.



(** X12. The process ends with a status other than zero only if the run
    raised an exception and either that exception is not of class
    [Exception], or the log file cannot be opened, or the command line was
    rejected: every other failure is caught, logged, and ends with zero. *)
Theorem nonzero_exit (w : world) (s : state) :
  fst (main w s) <> 0 ->
  exists e, fst (run w s) = Raises e
            /\ (is_Exception e = false \/ log_file_error w <> None
                \/ exists e', parse_args w = Raises e').
Proof.
  rewrite main_unfold. destruct (run w s) as [[[]|e] s1]; cbn [fst].
  - intros H. contradiction.
  - intros H. exists e. split; [reflexivity|].
    destruct (is_Exception e); [| left; reflexivity]. right.
    revert H. unfold report_failure, logger, get_logger, get_verbose, opts.
    destruct (log_file_error w) as [el|]; [left; discriminate|].
    destruct (parse_args w) as [o|ep]; [| right; eauto].
    cbv [bind ret lift log_append modify when stderr_write].
    destruct (verbose o); cbn [fst]; intros H; contradiction.
Qed.

Lemma nonzero_exit_witness :
  exists e,
    fst (run (with_options (Raises (SystemExit 2)) world_with_secret)
           (fresh Absent ∅ [])) = Raises e
    /\ (is_Exception e = false
        \/ log_file_error (with_options (Raises (SystemExit 2)) world_with_secret) <> None
        \/ exists e', parse_args (with_options (Raises (SystemExit 2)) world_with_secret)
                      = Raises e').
Proof.
  apply (nonzero_exit (with_options (Raises (SystemExit 2)) world_with_secret)
           (fresh Absent ∅ [])).
  vm_compute. discriminate.
Defined.

(** ** A log file that cannot be opened *)

Lemma bind_get_logger_fails (R : relation state) `{!Reflexive R} w e
    (k : unit -> M unit) :
  log_file_error w = Some e -> maintains R (bind (get_logger w) k).
Proof.
  intros Hl s. cbv [bind get_logger]. rewrite Hl. reflexivity.
Qed.

(** Proves that a computation leaves [f] alone when the log file cannot be
    opened. *)
Ltac unlogged_auto Hl :=
  unfold preserves, run, stage, sync, report_totals, report_failure, add_key_to_agent,
    logger;
  repeat first
    [ simple apply (bind_get_logger_fails _ _ _ _ Hl)
    | maintains_step ];
  frame_auto.

Lemma run_unlogged w e : log_file_error w = Some e -> preserves log (run w).
Proof. intros Hl. unlogged_auto Hl. Qed.

Lemma report_failure_unlogged w e e0 :
  log_file_error w = Some e -> preserves log (report_failure w e0).
Proof. intros Hl. unlogged_auto Hl. Qed.

Lemma run_uninvoked w e : log_file_error w = Some e -> preserves invoked (run w).
Proof. intros Hl. unlogged_auto Hl. Qed.

Lemma sync_unlogged w e s : log_file_error w = Some e -> sync w s = (Raises e, s).
Proof. intros Hl. unfold sync. cbv [bind get_logger]. rewrite Hl. reflexivity. Qed.

(** X13. When the log file cannot be opened, every run fails: nothing is
    logged and no command is invoked, although staging is still carried out
    first; the error handler of the entry point fails in turn, and the
    process ends with status 1. *)
Theorem unopened_log (w : world) (s : state) (o : options) (e : exn) :
  log_file_error w = Some e -> is_Exception e = true ->
  parse_args w = Returns o ->
  (exists e0, fst (run w s) = Raises e0)
  /\ (forall e0, fst (run w s) = Raises e0 -> is_Exception e0 = true ->
                 fst (main w s) = 1)
  /\ invoked (snd (main w s)) = invoked s
  /\ log (snd (main w s)) = log s
  /\ (staged o = false -> fst (stage w (snd (now w s))) = Raises e ->
      fst (run w s) = Raises e /\
      akamai_dir (snd (main w s)) = akamai_dir (snd (stage w (snd (now w s))))).
Proof.
  intros Hl He Ho.
  assert (Hraise : exists e0, fst (run w s) = Raises e0).
  { rewrite (run_parsed w o s Ho). unfold bind at 1.
    destruct (now w s) as [[start|e0] s1]; [| cbn; eauto].
    unfold bind at 1.
    destruct (when (negb (staged o)) (stage w) s1) as [[[]|e0] s2]; [| cbn; eauto].
    unfold bind at 1. rewrite (sync_unlogged w e s2 Hl). cbn. eauto. }
  split; [exact Hraise|]. split; [| split; [| split]].
  - intros e0 Hr H0. rewrite main_unfold.
    destruct (run w s) as [[[]|e1] s1]; cbn [fst] in Hr; [discriminate Hr|].
    injection Hr as ->. rewrite H0.
    unfold report_failure, logger. cbv [bind get_logger]. rewrite Hl. cbn [fst].
    destruct e; try reflexivity; discriminate He.
  - rewrite main_invoked. apply (run_uninvoked w e Hl).
  - apply (main_maintains (same log) w).
    + apply (run_unlogged w e Hl).
    + intros e0. apply (report_failure_unlogged w e e0 Hl).
  - intros Hs Hst.
    assert (Hrun : run w s = (Raises e, snd (stage w (snd (now w s))))).
    { rewrite (run_parsed w o s Ho), Hs. cbn [negb when].
      rewrite (bind_returns _ _ _ _ _ (now_returns w s)).
      rewrite now_returns in *. cbn [snd] in *.
      apply bind_raises.
      destruct (stage w (set_ticks (S (ticks s)) s)) as [[[]|e0] s1];
        cbn [fst snd] in *; [discriminate Hst | congruence]. }
    rewrite Hrun. split; [reflexivity|].
    rewrite main_unfold, Hrun, He.
    pose proof (report_failure_view w e (snd (stage w (snd (now w s))))) as Hv.
    unfold same, staging_view in Hv.
    destruct (report_failure w e _) as [[[]|e1] s2]; cbn [snd] in *; congruence.
Qed.

Lemma unopened_log_witness :
  fst (main (with_log_error (OtherError (u "PermissionError")) world_with_secret)
         (fresh Absent ∅ [])) = 1
  /\ invoked (snd (main (with_log_error (OtherError (u "PermissionError"))
                           world_with_secret) (fresh Absent ∅ []))) = [].
Proof.
  destruct (unopened_log (with_log_error (OtherError (u "PermissionError"))
                            world_with_secret)
              (fresh Absent ∅ []) plain_options (OtherError (u "PermissionError"))
              eq_refl eq_refl eq_refl) as (_ & H1 & H2 & _).
  split; [| exact H2].
  apply (H1 (OtherError (u "PermissionError"))); [vm_compute|]; reflexivity.
Defined.

(** * Staging a directory *)

Lemma stage_entry_log w name : preserves log (stage_entry w name).
Proof. frame_auto. Qed.

Lemma stage_entry_ticks w name : preserves ticks (stage_entry w name).
Proof. frame_auto. Qed.

Lemma for_each_entry_log w names : preserves log (for_each names (stage_entry w)).
Proof.
  unfold preserves. apply maintains_for_each; try typeclasses eauto.
  intros name. apply stage_entry_log.
Qed.

Lemma for_each_entry_ticks w names : preserves ticks (for_each names (stage_entry w)).
Proof.
  unfold preserves. apply maintains_for_each; try typeclasses eauto.
  intros name. apply stage_entry_ticks.
Qed.



Lemma stage_returns (w : world) (s s' : state) :
  stage w s = (Returns tt, s') ->
  count s' = count s + Z.of_nat (length (glob_blobs w))
  /\ log s' = log s ++ [staged_record w s].
Proof.
  rewrite stage_from_now. intros H.
  apply bind_inv_returns in H as ([] & s1 & Hloop & H).
  pose proof (for_each_entry_count w _ _ _ Hloop) as Hc.
  pose proof (for_each_entry_log w (glob_blobs w) (set_ticks (S (ticks s)) s)) as Hl.
  pose proof (for_each_entry_ticks w (glob_blobs w) (set_ticks (S (ticks s)) s)) as Ht.
  rewrite Hloop in Hl, Ht. unfold same in Hl, Ht. cbn [snd log ticks set_ticks] in *.
  cbn [count set_ticks] in Hc.
  rewrite (bind_returns _ _ _ _ _ (now_returns w s1)) in H. rewrite Ht in H.
  revert H. unfold get_logger, get_verbose, opts.
  destruct (log_file_error w); [discriminate|].
  cbv [bind ret gets log_append modify lift]. state_simpl.
  destruct (parse_args w) as [o|e]; [| discriminate].
  unfold when, stderr_write, modify. unfold staged_record.
  destruct (verbose o); intros [= <-]; state_simpl; rewrite Hc, Hl; split; reflexivity.
Qed.

(** X16. A staging that completes has counted every entry of the source
    directory once, and it has logged exactly one record: the number of files
    counted so far and the time between its two readings of the clock. *)
Theorem stage_report (w : world) (s s' : state) :
  stage w s = (Returns tt, s') ->
  count s' = count s + Z.of_nat (length (glob_blobs w))
  /\ log s' = log s ++ [staged_record w s].
Proof. apply stage_returns. Qed.

Lemma stage_report_witness :
  count (snd (stage world_with_secret (fresh Absent ∅ []))) = 2
  /\ log (snd (stage world_with_secret (fresh Absent ∅ []))) = [InfoStaged 2 1].
Proof.
  exact (stage_report world_with_secret (fresh Absent ∅ [])
           (snd (stage world_with_secret (fresh Absent ∅ [])))
           ltac:(vm_compute; reflexivity)).
Defined.

(** ** Two entries with one document id *)

Lemma stage_audio_done w doc_id path s :
  wp (stage_audio w doc_id path)
     (fun o s1 => o = Returns tt ->
        audio_cached s1 = true /\
        exists n, entries_of (akamai_dir s1) !! audio_path doc_id = Some n) s.
Proof.
  autounfold with control. wp_run; intros H; try discriminate H;
    (split; [first [reflexivity | assumption]
            | eexists; cbn [entries_of]; apply lookup_insert_eq]).
Qed.

Lemma count_entry_audio_cached w : preserves audio_cached (count_entry w).
Proof. frame_auto. Qed.

(** X15. Two audio entries whose stems parse to the same document id, such
    as [7.mp3] and [07.mp3], cannot both be staged: once the first is linked,
    staging the second raises [FileExistsError] at the hard link, having
    changed nothing but the record of that call. *)
Theorem duplicate_audio_id (w : world) (name1 name2 : str) (doc_id : Z) (s s1 : state) :
  int (stem name1) = Some doc_id -> int (stem name2) = Some doc_id ->
  suffix name1 = u ".mp3" -> suffix name2 = u ".mp3" ->
  stage_entry w name1 s = (Returns tt, s1) ->
  stage_entry w name2 s1 =
    (Raises FileExistsError,
     set_calls (calls s1 ++ [CallHardlink (audio_path doc_id) (joinpath blobs name2)]) s1).
Proof.
  intros H1 H2 S1 S2 Hs.
  rewrite (stage_entry_parsed w name1 doc_id s H1) in Hs.
  rewrite S1 in Hs. unfold str_eqb in Hs. rewrite bool_decide_eq_true_2 in Hs by reflexivity.
  apply bind_inv_returns in Hs as ([] & sa & Ha & Hc).
  pose proof (stage_audio_done w doc_id (joinpath blobs name1) s) as Hd.
  unfold wp in Hd. rewrite Ha in Hd. destruct (Hd eq_refl) as (Hcached & n & Hn).
  cbn [snd] in Hcached, Hn.
  pose proof (count_entry_audio_cached w sa) as K1.
  pose proof (count_entry_akamai w sa) as K2.
  rewrite Hc in K1, K2. unfold same in K1, K2. cbn [snd] in K1, K2.
  rewrite <- K1 in Hcached. rewrite <- K2 in Hn.
  rewrite (stage_entry_parsed w name2 doc_id s1 H2), S2.
  unfold str_eqb. rewrite bool_decide_eq_true_2 by reflexivity.
  apply bind_raises.
  unfold stage_audio, audio, hardlink_to, record_call.
  cbv [bind gets modify ret]. rewrite Hcached. state_simpl.
  fold (audio_path doc_id). rewrite Hn. reflexivity.
Qed.

Lemma duplicate_audio_id_witness :
  fst (stage_entry world_duplicate_audio (u "07.mp3")
         (snd (stage_entry world_duplicate_audio (u "7.mp3") (fresh Absent ∅ []))))
  = Raises FileExistsError.
Proof.
  rewrite (duplicate_audio_id world_duplicate_audio (u "7.mp3") (u "07.mp3") 7
             (fresh Absent ∅ [])
             (snd (stage_entry world_duplicate_audio (u "7.mp3") (fresh Absent ∅ [])))
             eq_refl eq_refl eq_refl eq_refl ltac:(vm_compute; reflexivity)).
  reflexivity.
Defined.

(** * Names of the staged files *)

Lemma digit_cases c :
  digit c = true ->
  (c = 48 \/ c = 49 \/ c = 50 \/ c = 51 \/ c = 52 \/ c = 53 \/ c = 54 \/ c = 55
   \/ c = 56 \/ c = 57)%N.
Proof.
  unfold digit. intros H. apply andb_true_iff in H as [H1 H2].
  apply N.leb_le in H1, H2. lia.
Qed.

(** Runs through the ten digits. *)
Ltac by_digit H :=
  apply digit_cases in H;
  repeat (destruct H as [-> | H]; [reflexivity|]); subst; reflexivity.

Lemma digit_value_digit c : digit c = true -> digit_value c = Some (Z.of_N (c - 48)).
Proof. intros H. by_digit H. Qed.

Lemma digit_not_space c : digit c = true -> int_space c = false.
Proof. intros H. by_digit H. Qed.

Lemma digit_not_underscore c : digit c = true -> (c =? 95)%N = false.
Proof. intros H. by_digit H. Qed.

Lemma digit_not_minus c : digit c = true -> (c =? 45)%N = false.
Proof. intros H. by_digit H. Qed.

Lemma digit_not_plus c : digit c = true -> (c =? 43)%N = false.
Proof. intros H. by_digit H. Qed.

Lemma digit_not_dot c : digit c = true -> negb (c =? 46)%N = true.
Proof. intros H. by_digit H. Qed.

Lemma int_digits_all ds :
  forallb digit ds = true -> ds <> [] ->
  forall a b, int_digits a b ds = Some (digits_value ds a).
Proof.
  induction ds as [|c ds IH]; [congruence|].
  cbn [forallb]. intros H _ a b. apply andb_true_iff in H as [Hc Hds].
  cbn [int_digits]. rewrite (digit_not_underscore c Hc), (digit_value_digit c Hc).
  destruct ds as [|d ds'].
  - reflexivity.
  - rewrite IH; [reflexivity | exact Hds | discriminate].
Qed.

Lemma digits_value_app ds1 ds2 a :
  digits_value (ds1 ++ ds2) a = digits_value ds2 (digits_value ds1 a).
Proof. unfold digits_value. apply fold_left_app. Qed.

Lemma last_digit n : digit (48 + n mod 10)%N = true.
Proof.
  pose proof (N.mod_upper_bound n 10 ltac:(discriminate)) as H.
  unfold digit. generalize dependent (n mod 10)%N. intros m H.
  apply andb_true_iff. split; apply N.leb_le; lia.
Qed.

Lemma last_digit_value n : Z.of_N (48 + n mod 10 - 48) = Z.of_N n mod 10.
Proof.
  rewrite N.add_comm, N.add_sub. apply N2Z.inj_mod.
Qed.

Lemma digits_of_step fuel n acc :
  digits_of (S fuel) n acc =
    if (n <? 10)%N then (48 + n mod 10)%N :: acc
    else digits_of fuel (n / 10)%N ((48 + n mod 10)%N :: acc).
Proof. reflexivity. Qed.

(** With enough fuel [digits_of] puts before [acc] the decimal digits of
    [n]. *)
Lemma digits_of_spec fuel : forall n acc,
  (n < 10 ^ N.of_nat (S fuel))%N ->
  exists ds, digits_of (S fuel) n acc = ds ++ acc
             /\ ds <> [] /\ forallb digit ds = true
             /\ forall a, digits_value ds a
                          = a * 10 ^ Z.of_nat (length ds) + Z.of_N n.
Proof.
  induction fuel as [|fuel IH]; intros n acc Hn.
  - change (10 ^ N.of_nat 1)%N with 10%N in Hn.
    exists [(48 + n mod 10)%N]. rewrite digits_of_step.
    apply N.ltb_lt in Hn. rewrite Hn. apply N.ltb_lt in Hn.
    split; [reflexivity|]. split; [discriminate|].
    split; [cbn [forallb]; rewrite last_digit; reflexivity|].
    intros a. cbn [digits_value fold_left length]. rewrite last_digit_value.
    rewrite Z.mod_small by lia. change (10 ^ Z.of_nat 1) with 10. lia.
  - rewrite digits_of_step. destruct (n <? 10)%N eqn:Hlt.
    + exists [(48 + n mod 10)%N]. apply N.ltb_lt in Hlt.
      split; [reflexivity|]. split; [discriminate|].
      split; [cbn [forallb]; rewrite last_digit; reflexivity|].
      intros a. cbn [digits_value fold_left length]. rewrite last_digit_value.
      rewrite Z.mod_small by lia. change (10 ^ Z.of_nat 1) with 10. lia.
    + assert (Hq : (n / 10 < 10 ^ N.of_nat (S fuel))%N).
      { apply N.Div0.div_lt_upper_bound.
        rewrite <- N.pow_succ_r'. rewrite <- Nat2N.inj_succ. exact Hn. }
      destruct (IH (n / 10)%N ((48 + n mod 10)%N :: acc) Hq) as (ds & Hd & Hne & Hall & Hv).
      exists (ds ++ [(48 + n mod 10)%N]).
      split; [rewrite Hd, <- app_assoc; reflexivity|].
      split; [destruct ds; discriminate|].
      split; [rewrite forallb_app, Hall; cbn [forallb]; rewrite last_digit; reflexivity|].
      intros a. rewrite digits_value_app, Hv. cbn [digits_value fold_left].
      rewrite last_digit_value, N2Z.inj_div, length_app. cbn [length].
      rewrite Nat2Z.inj_add, Z.pow_add_r by lia.
      change (10 ^ Z.of_nat 1) with 10. change (Z.of_N 10) with 10.
      pose proof (Z.div_mod (Z.of_N n) 10 ltac:(lia)). lia.
Qed.

Lemma enough_fuel n : (n < 10 ^ N.of_nat (S (N.to_nat (N.log2 n))))%N.
Proof.
  rewrite Nat2N.inj_succ, N2Nat.id.
  destruct (N.eq_dec n 0%N) as [-> | Hn]; [reflexivity|].
  destruct (N.log2_spec n ltac:(lia)) as [_ H].
  apply N.lt_le_trans with (1 := H).
  apply N.pow_le_mono_l. discriminate.
Qed.

(** [format_d] gives the decimal digits of the magnitude, after a minus sign
    for a negative number. *)
Lemma format_d_spec z :
  exists ds, ds <> [] /\ forallb digit ds = true
             /\ digits_value ds 0 = Z.abs z
             /\ format_d z = if z <? 0 then 45%N :: ds else ds.
Proof.
  destruct (digits_of_spec (N.to_nat (N.log2 (Z.to_N (Z.abs z)))) (Z.to_N (Z.abs z)) []
              (enough_fuel _)) as (ds & Hd & Hne & Hall & Hv).
  exists ds. split; [exact Hne|]. split; [exact Hall|]. split.
  - rewrite Hv. lia.
  - unfold format_d. cbv zeta. rewrite Hd, app_nil_r. reflexivity.
Qed.

Lemma format_d_not_empty z : format_d z <> [].
Proof.
  destruct (format_d_spec z) as (ds & Hne & _ & _ & ->).
  destruct (z <? 0); [discriminate | exact Hne].
Qed.

Lemma int_lstrip_digits l t :
  forallb digit l = true -> l <> [] -> int_lstrip (l ++ t) = l ++ t.
Proof.
  destruct l as [|c l]; [congruence|]. cbn [forallb app int_lstrip].
  intros H _. apply andb_true_iff in H as [Hc _].
  rewrite (digit_not_space c Hc). reflexivity.
Qed.

Lemma forallb_digit_rev ds : forallb digit ds = true -> forallb digit (rev ds) = true.
Proof. intros H. rewrite forallb_rev. exact H. Qed.

Lemma rev_not_empty {A} (l : list A) : l <> [] -> rev l <> [].
Proof.
  destruct l as [|x l]; [congruence|]. cbn [rev]. intros _.
  destruct (rev l); discriminate.
Qed.

(** Reading back what [format_d] wrote gives the number. *)
Lemma int_format_d z : int (format_d z) = Some z.
Proof.
  destruct (format_d_spec z) as (ds & Hne & Hall & Hv & ->).
  pose proof (forallb_digit_rev ds Hall) as Hrev.
  pose proof (rev_not_empty ds Hne) as Hrne.
  assert (E1 : int_lstrip ds = ds).
  { rewrite <- (app_nil_r ds). apply int_lstrip_digits; assumption. }
  assert (E2 : int_lstrip (rev ds) = rev ds).
  { rewrite <- (app_nil_r (rev ds)). apply int_lstrip_digits; assumption. }
  unfold int. cbv zeta. destruct (z <? 0) eqn:Hz.
  - change (int_lstrip (45%N :: ds)) with (45%N :: ds).
    change (rev (45%N :: ds)) with (rev ds ++ [45%N]).
    rewrite (int_lstrip_digits (rev ds) [45%N] Hrev Hrne).
    rewrite rev_app_distr, rev_involutive. cbn [rev app].
    change (45 =? 45)%N with true. cbv iota.
    rewrite (int_digits_all ds Hall Hne). cbn [option_map]. f_equal.
    apply Z.ltb_lt in Hz. lia.
  - rewrite E1, E2, rev_involutive.
    destruct ds as [|c r]; [congruence|].
    pose proof Hall as Hall'.
    cbn [forallb] in Hall. apply andb_true_iff in Hall as [Hc Hr].
    rewrite (digit_not_minus c Hc), (digit_not_plus c Hc).
    rewrite (int_digits_all (c :: r) Hall' Hne).
    f_equal. apply Z.ltb_ge in Hz. lia.
Qed.

(** ** Stem and suffix *)





(** ** Names do not collide *)

Lemma format_d_inj a b : format_d a = format_d b -> a = b.
Proof.
  intros H. pose proof (int_format_d a) as Ha. rewrite H, int_format_d in Ha.
  congruence.
Qed.

Lemma digits_no_minus ds x y : forallb digit ds = true -> ds <> x ++ 45%N :: y.
Proof.
  intros Hd ->. rewrite forallb_app in Hd. cbn [forallb] in Hd.
  apply andb_true_iff in Hd as [_ Hd]. discriminate Hd.
Qed.

(** A minus sign is found only at the head of a formatted number. *)
Lemma format_d_minus z x y : format_d z = x ++ 45%N :: y -> x = [].
Proof.
  destruct (format_d_spec z) as (ds & Hne & Hall & _ & ->).
  destruct (z <? 0).
  - destruct x as [|c x]; [reflexivity|]. cbn [app]. intros [= _ H].
    exfalso. exact (digits_no_minus ds x y Hall H).
  - intros H. exfalso. exact (digits_no_minus ds x y Hall H).
Qed.

(** Two formatted numbers, each followed by a minus sign and more text, are
    the same when the whole texts are. *)
Lemma format_d_prefix a b ra rb :
  format_d a ++ 45%N :: ra = format_d b ++ 45%N :: rb -> a = b /\ ra = rb.
Proof.
  intros H.
  assert (E : format_d a = format_d b).
  { apply app_eq_inv in H as [(k & H1 & H2) | (k & H1 & H2)].
    - destruct k as [|c k]; [rewrite app_nil_r in H1; exact H1|].
      cbn [app] in H2. injection H2 as <- _.
      apply format_d_minus in H1. exfalso. exact (format_d_not_empty b H1).
    - destruct k as [|c k]; [rewrite app_nil_r in H1; symmetry; exact H1|].
      cbn [app] in H2. injection H2 as <- _.
      apply format_d_minus in H1. exfalso. exact (format_d_not_empty a H1). }
  split; [apply format_d_inj, E|].
  rewrite E in H. apply app_inv_head in H. congruence.
Qed.

(** X18. The names of the staged files are distinct: two documents never
    share the name of an audio link, of a full-size copy or of a variant, two
    variants of one document differ, and a full-size copy is never named like
    a variant. *)
Theorem artifact_names_distinct (a b T T' : Z) :
  (audio_path a = audio_path b -> a = b)
  /\ (full_path a = full_path b -> a = b)
  /\ (variant_path a T = variant_path b T' -> a = b /\ T = T')
  /\ full_path a <> variant_path b T
  /\ audio_path a <> full_path b
  /\ audio_path a <> variant_path b T.
Proof.
  unfold audio_path, full_path, variant_path, joinpath.
  split; [| split; [| split; [| split; [| split]]]].
  - intros H. apply app_inv_head in H. injection H as H.
    apply app_inv_tail in H. apply format_d_inj, H.
  - intros H. apply app_inv_head in H. injection H as H.
    apply app_inv_tail in H. apply format_d_inj, H.
  - intros H. apply app_inv_head in H. injection H as H.
    change (u "-" ++ format_d T ++ u ".jpg") with (45%N :: format_d T ++ u ".jpg") in H.
    change (u "-" ++ format_d T' ++ u ".jpg") with (45%N :: format_d T' ++ u ".jpg") in H.
    apply format_d_prefix in H as [-> H]. split; [reflexivity|].
    apply app_inv_tail in H. apply format_d_inj, H.
  - intros H. apply app_inv_head in H. injection H as H.
    change (u "-" ++ format_d T ++ u ".jpg") with (45%N :: format_d T ++ u ".jpg") in H.
    apply app_eq_inv in H as [(k & H1 & H2) | (k & H1 & H2)].
    + destruct k as [|c k]; [discriminate H2|].
      cbn [app] in H2. injection H2 as <- _.
      apply format_d_minus in H1. exact (format_d_not_empty b H1).
    + destruct k as [|c1 [|c2 [|c3 [|c4 k]]]]; try discriminate H2.
      destruct k; discriminate H2.
  - intros H. discriminate H.
  - intros H. discriminate H.
Qed.

(** * Heights of the variants *)

(** X19. For a source of height [H] and width [W] within the range of
    exact floats and a target width [T < W], computing the height of the
    variant never fails; the height lies between 0 and [H]; it is 0, an
    empty image, when the source is so flat that [2 * T * H < W], and at
    least 1 when [2 * T * H > W]. *)
Theorem variant_height_range (T H W : Z) :
  0 < T < W -> 0 < H -> W < 2 ^ 53 -> T * H < 2 ^ 47 ->
  exists ratio h,
    truediv H W = Some ratio
    /\ (forall s, scaled_height T ratio s = (Returns h, s))
    /\ 0 <= h <= H
    /\ (2 * (T * H) < W -> h = 0)
    /\ (W < 2 * (T * H) -> 1 <= h).
Proof.
  intros HT HH HW HTH.
  destruct (scaled_height_nearest T H W) as (ratio & h & Hr & Hh & Hn);
    [lia | lia | lia | lia |].
  exists ratio, h. split; [exact Hr|]. split.
  { intros s. unfold scaled_height. rewrite Hh. reflexivity. }
  unfold nearest in Hn. apply Z.abs_le in Hn.
  assert (B1 : 0 <= h) by nia.
  assert (B2 : h <= H) by nia.
  split; [lia|]. split; intros; nia.
Qed.

Lemma variant_height_range_witness :
  exists ratio h,
    truediv 1 2000 = Some ratio
    /\ (forall s, scaled_height 571 ratio s = (Returns h, s))
    /\ 0 <= h <= 1
    /\ (2 * (571 * 1) < 2000 -> h = 0)
    /\ (2000 < 2 * (571 * 1) -> 1 <= h).
Proof.
  apply (variant_height_range 571 1 2000); lia.
Defined.

(** * Where the key comes from *)

(** X20. A value of [AKAMAI_KEY] that is not empty is the key, whatever the
    fallback file holds: the file is not read. Without such a value a
    fallback file that cannot be read or parsed raises its own error, and one
    whose content is not an object raises [AttributeError]; neither is
    reported as a missing key. *)
Theorem key_sources (w : world) (s : state) :
  (forall k, environ s !! u "AKAMAI_KEY" = Some k -> k <> [] ->
             key_data w s = (Returns (VStr k), s))
  /\ (environ s !! u "AKAMAI_KEY" = None \/ environ s !! u "AKAMAI_KEY" = Some [] ->
      (forall e, secrets_json w = BadSecrets e -> key_data w s = (Raises e, s))
      /\ (forall v, secrets_json w = Secrets v ->
                    (forall d, v <> VDict d) ->
                    key_data w s = (Raises AttributeError, s))).
Proof.
  split.
  - intros k Hk Hne. unfold key_data. cbv [bind gets ret]. rewrite Hk.
    destruct k as [|c k]; [congruence|]. reflexivity.
  - intros He. split.
    + intros e Hs. unfold key_data. cbv [bind gets ret raise].
      destruct He as [-> | ->]; cbn [truthy negb]; rewrite Hs; reflexivity.
    + intros v Hs Hv. unfold key_data. cbv [bind gets ret raise].
      destruct He as [-> | ->]; cbn [truthy negb]; rewrite Hs;
        destruct v; try reflexivity; exfalso; eapply Hv; reflexivity.
Qed.

(** * Files of other documents *)

#[local] Instance keeps_refl p : Reflexive (keeps p).
Proof. intros s H. split; [exact H | reflexivity]. Qed.

#[local] Instance keeps_trans p : Transitive (keeps p).
Proof.
  intros s1 s2 s3 H1 H2 Hc. destruct (H1 Hc) as [Hc2 E1].
  destruct (H2 Hc2) as [Hc3 E2]. split; [exact Hc3 | congruence].
Qed.

Lemma keeps_of_same p {A} (c : M A) :
  preserves akamai_dir c -> preserves akamai_cached c -> maintains (keeps p) c.
Proof.
  intros H1 H2 s Hc. specialize (H1 s). specialize (H2 s). unfold same in *.
  rewrite H1, H2. split; [exact Hc | reflexivity].
Qed.

(** Proves [keeps] for a computation that does not write files. *)
Ltac keeps_frame := apply keeps_of_same; frame_auto.

(** A step whose value is known when it returns. *)
Lemma maintains_bind_value (R : relation state) `{!Reflexive R, !Transitive R}
    {A B} (c : M A) (k : A -> M B) (P : A -> Prop) :
  maintains R c ->
  (forall s, wp c (fun o _ => forall a, o = Returns a -> P a) s) ->
  (forall a, P a -> maintains R (k a)) ->
  maintains R (bind c k).
Proof.
  intros Hc Hv Hk s. unfold bind. specialize (Hc s). specialize (Hv s).
  unfold wp in Hv. destruct (c s) as [[a|e] s1]; cbn [fst snd] in *; [| exact Hc].
  etransitivity; [exact Hc | apply (Hk a), Hv; reflexivity].
Qed.

Lemma audio_keeps p : p <> u "../akamai/audio" -> maintains (keeps p) audio.
Proof.
  intros Hp s Hc. destruct s as [r env n l c i cl t ca cau cim].
  cbn in Hc. subst ca.
  unfold audio, akamai, mkdir_parents. cbv [bind gets ret modify raise]. cbn.
  destruct cau; cbn; [split; reflexivity|].
  destruct r as [| |m]; cbn; try (split; reflexivity).
  - split; [reflexivity|]. rewrite lookup_empty. apply lookup_singleton_ne.
    intros E. apply Hp. rewrite <- E. reflexivity.
  - destruct (m !! _) eqn:E; cbn; [split; reflexivity|].
    split; [reflexivity|]. apply lookup_insert_ne.
    intros E'. apply Hp. rewrite <- E'. reflexivity.
Qed.

Lemma images_keeps p : p <> u "../akamai/images" -> maintains (keeps p) images.
Proof.
  intros Hp s Hc. destruct s as [r env n l c i cl t ca cau cim].
  cbn in Hc. subst ca.
  unfold images, akamai, mkdir_parents. cbv [bind gets ret modify raise]. cbn.
  destruct cim; cbn; [split; reflexivity|].
  destruct r as [| |m]; cbn; try (split; reflexivity).
  - split; [reflexivity|]. rewrite lookup_empty. apply lookup_singleton_ne.
    intros E. apply Hp. rewrite <- E. reflexivity.
  - destruct (m !! _) eqn:E; cbn; [split; reflexivity|].
    split; [reflexivity|]. apply lookup_insert_ne.
    intros E'. apply Hp. rewrite <- E'. reflexivity.
Qed.

Lemma hardlink_keeps w p newpath path :
  p <> newpath -> maintains (keeps p) (hardlink_to w newpath path).
Proof.
  intros Hp s Hc. unfold hardlink_to, record_call.
  cbv [bind gets ret modify raise]. state_simpl.
  destruct (entries_of (akamai_dir s) !! newpath); cbn; [split; [exact Hc | reflexivity]|].
  destruct (link_error w newpath path); cbn; [split; [exact Hc | reflexivity]|].
  split; [exact Hc|]. apply lookup_insert_ne. congruence.
Qed.

Lemma save_keeps w p im newpath format quality :
  p <> newpath -> maintains (keeps p) (save w im newpath format quality).
Proof.
  intros Hp s Hc. unfold save, record_call.
  cbv [bind gets ret modify raise]. state_simpl.
  destruct (save_error w im newpath); cbn; [split; [exact Hc | reflexivity]|].
  split; [exact Hc|]. apply lookup_insert_ne. congruence.
Qed.

Lemma stage_audio_keeps w p b path :
  p <> u "../akamai/audio" -> p <> audio_path b ->
  maintains (keeps p) (stage_audio w b path).
Proof.
  intros H1 H2. unfold stage_audio.
  apply (maintains_bind_value (keeps p) _ _ (fun d => d = u "../akamai/audio")).
  - apply audio_keeps, H1.
  - apply audio_value.
  - intros d ->. apply hardlink_keeps, H2.
Qed.

Lemma stage_width_keeps w p im ratio b T :
  p <> variant_path b T ->
  maintains (keeps p) (stage_width w im ratio (u "../akamai/images") b T).
Proof.
  intros Hp. unfold stage_width. cbv zeta.
  apply maintains_bind; try typeclasses eauto.
  - keeps_frame.
  - intros v. apply save_keeps, Hp.
Qed.

Lemma stage_image_keeps w p b path :
  p <> u "../akamai/images" -> p <> full_path b ->
  p <> variant_path b 571 -> p <> variant_path b 750 ->
  maintains (keeps p) (stage_image w b path).
Proof.
  intros H1 H2 H3 H4. unfold stage_image.
  apply maintains_bind; try typeclasses eauto; [keeps_frame | intros im0].
  apply maintains_bind; try typeclasses eauto; [keeps_frame | intros im].
  apply (maintains_bind_value (keeps p) _ _ (fun d => d = u "../akamai/images")).
  - apply images_keeps, H1.
  - apply images_value.
  - intros d ->.
    apply maintains_bind; try typeclasses eauto; [apply save_keeps, H2 | intros _].
    apply maintains_bind; try typeclasses eauto; [keeps_frame | intros ratio].
    unfold IMAGE_WIDTHS. cbn [for_each].
    apply maintains_bind; try typeclasses eauto;
      [apply stage_width_keeps, H3 | intros _].
    apply maintains_bind; try typeclasses eauto;
      [apply stage_width_keeps, H4 | intros _].
    apply maintains_ret; typeclasses eauto.
Qed.

Lemma stage_entry_keeps w p name b :
  int (stem name) = Some b -> p ∉ written_paths b ->
  maintains (keeps p) (stage_entry w name).
Proof.
  intros Hb Hp. unfold written_paths in Hp. rewrite !not_elem_of_cons in Hp.
  destruct Hp as (P1 & P2 & P3 & P4 & P5 & P6 & _).
  intros s. rewrite (stage_entry_parsed w name b s Hb). revert s.
  apply maintains_bind; try typeclasses eauto.
  - destruct (str_eqb _ _).
    + apply stage_audio_keeps; assumption.
    + apply stage_image_keeps; assumption.
  - intros _. keeps_frame.
Qed.

(** The files of a document are not among the paths that staging another
    document writes. *)
Lemma files_of_other a b p : a <> b -> p ∈ files_of a -> p ∉ written_paths b.
Proof.
  intros Hab Hp. unfold files_of in Hp. rewrite !elem_of_cons, elem_of_nil in Hp.
  unfold written_paths. rewrite !not_elem_of_cons.
  assert (V : forall T T', variant_path a T <> variant_path b T').
  { intros T T' H. unfold variant_path, joinpath in H. apply app_inv_head in H.
    injection H as H.
    change (u "-" ++ format_d T ++ u ".jpg") with (45%N :: format_d T ++ u ".jpg") in H.
    change (u "-" ++ format_d T' ++ u ".jpg") with (45%N :: format_d T' ++ u ".jpg") in H.
    apply format_d_prefix in H as [H _]. contradiction. }
  assert (F : full_path a <> full_path b).
  { intros H. unfold full_path, joinpath in H. apply app_inv_head in H.
    injection H as H. apply app_inv_tail, format_d_inj in H. contradiction. }
  assert (A : audio_path a <> audio_path b).
  { intros H. unfold audio_path, joinpath in H. apply app_inv_head in H.
    injection H as H. apply app_inv_tail, format_d_inj in H. contradiction. }
  assert (FV : forall x y T, full_path x <> variant_path y T).
  { intros x y T H. unfold full_path, variant_path, joinpath in H.
    apply app_inv_head in H. injection H as H.
    change (u "-" ++ format_d T ++ u ".jpg") with (45%N :: format_d T ++ u ".jpg") in H.
    apply app_eq_inv in H as [(k & H1 & H2) | (k & H1 & H2)].
    - destruct k as [|c k]; [discriminate H2|].
      cbn [app] in H2. injection H2 as <- _.
      apply format_d_minus in H1. exact (format_d_not_empty y H1).
    - destruct k as [|c1 [|c2 [|c3 [|c4 k]]]]; try discriminate H2.
      destruct k; discriminate H2. }
  assert (D : forall dir x, joinpath dir x <> dir).
  { intros dir x H. unfold joinpath in H.
    apply (f_equal length) in H. rewrite length_app in H. cbn [length] in H. lia. }
  destruct Hp as [-> | [-> | [-> | [-> | []]]]];
    repeat split;
    try apply not_elem_of_nil;
    try (intros H; first [ exact (A H) | exact (F H) | exact (V _ _ H)
                         | exact (FV _ _ _ H) | exact (FV _ _ _ (eq_sym H))
                         | exact (D _ _ H) | discriminate H ]).
Qed.

(** X21. Once the staging root has been cleared in this process, staging an
    entry changes only the paths of its own document and the two
    subdirectories: whatever any other path holds stays, so the files staged
    for another document are neither removed nor overwritten; and the root
    is not cleared again. *)
Theorem other_documents_kept (w : world) (name : str) (b : Z) (s : state) :
  int (stem name) = Some b -> akamai_cached s = true ->
  akamai_cached (snd (stage_entry w name s)) = true
  /\ (forall p, p ∉ written_paths b ->
        entries_of (akamai_dir (snd (stage_entry w name s))) !! p
        = entries_of (akamai_dir s) !! p)
  /\ (forall a p, a <> b -> p ∈ files_of a ->
        entries_of (akamai_dir (snd (stage_entry w name s))) !! p
        = entries_of (akamai_dir s) !! p).
Proof.
  intros Hb Hc.
  assert (K : forall p, p ∉ written_paths b ->
            akamai_cached (snd (stage_entry w name s)) = true
            /\ entries_of (akamai_dir (snd (stage_entry w name s))) !! p
               = entries_of (akamai_dir s) !! p).
  { intros p Hp. apply (stage_entry_keeps w p name b Hb Hp s Hc). }
  split; [| split].
  - apply (K []). unfold written_paths. rewrite !not_elem_of_cons.
    repeat split; try apply not_elem_of_nil; discriminate.
  - intros p Hp. apply (K p Hp).
  - intros a p Hab Hp. apply (K p), (files_of_other a b p Hab Hp).
Qed.

Lemma other_documents_kept_witness :
  entries_of
    (akamai_dir
       (snd (stage_entry world_with_secret (u "42.png")
               (snd (stage_entry world_with_secret (u "7.mp3") (fresh Absent ∅ []))))))
    !! audio_path 7
  = Some (HardLink (u "../blobs/7.mp3")).
Proof.
  destruct (other_documents_kept world_with_secret (u "42.png") 42
              (snd (stage_entry world_with_secret (u "7.mp3") (fresh Absent ∅ [])))
              eq_refl eq_refl) as (_ & _ & H).
  rewrite (H 7 (audio_path 7)).
  - vm_compute. reflexivity.
  - discriminate.
  - unfold files_of. apply elem_of_cons. left. reflexivity.
Defined.

(** * Progress on the console *)

Lemma progress_succ c n :
  progress c (S n) = MsgStagedSoFar (c + 1) :: progress (c + 1) n.
Proof.
  unfold progress. cbn [seq map]. f_equal.
  rewrite <- seq_shift, map_map. apply map_ext. intros i. f_equal. lia.
Qed.

Lemma count_entry_verbose w o s :
  parse_args w = Returns o -> verbose o = true ->
  count_entry w s =
    (Returns tt,
     set_console (console s ++ [MsgStagedSoFar (count s + 1)]) (set_count (count s + 1) s)).
Proof.
  intros Ho Hv. unfold count_entry, get_verbose, opts, stderr_write.
  cbv [bind gets modify lift ret]. rewrite Ho. cbv beta iota. rewrite Hv. reflexivity.
Qed.

Lemma stage_audio_console w b path : preserves console (stage_audio w b path).
Proof. frame_auto. Qed.

Lemma stage_image_console w b path : preserves console (stage_image w b path).
Proof. frame_auto. Qed.

Lemma stage_entry_verbose w o name s s1 :
  parse_args w = Returns o -> verbose o = true ->
  stage_entry w name s = (Returns tt, s1) ->
  console s1 = console s ++ [MsgStagedSoFar (count s + 1)] /\ count s1 = count s + 1.
Proof.
  intros Ho Hv H.
  destruct (int (stem name)) as [b|] eqn:Hb.
  2:{ rewrite (stage_entry_bad_stem w name s Hb) in H. discriminate H. }
  rewrite (stage_entry_parsed w name b s Hb) in H.
  apply bind_inv_returns in H as ([] & sa & Ha & Hc).
  rewrite (count_entry_verbose w o sa Ho Hv) in Hc. injection Hc as <-.
  state_simpl.
  assert (E : console sa = console s /\ count sa = count s).
  { destruct (str_eqb _ _).
    - pose proof (stage_audio_console w b (joinpath blobs name) s) as H1.
      pose proof (stage_audio_count w b (joinpath blobs name) s) as H2.
      rewrite Ha in H1, H2. split; assumption.
    - pose proof (stage_image_console w b (joinpath blobs name) s) as H1.
      pose proof (stage_image_count w b (joinpath blobs name) s) as H2.
      rewrite Ha in H1, H2. split; assumption. }
  destruct E as [-> ->]. split; reflexivity.
Qed.

Lemma for_each_entry_verbose w o names : forall s s1,
  parse_args w = Returns o -> verbose o = true ->
  for_each names (stage_entry w) s = (Returns tt, s1) ->
  console s1 = console s ++ progress (count s) (length names).
Proof.
  induction names as [|name names IH]; intros s s1 Ho Hv H; cbn [for_each length] in *.
  - injection H as <-. unfold progress. cbn. symmetry. apply app_nil_r.
  - apply bind_inv_returns in H as ([] & sa & Ha & Hr).
    destruct (stage_entry_verbose w o name s sa Ho Hv Ha) as [Hc Hn].
    rewrite (IH sa s1 Ho Hv Hr), Hc, Hn, progress_succ, <- app_assoc. reflexivity.
Qed.

(** X22. With [--verbose], a staging that completes has written to the
    console one progress message per entry, carrying the running count, and
    then the closing message with the elapsed time; nothing else. *)
Theorem stage_progress (w : world) (s s' : state) (o : options) :
  parse_args w = Returns o -> verbose o = true ->
  stage w s = (Returns tt, s') ->
  console s' =
    console s ++ progress (count s) (length (glob_blobs w))
              ++ [MsgDone (stage_elapsed w s)].
Proof.
  intros Ho Hv. rewrite stage_from_now. intros H.
  apply bind_inv_returns in H as ([] & s1 & Hloop & H).
  pose proof (for_each_entry_verbose w o _ _ _ Ho Hv Hloop) as Hc.
  pose proof (for_each_entry_ticks w (glob_blobs w) (set_ticks (S (ticks s)) s)) as Ht.
  rewrite Hloop in Ht. unfold same in Ht. cbn [snd ticks set_ticks] in Ht.
  cbn [console count set_ticks] in Hc.
  rewrite (bind_returns _ _ _ _ _ (now_returns w s1)) in H. rewrite Ht in H.
  revert H. unfold get_logger, get_verbose, opts.
  destruct (log_file_error w); [discriminate|].
  cbv [bind ret gets log_append modify lift]. state_simpl.
  rewrite Ho. cbv beta iota. rewrite Hv. unfold when, stderr_write, modify.
  intros [= <-]. state_simpl. rewrite Hc, <- app_assoc. reflexivity.
Qed.

Lemma stage_progress_witness :
  console (snd (stage (with_options (Returns verbose_options) world_with_secret)
                  (fresh Absent ∅ [])))
  = [MsgStagedSoFar 1; MsgStagedSoFar 2; MsgDone 1].
Proof.
  exact (stage_progress (with_options (Returns verbose_options) world_with_secret)
           (fresh Absent ∅ [])
           (snd (stage (with_options (Returns verbose_options) world_with_secret)
                   (fresh Absent ∅ [])))
           verbose_options eq_refl eq_refl ltac:(vm_compute; reflexivity)).
Defined.

(** * The log of a sync *)








(** * The variables of the agent *)

Lemma environ_set_storable key v s :
  storable v = true ->
  environ_set key v s = (Returns tt, set_environ (<[ key := v ]> (environ s)) s).
Proof.
  unfold storable, environ_set. intros H. apply andb_true_iff in H as [H1 H2].
  apply negb_true_iff in H1, H2. rewrite H1, H2. reflexivity.
Qed.

Lemma agent_line_sock v rest s :
  plain v = true -> storable v = true ->
  agent_line (sock_line v rest) s =
    (Returns tt, set_environ (<[ u "SSH_AUTH_SOCK" := v ]> (environ s)) s).
Proof.
  intros Hp Hs. unfold agent_line, KEYS. cbn [for_each].
  change (startswith (u "SSH_AUTH_SOCK") (sock_line v rest)) with true.
  change (startswith (u "SSH_AGENT_PID") (sock_line v rest)) with false.
  cbn [when].
  change (sock_line v rest) with (u "SSH_AUTH_SOCK" ++ 61%N :: v ++ 59%N :: rest).
  rewrite (set_from_line_value _ (u "SSH_AUTH_SOCK") v (59%N :: rest) eq_refl Hp eq_refl).
  cbv [bind ret]. rewrite (environ_set_storable _ v s Hs). reflexivity.
Qed.

Lemma agent_line_pid v rest s :
  plain v = true -> storable v = true ->
  agent_line (pid_line v rest) s =
    (Returns tt, set_environ (<[ u "SSH_AGENT_PID" := v ]> (environ s)) s).
Proof.
  intros Hp Hs. unfold agent_line, KEYS. cbn [for_each].
  change (startswith (u "SSH_AUTH_SOCK") (pid_line v rest)) with false.
  change (startswith (u "SSH_AGENT_PID") (pid_line v rest)) with true.
  cbn [when].
  change (pid_line v rest) with (u "SSH_AGENT_PID" ++ 61%N :: v ++ 59%N :: rest).
  rewrite (set_from_line_value _ (u "SSH_AGENT_PID") v (59%N :: rest) eq_refl Hp eq_refl).
  cbv [bind ret]. rewrite (environ_set_storable _ v s Hs). reflexivity.
Qed.

(** X24. When the agent prints its two assignments, [SSH_AUTH_SOCK=v1;...]
    and [SSH_AGENT_PID=v2;...], followed by lines that begin with neither
    name, the bridge returns normally and leaves both variables set to
    [v1] and [v2] in the environment, which is otherwise unchanged. *)
Theorem agent_variables (w : world) (s : state) (result : completed)
    (v1 r1 v2 r2 : str) (others : list str) :
  subprocess w ssh_agent_command VNone (environ s) = Returns result ->
  splitlines (stdout result) = sock_line v1 r1 :: pid_line v2 r2 :: others ->
  plain v1 = true -> storable v1 = true ->
  plain v2 = true -> storable v2 = true ->
  forallb (fun l => negb (recognized l)) others = true ->
  start_ssh_agent w s =
    (Returns tt,
     set_environ (<[ u "SSH_AGENT_PID" := v2 ]> (<[ u "SSH_AUTH_SOCK" := v1 ]> (environ s)))
       (after_command ssh_agent_command s)).
Proof.
  intros Hr Hl P1 S1 P2 S2 Ho.
  rewrite (start_ssh_agent_lines w s result Hr), Hl. cbn [for_each].
  rewrite (bind_returns _ _ _ _ _ (agent_line_sock v1 r1 _ P1 S1)).
  rewrite (bind_returns _ _ _ _ _ (agent_line_pid v2 r2 _ P2 S2)).
  rewrite (agent_lines_unrecognized others _ Ho). reflexivity.
Qed.

Lemma agent_variables_witness :
  environ (snd (start_ssh_agent world_with_secret (fresh Absent ∅ [])))
  = <[ u "SSH_AGENT_PID" := u "4242" ]>
      (<[ u "SSH_AUTH_SOCK" := u "/tmp/ssh-XXXX/agent.1" ]> ∅).
Proof.
  rewrite (agent_variables world_with_secret (fresh Absent ∅ [])
             {| returncode := 0; stdout := agent_text; stderr := [] |}
             (u "/tmp/ssh-XXXX/agent.1") (u " export SSH_AUTH_SOCK;")
             (u "4242") (u " export SSH_AGENT_PID;") [u "echo Agent pid 4242;"]
             eq_refl ltac:(vm_compute; reflexivity)
             eq_refl eq_refl eq_refl eq_refl eq_refl).
  reflexivity.
Defined.

(** * The log of a run *)

Lemma now_log_view w : preserves log_view (now w).
Proof. frame_auto. Qed.

Lemma stage_log_view w s s' :
  stage w s = (Returns tt, s') ->
  log_view s' = (log s ++ [staged_record w s],
                 count s + Z.of_nat (length (glob_blobs w))).
Proof.
  intros H. destruct (stage_returns w s s' H) as [Hc Hl].
  unfold log_view. rewrite Hc, Hl. reflexivity.
Qed.


